(** * QuickSand Poker: a shallow embedding of [src/main.py]

    The development follows the layout of the program: the card and deck
    model, the player record with its betting method, the hand evaluator,
    the Monte Carlo estimator and the [PokerGame] engine (blinds, betting
    street, automated policy, settlement).  Chip amounts are Python integers
    and are modelled in [Z]; seats are list positions and are modelled in
    [nat]; a Python exception is the [None] of an [option]. *)

From Stdlib Require Import ZArith QArith Lia.
From stdpp Require Import base option numbers list.

Local Open Scope Z_scope.

(** ** Cards *)

Module Cards.

(** [SUITS = ['♠', '♥', '♦', '♣']] *)
Inductive Suit := Spades | Hearts | Diamonds | Clubs.

(** [RANKS = ['2', ..., '10', 'J', 'Q', 'K', 'A']] *)
Inductive Rank :=
  | R2 | R3 | R4 | R5 | R6 | R7 | R8 | R9 | R10 | RJ | RQ | RK | RA.

Definition SUITS : list Suit := [Spades; Hearts; Diamonds; Clubs].
Definition RANKS : list Rank :=
  [R2; R3; R4; R5; R6; R7; R8; R9; R10; RJ; RQ; RK; RA].

#[global] Instance Suit_eq_dec : EqDecision Suit.
Proof. solve_decision. Defined.
#[global] Instance Rank_eq_dec : EqDecision Rank.
Proof. solve_decision. Defined.

Record Card := mkCard { rank : Rank; suit : Suit }.

#[global] Instance Card_eq_dec : EqDecision Card.
Proof. solve_decision. Defined.

(** [self.rank_value = RANKS.index(rank)] *)
Definition index_of (r : Rank) : Z :=
  match r with
  | R2 => 0 | R3 => 1 | R4 => 2 | R5 => 3 | R6 => 4 | R7 => 5 | R8 => 6
  | R9 => 7 | R10 => 8 | RJ => 9 | RQ => 10 | RK => 11 | RA => 12
  end.

Definition rank_value (c : Card) : Z := index_of (rank c).

(** [[Card(rank, suit) for suit in SUITS for rank in RANKS]] *)
Definition all_cards : list Card :=
  s ← SUITS; r ← RANKS; [mkCard r s].

End Cards.
Export Cards.

(** ** Deck *)

Module Deck.

(** What [deal] hands back: [None], one card, or a list of cards. *)
Inductive Dealt :=
  | DealtNone
  | DealtCard (c : Card)
  | DealtList (cs : list Card).

(** [Deck.deal(count)].  The deck is its list of remaining cards; the result
    pairs the returned value with the deck afterwards.  The outer [None] is
    the [IndexError] of [cards[0]] on an empty slice (count = 0 only). *)
Definition deal (count : nat) (cards : list Card) : option (Dealt * list Card) :=
  if (length cards <? count)%nat then Some (DealtNone, cards)
  else
    let dealt := take count cards in
    let rest := drop count cards in
    if (1 <? count)%nat then Some (DealtList dealt, rest)
    else match dealt with
         | c :: _ => Some (DealtCard c, rest)
         | [] => None
         end.

(** [Deck()]: the 52 cards in the order [shuffle] leaves them, [shuffle]
    being what [random.shuffle] does to the list. *)
Definition new (shuffle : list Card → list Card) : list Card :=
  shuffle all_cards.

End Deck.

(** ** Player *)

Module Player.

Record t := mk {
  chips : Z;
  hand : list Card;
  is_active : bool;
  is_ai : bool;
  current_bet : Z
}.

(** [Player(name, chips, is_ai)] *)
Definition new (chips : Z) (is_ai : bool) : t :=
  mk chips [] true is_ai 0.

(** [clear_hand] *)
Definition clear_hand (p : t) : t :=
  mk (chips p) [] true (is_ai p) 0.

(** [place_bet(amount)]: the amount actually paid and the player afterwards. *)
Definition place_bet (amount : Z) (p : t) : Z * t :=
  let amount := if chips p <? amount then chips p else amount in
  (amount, mk (chips p - amount) (hand p) (is_active p) (is_ai p)
              (current_bet p + amount)).

(** [fold] *)
Definition fold (p : t) : t :=
  mk (chips p) (hand p) false (is_ai p) (current_bet p).

(** [winner.chips += n] *)
Definition add_chips (n : Z) (p : t) : t :=
  mk (chips p + n) (hand p) (is_active p) (is_ai p) (current_bet p).

(** [add_cards] with a single card and with a list. *)
Definition add_card (c : Card) (p : t) : t :=
  mk (chips p) (hand p ++ [c]) (is_active p) (is_ai p) (current_bet p).

(** A run of bets placed one after the other by the same player. *)
Definition place_bets (amounts : list Z) (p : t) : t :=
  foldl (λ q a, (place_bet a q).2) p amounts.

End Player.

(** ** Hand evaluation *)

Module Hand.

(** [(hand_rank, tie_breakers)] *)
Definition HandScore : Type := Z * list Z.

(** Python's [<] on lists of integers: the first differing position
    decides, a proper prefix is smaller. *)
Fixpoint list_ltb (a b : list Z) : bool :=
  match a, b with
  | [], [] => false
  | [], _ :: _ => true
  | _ :: _, [] => false
  | x :: a', y :: b' =>
      if x <? y then true else if y <? x then false else list_ltb a' b'
  end.

(** Python's [<] on the tuples [(int, list)]. *)
Definition score_ltb (s t : HandScore) : bool :=
  if s.1 <? t.1 then true
  else if t.1 <? s.1 then false
  else list_ltb s.2 t.2.

(** [s > t] is [t < s]. *)
Definition score_gtb (s t : HandScore) : bool := score_ltb t s.

(** [sorted(xs, key=key, reverse=True)]: stable, largest key first. *)
Section Sorted.
Context {A K : Type} (key : A → K) (ltb : K → K → bool).

Fixpoint insert_desc (x : A) (l : list A) : list A :=
  match l with
  | [] => [x]
  | y :: l' =>
      if ltb (key x) (key y) then y :: insert_desc x l' else x :: y :: l'
  end.

Definition sorted_desc (l : list A) : list A := foldr insert_desc [] l.

Fixpoint insert_asc (x : A) (l : list A) : list A :=
  match l with
  | [] => [x]
  | y :: l' =>
      if ltb (key y) (key x) then y :: insert_asc x l' else x :: y :: l'
  end.

Definition sorted_asc (l : list A) : list A := foldr insert_asc [] l.
End Sorted.

(** [Counter(ranks)]: the counts, keyed in order of first appearance. *)
Fixpoint bump (r : Z) (items : list (Z * nat)) : list (Z * nat) :=
  match items with
  | [] => [(r, 1%nat)]
  | (k, c) :: rest =>
      if k =? r then (k, S c) :: rest else (k, c) :: bump r rest
  end.

Definition Counter (ranks : list Z) : list (Z * nat) :=
  foldl (λ items r, bump r items) [] ranks.

(** [rank_count[r]], which is 0 for a rank that was never counted. *)
Fixpoint count_of (r : Z) (items : list (Z * nat)) : nat :=
  match items with
  | [] => 0%nat
  | (k, c) :: rest => if k =? r then c else count_of r rest
  end.

(** [rank_count.values()] *)
Definition values (items : list (Z * nat)) : list nat := map snd items.

(** [n in rank_count.values()] *)
Definition has_count (n : nat) (items : list (Z * nat)) : bool :=
  existsb (Nat.eqb n) (values items).

(** [[r for r, count in rank_count.items() if count == n]] *)
Definition ranks_with (n : nat) (items : list (Z * nat)) : list Z :=
  map fst (filter (λ it, it.2 = n) items).

(** [set(xs) == {...}] for a set written out as the list [ys]. *)
Definition set_eqb (xs ys : list Z) : bool :=
  forallb (λ x, bool_decide (x ∈ ys)) xs
  && forallb (λ y, bool_decide (y ∈ xs)) ys.

(** [max(xs)] and [min(xs)]; the program calls them only on a list it has
    just checked to hold five values. *)
Definition maximum (xs : list Z) : Z :=
  match xs with [] => 0 | x :: xs' => foldl Z.max x xs' end.
Definition minimum (xs : list Z) : Z :=
  match xs with [] => 0 | x :: xs' => foldl Z.min x xs' end.

(** The straight test of [evaluate_hand]: [(is_straight, straight_high)]. *)
Definition straight_check (rank_values : list Z) : bool * Z :=
  if set_eqb rank_values [0; 9; 10; 11; 12] then (true, 12)
  else
    let is_straight :=
      (length rank_values =? 5)%nat
      && (maximum rank_values - minimum rank_values =? 4) in
    (is_straight, if is_straight then maximum rank_values else 0).

(** The body of [evaluate_hand] for a hand that is neither shorter nor
    longer than five cards.  [head l] is [l[0]]; its [None] is the
    [IndexError]. *)
Definition evaluate_five (cards : list Card) : option HandScore :=
  let ranks := map rank_value cards in
  let suits := map suit cards in
  let is_flush := (length (remove_dups suits) =? 1)%nat in
  let rank_count := Counter ranks in
  let rank_values := sorted_asc id Z.ltb (remove_dups ranks) in
  let '(is_straight, straight_high) := straight_check rank_values in
  if is_flush && set_eqb ranks [8; 9; 10; 11; 12] then Some (9, [])
  else if is_flush && is_straight then Some (8, [straight_high])
  else if has_count 4 rank_count then
    four_rank ← head (ranks_with 4 rank_count);
    kicker ← head (filter (λ r, r ≠ four_rank) ranks);
    Some (7, [four_rank; kicker])
  else if has_count 3 rank_count && has_count 2 rank_count then
    three_rank ← head (ranks_with 3 rank_count);
    two_rank ← head (ranks_with 2 rank_count);
    Some (6, [three_rank; two_rank])
  else if is_flush then Some (5, sorted_desc id Z.ltb ranks)
  else if is_straight then Some (4, [straight_high])
  else if has_count 3 rank_count then
    three_rank ← head (ranks_with 3 rank_count);
    let kickers := sorted_desc id Z.ltb (filter (λ r, r ≠ three_rank) ranks) in
    Some (3, three_rank :: kickers)
  else if (length (filter (λ c, c = 2%nat) (values rank_count)) =? 2)%nat then
    let pairs := sorted_desc id Z.ltb (ranks_with 2 rank_count) in
    kicker ← head (filter (λ r, count_of r rank_count = 1%nat) ranks);
    Some (2, pairs ++ [kicker])
  else if has_count 2 rank_count then
    pair_rank ← head (ranks_with 2 rank_count);
    let kickers := sorted_desc id Z.ltb (filter (λ r, r ≠ pair_rank) ranks) in
    Some (1, pair_rank :: kickers)
  else Some (0, sorted_desc id Z.ltb ranks).

(** [itertools.combinations(l, k)], in the order the library yields them. *)
Fixpoint combinations {A : Type} (l : list A) (k : nat) : list (list A) :=
  match k, l with
  | O, _ => [[]]
  | S _, [] => []
  | S k', x :: xs => map (cons x) (combinations xs k') ++ combinations xs k
  end.

(** The number of ways to pick [k] of [n]. *)
Fixpoint choose (n k : nat) : nat :=
  match k, n with
  | O, _ => 1%nat
  | S _, O => 0%nat
  | S k', S n' => (choose n' k' + choose n' k)%nat
  end.

(** [max(items, key=...)]: the first of the largest items; [None] is the
    [ValueError] on an empty sequence. *)
Definition py_max {A : Type} (ltb : A → A → bool) (items : list A) : option A :=
  match items with
  | [] => None
  | x :: rest => Some (foldl (λ best y, if ltb best y then y else best) x rest)
  end.

(** [evaluate_hand], with the depth of its recursion made explicit: the
    call on a hand of more than five cards recurses once, on five-card
    combinations. *)
Fixpoint evaluate_hand_rec (depth : nat) (cards : list Card) : option HandScore :=
  match depth with
  | O => None
  | S depth' =>
      if (length cards <? 5)%nat then
        Some (0, map rank_value (sorted_desc rank_value Z.ltb cards))
      else if (5 <? length cards)%nat then
        scores ← mapM (evaluate_hand_rec depth') (combinations cards 5);
        py_max score_ltb scores
      else evaluate_five cards
  end.

Definition evaluate_hand (cards : list Card) : option HandScore :=
  evaluate_hand_rec 2 cards.

(** The order on scores in the words of the specification: the category
    decides, then the tie-break sequences are compared position by
    position, most significant first. *)
Inductive seq_lt : list Z → list Z → Prop :=
  | seq_lt_nil y b : seq_lt [] (y :: b)
  | seq_lt_head x y a b : x < y → seq_lt (x :: a) (y :: b)
  | seq_lt_tail x a b : seq_lt a b → seq_lt (x :: a) (x :: b).

Definition lex_lt (s t : HandScore) : Prop :=
  s.1 < t.1 ∨ (s.1 = t.1 ∧ seq_lt s.2 t.2).

(** The five-card subsets of a hand, and the best score among them, in the
    words of the specification: a score some subset reaches and no subset
    beats. *)
Definition five_card_subset (sub cards : list Card) : Prop :=
  sub `sublist_of` cards ∧ length sub = 5%nat.

Definition best_of_five (cards : list Card) (best : HandScore) : Prop :=
  (∃ sub, five_card_subset sub cards ∧ evaluate_hand sub = Some best)
  ∧ ∀ sub s, five_card_subset sub cards → evaluate_hand sub = Some s →
             ¬ lex_lt best s.

(** The number of tie-breakers that the score of a hand of five cards or
    more carries, category by category. *)
Definition tie_breaker_count (category : Z) : nat :=
  if category =? 9 then 0
  else if (category =? 8) || (category =? 4) then 1
  else if (category =? 7) || (category =? 6) then 2
  else if (category =? 3) || (category =? 2) then 3
  else if category =? 1 then 4
  else 5.

End Hand.

(** ** Floating-point numbers *)

(** The doubles that [wins / iterations] and [... * 100] produce.  A
    finite double is kept as the rational it stands for (the sign of a
    zero is not kept); [None] stands for what is not a finite double. *)
Module Double.

(** The 53 bits of a significand; the exponent of the smallest unit in the
    last place, and the exponent the largest double stays below. *)
Definition prec : Z := 53.
Definition emin : Z := -1074.
Definition emax : Z := 1024.

(** The integer part of the binary logarithm of [n / d], both positive. *)
Definition ilog2 (n d : Z) : Z :=
  let k := Z.log2 n - Z.log2 d in
  if d * 2 ^ Z.max k 0 <=? n * 2 ^ Z.max (- k) 0 then k else k - 1.

(** The integer nearest to [num / den], the even one of two that are as
    near; [den] is positive. *)
Definition round_half_even (num den : Z) : Z :=
  let q := num / den in
  let r := num mod den in
  if 2 * r <? den then q
  else if den <? 2 * r then q + 1
  else if Z.even q then q else q + 1.

(** The double nearest to [x], ties to even: [x] is scaled by the unit in
    the last place of its binade, [2 ^ e], and rounded to an integer. *)
Definition round (x : Q) : option Q :=
  let n := Qnum x in
  let d := Zpos (Qden x) in
  if n =? 0 then Some 0%Q
  else
    let a := Z.abs n in
    let e := Z.max (ilog2 a d - (prec - 1)) emin in
    let m := round_half_even (a * 2 ^ Z.max (- e) 0) (d * 2 ^ Z.max e 0) in
    let v := (m * 2 ^ Z.max e 0) # Z.to_pos (2 ^ Z.max (- e) 0) in
    if Qle_bool (inject_Z (2 ^ emax)) v then None
    else Some (if n <? 0 then - v else v)%Q.

(** [a / b] on two [int]s: the double nearest to the quotient; [None] is
    the [ZeroDivisionError], or the [OverflowError] of a quotient too
    large for a double. *)
Definition div (a b : Z) : option Q :=
  if b =? 0 then None else round (inject_Z a / inject_Z b).

(** [x * y] on two doubles: the double nearest to the product. *)
Definition mul (x y : Q) : option Q := round (x * y).

End Double.

(** ** Monte Carlo estimator *)

Module Estimator.
Import Hand.

(** Python's slice [xs[start:stop]], negative positions counting from the
    end. *)
Definition clamp (len i : Z) : Z :=
  if i <? 0 then Z.max (i + len) 0 else Z.min i len.

Definition slice {A : Type} (xs : list A) (start stop : Z) : list A :=
  let len := Z.of_nat (length xs) in
  let lo := clamp len start in
  let hi := clamp len stop in
  take (Z.to_nat (hi - lo)) (drop (Z.to_nat lo) xs).

(** The cards the player has not seen. *)
Definition available_cards (all_known_cards : list Card) : list Card :=
  filter (λ c, c ∉ all_known_cards) all_cards.

(** The loop over the opponents' hands, with its [break]. *)
Fixpoint player_wins (player_score : HandScore) (simulated_community : list Card)
    (opponent_hands : list (list Card)) : option bool :=
  match opponent_hands with
  | [] => Some true
  | opp_hand :: rest =>
      opp_score ← evaluate_hand (opp_hand ++ simulated_community);
      if score_gtb opp_score player_score then Some false
      else player_wins player_score simulated_community rest
  end.

(** The hands dealt to the opponents from the shuffled cards. *)
Definition opponent_hands (available : list Card) (remaining_community num_players : Z)
    : list (list Card) :=
  map (λ j, slice available (remaining_community + 2 * j)
                            (remaining_community + 2 * j + 2))
      (seqZ 0 (num_players - 1)).

(** The completed board of one iteration. *)
Definition simulated_community (community_cards available : list Card) : list Card :=
  community_cards ++ slice available 0 (5 - Z.of_nat (length community_cards)).

(** One iteration of the simulation, on the cards as shuffled for it. *)
Definition trial (player_hand community_cards : list Card) (num_players : Z)
    (available : list Card) : option bool :=
  let remaining_community := 5 - Z.of_nat (length community_cards) in
  let simulated := simulated_community community_cards available in
  let opps := opponent_hands available remaining_community num_players in
  player_score ← evaluate_hand (player_hand ++ simulated);
  player_wins player_score simulated opps.

(** A win in the words of the specification: on the cards as shuffled, no
    opponent's score strictly exceeds the player's. *)
Definition no_opponent_ahead (player_hand community_cards : list Card)
    (num_players : Z) (available : list Card) : Prop :=
  let board := simulated_community community_cards available in
  let remaining := 5 - Z.of_nat (length community_cards) in
  ∀ opp_hand player_score opp_score,
    opp_hand ∈ opponent_hands available remaining num_players →
    evaluate_hand (player_hand ++ board) = Some player_score →
    evaluate_hand (opp_hand ++ board) = Some opp_score →
    ¬ lex_lt player_score opp_score.

Section WithShuffle.
(** [random.shuffle], call by call: [shuffle k xs] is the order the [k]-th
    call leaves the list [xs] in. *)
Variable shuffle : nat → list Card → list Card.

(** [for _ in range(iterations)], from iteration [k] on: the list is
    shuffled in place, so each iteration starts from the order the one
    before left. *)
Fixpoint iterate (n k : nat) (player_hand community_cards : list Card)
    (num_players : Z) (available : list Card) (wins : Z) : option Z :=
  match n with
  | O => Some wins
  | S n' =>
      let available := shuffle k available in
      won ← trial player_hand community_cards num_players available;
      iterate n' (S k) player_hand community_cards num_players available
              (if won : bool then wins + 1 else wins)
  end.

(** The orders of the cards that iterations [k], [k+1], ... see, one
    after the other. *)
Fixpoint decks (n k : nat) (available : list Card) : list (list Card) :=
  match n with
  | O => []
  | S n' =>
      let available := shuffle k available in
      available :: decks n' (S k) available
  end.

(** [calculate_win_probability].  [(wins / iterations) * 100] is computed
    in doubles: the quotient of the two [int]s is rounded, and so is its
    product with 100.  [None] is the [ZeroDivisionError] of
    [wins / iterations]. *)
Definition calculate_win_probability (player_hand community_cards : list Card)
    (num_players iterations : Z) : option Q :=
  let available := available_cards (player_hand ++ community_cards) in
  wins ← iterate (Z.to_nat iterations) 0 player_hand community_cards
                 num_players available 0;
  ratio ← Double.div wins iterations;
  Double.mul ratio (inject_Z 100).
End WithShuffle.

End Estimator.

(** ** The game engine *)

Module Game.
Import Hand.

(** The action strings ["fold"], ["check"], ["call"], ["raise <amount>"]. *)
Inductive Action :=
  | Fold
  | Check
  | Call
  | Raise (amount : Z).

#[global] Instance Action_eq_dec : EqDecision Action.
Proof. solve_decision. Defined.

Record t := mk {
  players : list Player.t;
  deck : list Card;
  community_cards : list Card;
  pot : Z;
  current_bet : Z;
  dealer_idx : nat;
  current_player_idx : nat;
  small_blind : Z;
  big_blind : Z
}.

Definition set_players (ps : list Player.t) (g : t) : t :=
  mk ps (deck g) (community_cards g) (pot g) (current_bet g) (dealer_idx g)
     (current_player_idx g) (small_blind g) (big_blind g).
Definition set_deck (d : list Card) (g : t) : t :=
  mk (players g) d (community_cards g) (pot g) (current_bet g) (dealer_idx g)
     (current_player_idx g) (small_blind g) (big_blind g).
Definition set_pot (n : Z) (g : t) : t :=
  mk (players g) (deck g) (community_cards g) n (current_bet g) (dealer_idx g)
     (current_player_idx g) (small_blind g) (big_blind g).
Definition set_current_bet (n : Z) (g : t) : t :=
  mk (players g) (deck g) (community_cards g) (pot g) n (dealer_idx g)
     (current_player_idx g) (small_blind g) (big_blind g).
Definition set_dealer_idx (i : nat) (g : t) : t :=
  mk (players g) (deck g) (community_cards g) (pot g) (current_bet g) i
     (current_player_idx g) (small_blind g) (big_blind g).
Definition set_current_player_idx (i : nat) (g : t) : t :=
  mk (players g) (deck g) (community_cards g) (pot g) (current_bet g)
     (dealer_idx g) i (small_blind g) (big_blind g).

(** [a % n] on seats; [None] is the [ZeroDivisionError] at an empty table. *)
Definition py_mod (a n : nat) : option nat :=
  if (n =? 0)%nat then None else Some (a mod n)%nat.

(** [self.players[seat].place_bet(amount)] *)
Definition bet_at (seat : nat) (amount : Z) (ps : list Player.t)
    : option (Z * list Player.t) :=
  p ← ps !! seat;
  let '(paid, p') := Player.place_bet amount p in
  Some (paid, <[seat := p']> ps).

(** *** start_new_round *)

(** [player.add_cards(self.deck.deal())] for the player at [seat].  Should
    the deck run out, the program appends the [None] that [deal] returned to
    the hand; hands here hold cards only, and the model stops instead. *)
Definition deal_to (seat : nat) (g : t) : option t :=
  '(dealt, rest) ← Deck.deal 1 (deck g);
  match dealt with
  | Deck.DealtCard c =>
      Some (set_deck rest (set_players (alter (Player.add_card c) seat (players g)) g))
  | _ => None
  end.

(** The two dealing passes around the table. *)
Definition deal_hands (g : t) : option t :=
  let seats := seq 0 (length (players g)) in
  foldl (λ og seat, g ← og; deal_to seat g) (Some g) (seats ++ seats).

(** The forced bets and the first seat to act. *)
Definition post_blinds (g : t) : option t :=
  let n := length (players g) in
  sb_idx ← py_mod (dealer_idx g + 1) n;
  bb_idx ← py_mod (dealer_idx g + 2) n;
  '(sb, ps) ← bet_at sb_idx (small_blind g) (players g);
  '(bb, ps) ← bet_at bb_idx (big_blind g) ps;
  first ← py_mod (bb_idx + 1) n;
  Some (set_current_player_idx first
         (set_current_bet (big_blind g)
           (set_pot (pot g + (sb + bb)) (set_players ps g)))).

(** [start_new_round], given the freshly shuffled deck that [Deck()]
    builds.  The result carries the returned flag and the game afterwards. *)
Definition start_new_round (fresh_deck : list Card) (g : t) : option (bool * t) :=
  let g := set_current_bet 0 (set_pot 0
             (mk (players g) fresh_deck [] (pot g) (current_bet g) (dealer_idx g)
                 (current_player_idx g) (small_blind g) (big_blind g))) in
  let ps := map Player.clear_hand (players g) in
  let ps := filter (λ p, 0 < Player.chips p) ps in
  let g := set_players ps g in
  if (length ps =? 1)%nat then Some (false, g)
  else
    dealer ← py_mod (dealer_idx g + 1) (length ps);
    let g := set_dealer_idx dealer g in
    g ← deal_hands g;
    g ← post_blinds g;
    Some (true, g).

(** *** The decision sources *)

(** The double written [0.7] and the double written [0.3]. *)
Definition p_0_7 : Q := 3152519739159347 # 4503599627370496.
Definition p_0_3 : Q := 5404319552844595 # 18014398509481984.

Definition Qltb (a b : Q) : bool := negb (Qle_bool b a).

(** [ai_decision(player, amount_to_call)]; [draw] is the value that
    [random.random()] yields if the policy asks for one. *)
Definition ai_decision (g : t) (player : Player.t) (amount_to_call : Z) (draw : Q)
    : option Action :=
  '(hand_rank, _) ← evaluate_hand (Player.hand player ++ community_cards g);
  if (length (community_cards g) =? 0)%nat then
    good ← (if 1 <=? hand_rank then Some true
            else
              c0 ← Player.hand player !! 0%nat;
              if 9 <? rank_value c0 then
                c1 ← Player.hand player !! 1%nat;
                Some (9 <? rank_value c1)
              else Some false);
    if good : bool then
      if amount_to_call =? 0 then
        let raise_amount := Z.min (Player.chips player) (big_blind g * 2) in
        Some (Raise raise_amount)
      else if amount_to_call <=? big_blind g * 3 then Some Call
      else Some Fold
    else
      if amount_to_call =? 0 then Some Check
      else if amount_to_call <=? big_blind g then Some Call
      else Some Fold
  else
    if 3 <=? hand_rank then
      if Qltb draw p_0_7 then
        let raise_amount := Z.min (Player.chips player) (pot g / 2) in
        Some (Raise (Z.max (big_blind g) raise_amount))
      else Some (if 0 <? amount_to_call then Call else Check)
    else if 1 <=? hand_rank then
      if amount_to_call =? 0 then
        if Qltb draw p_0_3 then Some (Raise (big_blind g * 2)) else Some Check
      else if amount_to_call <=? big_blind g * 3 then Some Call
      else Some Fold
    else
      if amount_to_call =? 0 then Some Check
      else if amount_to_call <=? big_blind g then
        if Qltb draw p_0_3 then Some Call else Some Fold
      else Some Fold.

(** The test [human_decision] applies to what was typed before it returns
    it; anything else is asked for again. *)
Definition human_accepts (player : Player.t) (amount_to_call : Z) (a : Action) : bool :=
  match a with
  | Fold => negb (amount_to_call =? 0)
  | Check => amount_to_call =? 0
  | Call => negb (amount_to_call =? 0) && (amount_to_call <=? Player.chips player)
  | Raise amount =>
      ((amount_to_call =? 0) || (amount_to_call <? Player.chips player))
      && (0 <? amount) && (amount_to_call + amount <=? Player.chips player)
  end.

(** *** betting_round *)

Definition count_active (ps : list Player.t) : nat :=
  length (filter (λ p, Player.is_active p = true) ps).

(** How one pass through the loop body ends. *)
Inductive Next :=
  | KeepBetting (g : t) (last_raiser : option nat)
  | OneLeft (g : t).

(** The game a pass through the loop body leaves. *)
Definition game_of (next : Next) : t :=
  match next with KeepBetting g _ => g | OneLeft g => g end.

(** The branch on the action taken by the player at [player_idx]. *)
Definition process_action (action : Action) (g : t) (player_idx : nat)
    (last_raiser : option nat) (amount_to_call : Z) : option Next :=
  match action with
  | Fold =>
      let g := set_players (alter Player.fold player_idx (players g)) g in
      if (count_active (players g) =? 1)%nat then Some (OneLeft g)
      else Some (KeepBetting g last_raiser)
  | Call =>
      '(bet, ps) ← bet_at player_idx amount_to_call (players g);
      Some (KeepBetting (set_pot (pot g + bet) (set_players ps g)) last_raiser)
  | Check => Some (KeepBetting g last_raiser)
  | Raise amount =>
      let raise_amount := amount_to_call + amount in
      '(bet, ps) ← bet_at player_idx raise_amount (players g);
      current_player ← ps !! player_idx;
      Some (KeepBetting
              (set_current_bet (Player.current_bet current_player)
                 (set_pot (pot g + bet) (set_players ps g)))
              (Some player_idx))
  end.

(** How a run of [betting_round] ends: it returns its flag, an exception
    escapes, or the run is cut short by the fuel of the model.  [turns]
    counts the decisions that were asked for. *)
Inductive Outcome :=
  | Returned (result : bool) (g : t) (turns : nat)
  | Raised
  | OutOfFuel.

Section Street.
(** The decision taken at a turn: by [ai_decision] or [human_decision],
    from the number of the turn, the game, the seat and the amount to
    call. *)
Variable decide : nat → t → nat → Z → option Action.

(** [while not betting_complete].  What the loop prints for the player at
    the keyboard (the win probability and the name of the hand) changes
    nothing and is left out. *)
Fixpoint betting_loop (fuel : nat) (g : t) (player_idx : nat)
    (last_raiser : option nat) (turns : nat) : Outcome :=
  match fuel with
  | O => OutOfFuel
  | S fuel' =>
      match players g !! player_idx with
      | None => Raised
      | Some current_player =>
          let n := length (players g) in
          if negb (Player.is_active current_player) then
            betting_loop fuel' g ((player_idx + 1) mod n)%nat last_raiser turns
          else if bool_decide (last_raiser = Some player_idx) then
            Returned true
              (set_current_player_idx ((dealer_idx g + 1) mod n)%nat g) turns
          else
            let last_raiser := Some (default player_idx last_raiser) in
            let g := set_current_player_idx player_idx g in
            let amount_to_call :=
              current_bet g - Player.current_bet current_player in
            match decide turns g player_idx amount_to_call with
            | None => Raised
            | Some action =>
                match process_action action g player_idx last_raiser
                        amount_to_call with
                | None => Raised
                | Some (OneLeft g) => Returned false g (S turns)
                | Some (KeepBetting g last_raiser) =>
                    betting_loop fuel' g ((player_idx + 1) mod n)%nat
                                 last_raiser (S turns)
                end
            end
      end
  end.

Definition betting_round (fuel : nat) (g : t) : Outcome :=
  if (count_active (players g) <=? 1)%nat then Returned false g 0
  else betting_loop fuel g (current_player_idx g) None 0.
End Street.

(** Decisions read off a fixed list, turn by turn. *)
Definition scripted (actions : list Action) : nat → t → nat → Z → option Action :=
  λ turn _ _ _, actions !! turn.

(** The same, each decision first put to the test of [human_decision]. *)
Definition scripted_checked (actions : list Action)
    : nat → t → nat → Z → option Action :=
  λ turn g seat amount_to_call,
    action ← actions !! turn;
    player ← players g !! seat;
    if human_accepts player amount_to_call action then Some action else None.

(** Decisions taken by [ai_decision] at every seat, [draws turn] being the
    random value on hand at that turn. *)
Definition automated (draws : nat → Q) : nat → t → nat → Z → option Action :=
  λ turn g seat amount_to_call,
    player ← players g !! seat;
    ai_decision g player amount_to_call (draws turn).

(** *** determine_winners *)

(** The seats of the players still in the hand, in seat order. *)
Definition active_seats (ps : list Player.t) : list nat :=
  filter (λ i, Player.is_active <$> ps !! i = Some true) (seq 0 (length ps)).

(** The winners after the first: the run of entries that tie with it. *)
Fixpoint tied_with (top : HandScore) (entries : list (nat * HandScore)) : list nat :=
  match entries with
  | [] => []
  | (seat, score) :: rest =>
      if bool_decide (score = top) then seat :: tied_with top rest else []
  end.

(** The split of the pot among [winners]. *)
Definition split_pot (pot : Z) (winners : list nat) (ps : list Player.t)
    : option (list Player.t) :=
  let count := Z.of_nat (length winners) in
  if count =? 0 then None
  else
    let split_amount := pot / count in
    let remainder := pot mod count in
    let ps := foldl (λ ps w, alter (Player.add_chips split_amount) w ps) ps winners in
    if 0 <? remainder then
      w0 ← head winners;
      Some (alter (Player.add_chips remainder) w0 ps)
    else Some ps.

(** The winners of a showdown among the seats [active]. *)
Definition showdown_winners (g : t) (active : list nat) : option (list nat) :=
  player_scores ←
    mapM (λ seat,
            player ← players g !! seat;
            score ← evaluate_hand (Player.hand player ++ community_cards g);
            Some (seat, score)) active;
  let player_scores := sorted_desc snd score_ltb player_scores in
  top ← head player_scores;
  Some (top.1 :: tied_with top.2 (tail player_scores)).

(** [determine_winners]: the game afterwards. *)
Definition determine_winners (g : t) : option t :=
  let active := active_seats (players g) in
  match active with
  | [winner] =>
      Some (set_players (alter (Player.add_chips (pot g)) winner (players g)) g)
  | _ =>
      winners ← showdown_winners g active;
      ps ← split_pot (pot g) winners (players g);
      Some (set_players ps g)
  end.

(** What a street leaves alone: the deck, the board, the button, the
    blinds and the cards in the players' hands. *)
Definition same_cards (g g' : t) : Prop :=
  deck g' = deck g
  ∧ community_cards g' = community_cards g
  ∧ dealer_idx g' = dealer_idx g
  ∧ small_blind g' = small_blind g
  ∧ big_blind g' = big_blind g
  ∧ Player.hand <$> players g' = Player.hand <$> players g.

(** *** play_round *)

Definition set_community_cards (cs : list Card) (g : t) : t :=
  mk (players g) (deck g) cs (pot g) (current_bet g) (dealer_idx g)
     (current_player_idx g) (small_blind g) (big_blind g).

(** [self.community_cards.extend(self.deck.deal(3))]; extending by the
    [None] of an exhausted deck is a [TypeError]. *)
Definition deal_flop (g : t) : option t :=
  '(dealt, rest) ← Deck.deal 3 (deck g);
  match dealt with
  | Deck.DealtList cs =>
      Some (set_deck rest (set_community_cards (community_cards g ++ cs) g))
  | _ => None
  end.

(** [self.community_cards.append(self.deck.deal())].  As in [deal_to], the
    [None] of an exhausted deck, which the program appends, stops the
    model. *)
Definition deal_street (g : t) : option t :=
  '(dealt, rest) ← Deck.deal 1 (deck g);
  match dealt with
  | Deck.DealtCard c =>
      Some (set_deck rest (set_community_cards (community_cards g ++ [c]) g))
  | _ => None
  end.

(** How a run of [play_round] ends. *)
Inductive RoundOutcome :=
  | RoundReturned (result : bool) (g : t)
  | RoundRaised
  | RoundOutOfFuel.

(** [self.determine_winners(); return True] *)
Definition settle (g : t) : RoundOutcome :=
  match determine_winners g with
  | Some g => RoundReturned true g
  | None => RoundRaised
  end.

(** A street of [play_round]: the betting, then either the settlement or
    the rest of the round. *)
Definition street (decide : nat → t → nat → Z → option Action) (fuel : nat)
    (g : t) (rest_of_round : t → RoundOutcome) : RoundOutcome :=
  match betting_round decide fuel g with
  | OutOfFuel => RoundOutOfFuel
  | Raised => RoundRaised
  | Returned false g _ => settle g
  | Returned true g _ => rest_of_round g
  end.

(** After a card or three have come, if they have. *)
Definition after (dealt : option t) (k : t → RoundOutcome) : RoundOutcome :=
  match dealt with
  | Some g => k g
  | None => RoundRaised
  end.

(** [play_round], [decide s] being the source of the decisions of street
    [s] and [fresh_deck] the deck that [start_new_round] builds. *)
Definition play_round (fresh_deck : list Card)
    (decide : nat → nat → t → nat → Z → option Action) (fuel : nat) (g : t)
    : RoundOutcome :=
  match start_new_round fresh_deck g with
  | None => RoundRaised
  | Some (false, g) => RoundReturned false g
  | Some (true, g) =>
      street (decide 0%nat) fuel g (λ g,
      after (deal_flop g) (λ g,
      street (decide 1%nat) fuel g (λ g,
      after (deal_street g) (λ g,
      street (decide 2%nat) fuel g (λ g,
      after (deal_street g) (λ g,
      street (decide 3%nat) fuel g settle))))))
  end.

(** *** setup_game and play_game *)

(** [PokerGame(num_players, small_blind, big_blind)], once [setup_game]
    has seated the player at the keyboard and, after that player, the
    automated ones.  The deck is [None] until the first round builds one. *)
Definition new_game (num_players small_blind big_blind : Z) : t :=
  mk (Player.new 1000 false
        :: replicate (Z.to_nat (num_players - 1)) (Player.new 1000 true))
     [] [] 0 0 0 0 small_blind big_blind.

(** How a run of [play_game] ends: the loop is left after so many rounds,
    an exception escapes, or the run is cut short by the fuel of the
    model. *)
Inductive GameOutcome :=
  | GameOver (g : t) (rounds : nat)
  | GameRaised
  | GameOutOfFuel.

(** [[p for p in self.players if not p.is_ai and p.chips > 0]] *)
Definition human_players (ps : list Player.t) : list Player.t :=
  filter (λ p, Player.is_ai p = false ∧ 0 < Player.chips p) ps.

(** [play_game]'s loop, from round [round] on.  [fresh_decks r] is the deck
    that round [r] builds, [decide r] the decisions of that round, and
    [play_again r] whether the answer after it is ['y']; [fuel] bounds the
    rounds and [street_fuel] the passes of a street. *)
Fixpoint play_game (fresh_decks : nat → list Card)
    (decide : nat → nat → nat → t → nat → Z → option Action)
    (play_again : nat → bool) (street_fuel fuel round : nat) (g : t)
    : GameOutcome :=
  match fuel with
  | O => GameOutOfFuel
  | S fuel' =>
      match play_round (fresh_decks round) (decide round) street_fuel g with
      | RoundRaised => GameRaised
      | RoundOutOfFuel => GameOutOfFuel
      | RoundReturned false g => GameOver g (S round)
      | RoundReturned true g =>
          match human_players (players g) with
          | [] => GameOver g (S round)
          | _ :: _ =>
              if play_again round then
                play_game fresh_decks decide play_again street_fuel fuel'
                          (S round) g
              else GameOver g (S round)
          end
      end
  end.

(** *** Measures of a street *)

(** Whether the seat holds a player who is still in the hand. *)
Definition active_at (ps : list Player.t) (seat : nat) : bool :=
  default false (Player.is_active <$> ps !! seat).

(** The [w] seats met from [idx] on, going round a table of [m]. *)
Definition seats_from (m idx w : nat) : list nat :=
  (λ j, (idx + j) mod m)%nat <$> seq 0 w.

(** The number of seats to pass, going round from [idx], before [target]. *)
Definition gap (m idx target : nat) : nat := ((target + m - idx) mod m)%nat.

(** The players still to act before the turn comes back to [target]. *)
Definition to_act (ps : list Player.t) (idx target : nat) : nat :=
  length (filter (λ seat, active_at ps seat = true)
                 (seats_from (length ps) idx (gap (length ps) idx target))).

(** The number of turns, from turn [t] on, at which a raise may come. *)
Definition raises_left (raise_turns : list nat) (t : nat) : nat :=
  length (filter (λ x, t ≤ x)%nat raise_turns).

(** What a seat collects at a showdown, in the words of the specification:
    an equal share of the pot by integer division for every winner, and the
    remainder on top for the first winner of the list. *)
Definition share (pot : Z) (winners : list nat) (seat : nat) : Z :=
  let count := Z.of_nat (length winners) in
  (if bool_decide (seat ∈ winners) then pot / count else 0)
  + (if bool_decide (head winners = Some seat) then pot mod count else 0).

(** The chips held around the table. *)
Definition total_chips (ps : list Player.t) : Z :=
  foldr Z.add 0 (Player.chips <$> ps).

(** [evaluate_hand(player.hand + self.community_cards)] for the player at
    [seat]. *)
Definition score_at (g : t) (seat : nat) : option HandScore :=
  player ← players g !! seat;
  evaluate_hand (Player.hand player ++ community_cards g).

(** The player at [seat], if still in the hand, has matched the table's
    bet; and so has everybody still in the hand. *)
Definition bet_matched (g : t) (seat : nat) : Prop :=
  ∀ p, players g !! seat = Some p → Player.is_active p = true →
       Player.current_bet p = current_bet g.

Definition bets_settled (g : t) : Prop :=
  Forall (λ p, Player.is_active p = true →
               Player.current_bet p = current_bet g) (players g).

(** What the players have put in, by their own [current_bet]. *)
Definition total_bets (ps : list Player.t) : Z :=
  foldr Z.add 0 (Player.current_bet <$> ps).

(** A table out of debt: no stack and no bet is negative, the table's bet
    and the big blind are not either, and the pot is what the players have
    put in. *)
Definition out_of_debt (g : t) : Prop :=
  Forall (λ p, 0 ≤ Player.chips p ∧ 0 ≤ Player.current_bet p) (players g)
  ∧ 0 ≤ current_bet g
  ∧ 0 ≤ big_blind g
  ∧ pot g = total_bets (players g).

End Game.

(** * Properties *)

Section DeckFacts.
Import Deck.

(** C9. Asking [deal] for more cards than the deck holds returns the
    failure value [None] of the program, never a shorter list, and leaves
    the deck as it was. *)
Theorem deal_beyond_deck_fails (count : nat) (cards : list Card) :
  (length cards < count)%nat →
  deal count cards = Some (DealtNone, cards).
Proof.
  intros Hlt. unfold deal.
  by apply Nat.ltb_lt in Hlt as ->.
Qed.

Lemma deal_beyond_deck_fails_witness :
  deal 3 [mkCard RA Spades; mkCard RK Hearts]
  = Some (DealtNone, [mkCard RA Spades; mkCard RK Hearts]).
Proof. apply deal_beyond_deck_fails. simpl. lia. Defined.

End DeckFacts.

Section PlayerFacts.
Import Player.

Lemma place_bet_paid amount p :
  (place_bet amount p).1 = Z.min amount (chips p).
Proof. unfold place_bet. simpl. case_eq (chips p <? amount); lia. Qed.

Lemma place_bet_chips_nonneg amount p :
  0 ≤ chips p → 0 ≤ amount → 0 ≤ chips (place_bet amount p).2.
Proof. unfold place_bet. simpl. case_eq (chips p <? amount); lia. Qed.

Lemma place_bets_chips_nonneg amounts : ∀ p,
  0 ≤ chips p → Forall (λ a, 0 ≤ a) amounts →
  0 ≤ chips (place_bets amounts p).
Proof.
  induction amounts as [|a amounts IH]; intros p Hp Hall; [done|].
  inversion_clear Hall as [|? ? Ha Hrest].
  apply IH; [by apply place_bet_chips_nonneg | done].
Qed.

(** C10. With a non-negative stack and a non-negative request, [place_bet]
    pays [min amount chips]: the stack drops by it, the street bet grows by
    it, it is the returned value, and no run of such bets drives the stack
    below zero. *)
Theorem place_bet_pays_min (p : t) (amount : Z) (later : list Z) :
  0 ≤ chips p → 0 ≤ amount → Forall (λ a, 0 ≤ a) later →
  let paid := Z.min amount (chips p) in
  (place_bet amount p).1 = paid
  ∧ chips (place_bet amount p).2 = chips p - paid
  ∧ current_bet (place_bet amount p).2 = current_bet p + paid
  ∧ 0 ≤ chips (place_bet amount p).2
  ∧ 0 ≤ chips (place_bets (amount :: later) p).
Proof.
  intros Hp Ha Hlater paid.
  assert (Hpaid : (place_bet amount p).1 = paid) by apply place_bet_paid.
  split; [done|].
  repeat split.
  - unfold place_bet in *. simpl in *. lia.
  - unfold place_bet in *. simpl in *. lia.
  - by apply place_bet_chips_nonneg.
  - apply place_bets_chips_nonneg; [done|by constructor].
Qed.

Lemma place_bet_pays_min_witness :
  (place_bet 30 (new 20 true)).1 = 20
  ∧ chips (place_bet 30 (new 20 true)).2 = 0
  ∧ current_bet (place_bet 30 (new 20 true)).2 = 20
  ∧ 0 ≤ chips (place_bet 30 (new 20 true)).2
  ∧ 0 ≤ chips (place_bets [30; 5; 0] (new 20 true)).
Proof.
  apply (place_bet_pays_min (new 20 true) 30 [5; 0]).
  - simpl. lia.
  - lia.
  - repeat constructor; lia.
Defined.

End PlayerFacts.

(** ** The counter of ranks *)

Section CounterFacts.
Import Hand.

Lemma count_of_bump r r' items :
  count_of r (bump r' items)
  = if bool_decide (r' = r) then S (count_of r items) else count_of r items.
Proof.
  induction items as [|[k c] items IH]; simpl.
  - case_bool_decide as Hr.
    + subst. by rewrite Z.eqb_refl.
    + by apply Z.eqb_neq in Hr as ->.
  - destruct (Z.eqb_spec k r') as [->|Hk]; simpl.
    + destruct (Z.eqb_spec r' r) as [->|Hr].
      * by rewrite bool_decide_eq_true_2.
      * by rewrite bool_decide_eq_false_2.
    + rewrite IH. destruct (Z.eqb_spec k r) as [->|Hr]; [|done].
      by rewrite bool_decide_eq_false_2.
Qed.

Lemma count_of_foldl_bump ranks : ∀ acc r,
  count_of r (foldl (λ items x, bump x items) acc ranks)
  = (count_of r acc + length (filter (λ x, x = r) ranks))%nat.
Proof.
  induction ranks as [|x ranks IH]; intros acc r; simpl; [lia|].
  rewrite IH, count_of_bump, filter_cons.
  case_bool_decide; case_decide; simpl; try done; lia.
Qed.

Lemma count_of_Counter ranks r :
  count_of r (Counter ranks) = length (filter (λ x, x = r) ranks).
Proof. unfold Counter. by rewrite count_of_foldl_bump. Qed.

Lemma keys_bump r items :
  (bump r items).*1 = if bool_decide (r ∈ items.*1) then items.*1 else items.*1 ++ [r].
Proof.
  induction items as [|[k c] items IH]; [done|].
  cbn [bump]. rewrite !fmap_cons. cbn [fst].
  destruct (Z.eqb_spec k r) as [->|Hk].
  - rewrite bool_decide_eq_true_2; [done|]. apply elem_of_cons. by left.
  - rewrite fmap_cons, IH. cbn [fst]. case_bool_decide as Hin.
    + rewrite bool_decide_eq_true_2; [done|]. apply elem_of_cons. by right.
    + rewrite bool_decide_eq_false_2; [done|].
      intros [?|?]%elem_of_cons; congruence.
Qed.

Lemma NoDup_keys_bump r items : NoDup items.*1 → NoDup (bump r items).*1.
Proof.
  intros Hnd. rewrite keys_bump. case_bool_decide as Hin; [done|].
  apply NoDup_app. split_and!; [done| |apply NoDup_singleton].
  intros x Hx ->%list_elem_of_singleton. done.
Qed.

Lemma positive_bump r items :
  Forall (λ it, 1 ≤ it.2)%nat items → Forall (λ it, 1 ≤ it.2)%nat (bump r items).
Proof.
  induction 1 as [|[k c] items Hc Hall IH]; simpl.
  - by constructor.
  - destruct (k =? r); constructor; simpl in *; try done; lia.
Qed.

Lemma sum_values_bump r items :
  sum_list (values (bump r items)) = S (sum_list (values items)).
Proof.
  unfold values. induction items as [|[k c] items IH]; [done|].
  cbn [bump]. destruct (k =? r); cbn [map snd sum_list]; [done|].
  rewrite IH. lia.
Qed.

(** What holds of the counter however it was filled. *)
Record counted (ranks : list Z) (items : list (Z * nat)) : Prop := {
  counted_keys : NoDup items.*1;
  counted_positive : Forall (λ it, 1 ≤ it.2)%nat items;
  counted_sum : sum_list (values items) = length ranks
}.

Lemma counted_foldl ranks : ∀ seen acc,
  counted seen acc →
  counted (seen ++ ranks) (foldl (λ items x, bump x items) acc ranks).
Proof.
  induction ranks as [|x ranks IH]; intros seen acc Hacc; simpl.
  - by rewrite app_nil_r.
  - replace (seen ++ x :: ranks) with ((seen ++ [x]) ++ ranks)
      by by rewrite <- app_assoc.
    apply IH. destruct Hacc as [Hk Hp Hs]. split.
    + by apply NoDup_keys_bump.
    + by apply positive_bump.
    + rewrite sum_values_bump, Hs, length_app. simpl. lia.
Qed.

Lemma counted_Counter ranks : counted ranks (Counter ranks).
Proof.
  apply (counted_foldl ranks [] []). split; [constructor|constructor|done].
Qed.

Lemma count_of_elem items k c :
  NoDup items.*1 → (k, c) ∈ items → count_of k items = c.
Proof.
  induction items as [|[k' c'] items IH]; intros Hnd Hin.
  - by apply elem_of_nil in Hin.
  - simpl in *. apply NoDup_cons in Hnd as [Hk' Hnd].
    apply elem_of_cons in Hin as [Heq|Hin].
    + injection Heq as -> ->. by rewrite Z.eqb_refl.
    + destruct (Z.eqb_spec k' k) as [->|_]; [|by apply IH].
      exfalso. apply Hk'. apply list_elem_of_fmap. by exists (k, c).
Qed.

(** An entry of the counter holds the number of times its rank occurs. *)
Lemma Counter_elem ranks k c :
  (k, c) ∈ Counter ranks →
  c = length (filter (λ x, x = k) ranks) ∧ (1 ≤ c)%nat.
Proof.
  intros Hin. destruct (counted_Counter ranks) as [Hk Hp _]. split.
  - rewrite <- count_of_Counter. symmetry. by apply count_of_elem.
  - rewrite Forall_forall in Hp. by apply (Hp (k, c)).
Qed.

Lemma has_count_elem n items :
  has_count n items = true ↔ ∃ k, (k, n) ∈ items.
Proof.
  unfold has_count, values. rewrite existsb_exists. split.
  - intros (c & Hin & Hc). apply Nat.eqb_eq in Hc as <-.
    apply list_elem_of_In, list_elem_of_fmap in Hin as ([k c] & -> & Hin).
    by exists k.
  - intros (k & Hin). exists n. split; [|by apply Nat.eqb_eq].
    apply list_elem_of_In, list_elem_of_fmap. by exists (k, n).
Qed.

Lemma ranks_with_elem n items k :
  k ∈ ranks_with n items ↔ (k, n) ∈ items.
Proof.
  unfold ranks_with. rewrite list_elem_of_fmap. split.
  - intros ([k' c] & -> & [Hc Hin]%list_elem_of_filter). simpl in *. by subst.
  - intros Hin. exists (k, n). split; [done|]. by apply list_elem_of_filter.
Qed.

Lemma head_ranks_with n items :
  has_count n items = true →
  ∃ k, head (ranks_with n items) = Some k ∧ (k, n) ∈ items.
Proof.
  intros (k & Hin)%has_count_elem.
  destruct (ranks_with n items) as [|k' l] eqn:Heq.
  - apply ranks_with_elem in Hin. rewrite Heq in Hin. by apply elem_of_nil in Hin.
  - exists k'. split; [done|]. apply ranks_with_elem. rewrite Heq. by left.
Qed.

Lemma length_filter_split (P : Z → Prop) `{∀ x, Decision (P x)} (l : list Z) :
  (length (filter P l) + length (filter (λ x, ¬ P x) l))%nat = length l.
Proof.
  rewrite <- length_app. apply Permutation_length, filter_app_complement.
Qed.

(** With four of five ranks alike, a kicker is there to be found. *)
Lemma four_kicker ranks k :
  length ranks = 5%nat → (k, 4%nat) ∈ Counter ranks →
  is_Some (head (filter (λ r, r ≠ k) ranks)).
Proof.
  intros Hlen [Hc _]%Counter_elem.
  pose proof (length_filter_split (λ x, x = k) ranks) as Hsplit.
  apply head_is_Some. intros Hnil.
  apply (f_equal length) in Hnil. simpl in *. lia.
Qed.

Lemma sum_without_one (vs : list nat) :
  Forall (λ v, 1 ≤ v)%nat vs → 1%nat ∉ vs →
  let twos := length (filter (λ c, c = 2%nat) vs) in
  sum_list vs = (2 * twos)%nat ∨ (2 * twos + 3 ≤ sum_list vs)%nat.
Proof.
  induction 1 as [|v vs Hv Hall IH]; intros Hno; simpl; [by left|].
  apply not_elem_of_cons in Hno as [Hv1 Hno].
  specialize (IH Hno). simpl in IH. rewrite filter_cons.
  case_decide; simpl; lia.
Qed.

(** With two pairs among five ranks, the odd rank is there to be found. *)
Lemma two_pair_kicker ranks :
  length ranks = 5%nat →
  length (filter (λ c, c = 2%nat) (values (Counter ranks))) = 2%nat →
  is_Some (head (filter (λ r, count_of r (Counter ranks) = 1%nat) ranks)).
Proof.
  intros Hlen Htwo.
  destruct (counted_Counter ranks) as [Hk Hp Hs].
  destruct (decide (1%nat ∈ values (Counter ranks))) as [Hone|Hnone].
  - unfold values in Hone.
    apply list_elem_of_fmap in Hone as ([k c] & Hc & Hin). simpl in Hc. subst c.
    pose proof (count_of_elem _ _ _ Hk Hin) as Hcount.
    apply Counter_elem in Hin as [Hocc _].
    assert (Hk_in : k ∈ ranks).
    { destruct (filter (λ x, x = k) ranks) as [|y l] eqn:Hf; [done|].
      assert (Hy : y ∈ filter (λ x, x = k) ranks) by (rewrite Hf; by left).
      by apply list_elem_of_filter in Hy as [-> ?]. }
    apply head_is_Some. intros Hnil.
    assert (Hin' : k ∈ filter (λ r, count_of r (Counter ranks) = 1%nat) ranks)
      by by apply list_elem_of_filter.
    rewrite Hnil in Hin'. by apply elem_of_nil in Hin'.
  - exfalso.
    assert (Hp' : Forall (λ v, 1 ≤ v)%nat (values (Counter ranks))).
    { unfold values. by apply Forall_fmap. }
    pose proof (sum_without_one _ Hp' Hnone) as Hsum. simpl in Hsum.
    rewrite Htwo, Hs, Hlen in Hsum. lia.
Qed.

End CounterFacts.

(** ** Totality of the five-card evaluation *)

Section EvaluateFacts.
Import Hand.

(** The five-card evaluation never fails on a hand of five cards. *)
Lemma evaluate_five_total cards :
  length cards = 5%nat → is_Some (evaluate_five cards).
Proof.
  intros Hlen. unfold evaluate_five.
  assert (Hranks : length (map rank_value cards) = 5%nat)
    by by rewrite length_map.
  set (ranks := map rank_value cards) in *.
  destruct (straight_check _) as [is_straight straight_high].
  destruct (_ && set_eqb ranks _); [done|].
  destruct (_ && is_straight); [done|].
  destruct (has_count 4 _) eqn:H4.
  { destruct (head_ranks_with _ _ H4) as (k & -> & Hin). simpl.
    destruct (four_kicker _ _ Hranks Hin) as [kicker ->]. done. }
  destruct (has_count 3 _) eqn:H3; destruct (has_count 2 _) eqn:H2; simpl;
    try destruct (head_ranks_with _ _ H3) as (k3 & -> & _);
    try destruct (head_ranks_with _ _ H2) as (k2 & Hk2 & _); simpl.
  - by rewrite Hk2.
  - destruct (_ =? 1)%nat; [done|]. by destruct is_straight.
  - destruct (_ =? 1)%nat; [done|]. destruct is_straight; [done|].
    destruct (_ =? 2)%nat eqn:Hpairs.
    + apply Nat.eqb_eq in Hpairs.
      destruct (two_pair_kicker _ Hranks Hpairs) as [kicker ->]. done.
    + by rewrite Hk2.
  - destruct (_ =? 1)%nat; [done|]. destruct is_straight; [done|].
    destruct (_ =? 2)%nat eqn:Hpairs; [|done].
    apply Nat.eqb_eq in Hpairs.
    destruct (two_pair_kicker _ Hranks Hpairs) as [kicker ->]. done.
Qed.
End EvaluateFacts.

(** ** The order on scores *)

Section ScoreOrder.
Import Hand.

Lemma list_ltb_irrefl a : list_ltb a a = false.
Proof. induction a as [|x a IH]; simpl; [done|]. by rewrite Z.ltb_irrefl. Qed.

Lemma list_ltb_trans a : ∀ b c,
  list_ltb a b = true → list_ltb b c = true → list_ltb a c = true.
Proof.
  induction a as [|x a IH]; intros [|y b] [|z c]; simpl; try done.
  destruct (Z.ltb_spec x y), (Z.ltb_spec y x), (Z.ltb_spec y z),
    (Z.ltb_spec z y), (Z.ltb_spec x z), (Z.ltb_spec z x);
    try done; try lia.
  apply IH.
Qed.

Lemma list_ltb_connex a : ∀ b,
  list_ltb a b = false → list_ltb b a = false → a = b.
Proof.
  induction a as [|x a IH]; intros [|y b]; simpl; try done.
  destruct (Z.ltb_spec x y), (Z.ltb_spec y x); try done; try lia.
  intros Hab Hba. assert (x = y) as -> by lia. f_equal. by apply IH.
Qed.

Lemma score_ltb_irrefl s : score_ltb s s = false.
Proof. unfold score_ltb. by rewrite Z.ltb_irrefl, list_ltb_irrefl. Qed.

Lemma score_ltb_trans s t u :
  score_ltb s t = true → score_ltb t u = true → score_ltb s u = true.
Proof.
  destruct s as [a l], t as [b m], u as [c n]. unfold score_ltb. simpl.
  destruct (Z.ltb_spec a b), (Z.ltb_spec b a), (Z.ltb_spec b c),
    (Z.ltb_spec c b), (Z.ltb_spec a c), (Z.ltb_spec c a);
    try done; try lia.
  apply list_ltb_trans.
Qed.

Lemma score_ltb_connex s t :
  score_ltb s t = false → score_ltb t s = false → s = t.
Proof.
  destruct s as [a l], t as [b m]. unfold score_ltb. simpl.
  destruct (Z.ltb_spec a b), (Z.ltb_spec b a); try done; try lia.
  intros Hst Hts. assert (a = b) as -> by lia. f_equal.
  by apply list_ltb_connex.
Qed.

Lemma score_ltb_asym s t : score_ltb s t = true → score_ltb t s = false.
Proof.
  intros Hst. destruct (score_ltb t s) eqn:Hts; [|done].
  pose proof (score_ltb_trans _ _ _ Hst Hts) as Hss.
  by rewrite score_ltb_irrefl in Hss.
Qed.

(** "Not above" is transitive. *)
Lemma score_not_above_trans s t u :
  score_ltb t s = false → score_ltb u t = false → score_ltb u s = false.
Proof.
  intros Hst Htu. destruct (score_ltb u s) eqn:Hus; [|done].
  destruct (score_ltb s t) eqn:Hst'.
  - by rewrite (score_ltb_trans _ _ _ Hus Hst') in Htu.
  - assert (s = t) as -> by by apply score_ltb_connex. congruence.
Qed.

End ScoreOrder.

(** ** The largest item *)

Section Largest.
Import Hand.

Lemma py_max_score_spec items :
  items ≠ [] →
  ∃ best, py_max score_ltb items = Some best
          ∧ best ∈ items
          ∧ ∀ s, s ∈ items → score_ltb best s = false.
Proof.
  destruct items as [|x rest]; [done|]. intros _. simpl.
  eexists. split; [done|].
  assert (Hinv : x ∈ [x] ∧ ∀ s, s ∈ [x] → score_ltb x s = false).
  { split; [by left|]. intros s ->%list_elem_of_singleton.
    apply score_ltb_irrefl. }
  revert Hinv. change (x :: rest) with ([x] ++ rest).
  generalize [x] as seen. revert x.
  induction rest as [|y rest IH]; intros best seen [Hin Hmax]; simpl.
  - by rewrite app_nil_r.
  - replace (seen ++ y :: rest) with ((seen ++ [y]) ++ rest)
      by by rewrite <- app_assoc.
    apply IH. destruct (score_ltb best y) eqn:Hlt.
    + split; [apply elem_of_app; right; by left|].
      intros s [Hs| ->%list_elem_of_singleton]%elem_of_app.
      * apply (score_not_above_trans _ best); [by apply Hmax|].
        by apply score_ltb_asym.
      * apply score_ltb_irrefl.
    + split; [apply elem_of_app; by left|].
      intros s [Hs| ->%list_elem_of_singleton]%elem_of_app; [|done].
      by apply Hmax.
Qed.

End Largest.

(** ** Combinations *)

Section Combinations.
Import Hand.
Context {A : Type}.

Lemma combinations_0 (l : list A) : combinations l 0 = [[]].
Proof. by destruct l. Qed.

Lemma elem_of_combinations (l : list A) : ∀ k c,
  c ∈ combinations l k ↔ c `sublist_of` l ∧ length c = k.
Proof.
  induction l as [|x l IH]; intros k c.
  - destruct k; simpl.
    + rewrite list_elem_of_singleton, sublist_nil_r. split; [by intros ->|].
      by intros [-> _].
    + rewrite elem_of_nil, sublist_nil_r. split; [done|]. by intros [-> ?].
  - destruct k as [|k]; simpl.
    + rewrite list_elem_of_singleton. split.
      * intros ->. split; [apply sublist_nil_l|done].
      * intros [_ Hlen]. by destruct c.
    + rewrite elem_of_app, list_elem_of_fmap, sublist_cons_r. split.
      * intros [(c' & -> & [Hsub Hlen]%IH)|[Hsub Hlen]%IH].
        -- split; [right; by exists c'|simpl; by f_equal].
        -- split; [by left|done].
      * intros [[Hsub|(c' & -> & Hsub)] Hlen].
        -- right. by apply IH.
        -- left. exists c'. split; [done|]. apply IH. split; [done|].
           simpl in Hlen. lia.
Qed.

Lemma length_combinations (l : list A) : ∀ k,
  length (combinations l k) = choose (length l) k.
Proof.
  induction l as [|x l IH]; intros [|k]; simpl; try done.
  by rewrite length_app, length_map, !IH.
Qed.

End Combinations.

(** ** The evaluator *)

Section EvaluateHand.
Import Hand.

Lemma seq_lt_ltb a b : list_ltb a b = true ↔ seq_lt a b.
Proof.
  split.
  - revert b. induction a as [|x a IH]; intros [|y b]; simpl; try done.
    + intros _. constructor.
    + destruct (Z.ltb_spec x y); [intros _; by constructor|].
      destruct (Z.ltb_spec y x); [done|].
      assert (x = y) as -> by lia. intros ?. apply seq_lt_tail. by apply IH.
  - induction 1 as [y b|x y a b Hxy|x a b Hab IH]; simpl; [done| |].
    + by apply Z.ltb_lt in Hxy as ->.
    + by rewrite Z.ltb_irrefl.
Qed.

(** The comparison of the program is the order of the specification. *)
Lemma lex_lt_ltb s t : score_ltb s t = true ↔ lex_lt s t.
Proof.
  unfold score_ltb, lex_lt.
  destruct (Z.ltb_spec s.1 t.1); [split; [by left|done]|].
  destruct (Z.ltb_spec t.1 s.1).
  - split; [done|]. intros [?|[? _]]; lia.
  - rewrite seq_lt_ltb. split; [intros ?; right; split; [lia|done]|].
    intros [?|[_ ?]]; [lia|done].
Qed.

Lemma mapM_ext_elem {A B} (f g : A → option B) (l : list A) :
  (∀ x, x ∈ l → f x = g x) → mapM f l = mapM g l.
Proof.
  induction l as [|x l IH]; intros Hfg; [done|]. simpl.
  rewrite Hfg by by left. destruct (g x); [|done]. simpl.
  rewrite IH; [done|]. intros y Hy. apply Hfg. by right.
Qed.

(** The recursion bottoms out at once: the combinations have five cards. *)
Lemma evaluate_hand_unfold cards :
  evaluate_hand cards
  = if (length cards <? 5)%nat then
      Some (0, map rank_value (sorted_desc rank_value Z.ltb cards))
    else if (5 <? length cards)%nat then
      scores ← mapM evaluate_five (combinations cards 5);
      py_max score_ltb scores
    else evaluate_five cards.
Proof.
  unfold evaluate_hand. cbn [evaluate_hand_rec].
  destruct (length cards <? 5)%nat; [done|].
  destruct (5 <? length cards)%nat; [|done].
  f_equal. apply mapM_ext_elem.
  intros combo [_ Hlen]%elem_of_combinations. by rewrite Hlen.
Qed.

Lemma evaluate_hand_five cards :
  length cards = 5%nat → evaluate_hand cards = evaluate_five cards.
Proof. intros Hlen. by rewrite evaluate_hand_unfold, Hlen. Qed.

Lemma combinations_nonempty (cards : list Card) :
  (5 ≤ length cards)%nat → combinations cards 5 ≠ [].
Proof.
  intros Hlen Hnil.
  assert (Hin : take 5 cards ∈ combinations cards 5).
  { apply elem_of_combinations. split; [apply sublist_take|].
    rewrite length_take. lia. }
  rewrite Hnil in Hin. by apply elem_of_nil in Hin.
Qed.

Lemma scores_of_combinations (cards : list Card) :
  ∃ scores, mapM evaluate_five (combinations cards 5) = Some scores
            ∧ length scores = length (combinations cards 5).
Proof.
  destruct (mapM_is_Some_2 evaluate_five (combinations cards 5)) as [scores Hs].
  - apply Forall_forall. intros combo [_ Hlen]%elem_of_combinations.
    by apply evaluate_five_total.
  - exists scores. split; [done|]. symmetry. by eapply length_mapM.
Qed.

(** The evaluator returns a score for every hand. *)
Lemma evaluate_hand_total cards : is_Some (evaluate_hand cards).
Proof.
  rewrite evaluate_hand_unfold.
  destruct (Nat.ltb_spec (length cards) 5) as [|Hge]; [done|].
  destruct (Nat.ltb_spec 5 (length cards)) as [Hgt|Hle].
  - destruct (scores_of_combinations cards) as (scores & -> & Hlen). simpl.
    destruct (py_max_score_spec scores) as (best & -> & _); [|done].
    intros ->. simpl in Hlen. symmetry in Hlen.
    apply length_zero_iff_nil in Hlen.
    by apply combinations_nonempty in Hlen; [|lia].
  - apply evaluate_five_total. lia.
Qed.

(** C1. Whatever the suits, the wheel A-2-3-4-5 is not scored as a
    straight: the test for the ace-low straight looks for the ranks
    2-J-Q-K-A instead, so the wheel comes out as a flush (when the five
    suits agree) or as a high card, with the ace on top of the tie-break
    sequence, and never with straight-high 3. *)
Theorem wheel_scored_as_high_card (s1 s2 s3 s4 s5 : Suit) :
  let wheel := [mkCard RA s1; mkCard R2 s2; mkCard R3 s3; mkCard R4 s4;
                mkCard R5 s5] in
  let all_alike :=
    bool_decide (s1 = s2 ∧ s2 = s3 ∧ s3 = s4 ∧ s4 = s5) in
  evaluate_hand wheel
  = Some (if all_alike then 5 else 0, [12; 3; 2; 1; 0])
  ∧ evaluate_hand wheel ≠ Some (4, [3])
  ∧ evaluate_hand wheel ≠ Some (8, [3]).
Proof.
  destruct s1, s2, s3, s4, s5; vm_compute; split_and!; congruence.
Qed.

(** The hand the test for the ace-low straight does accept. *)
Example two_jack_queen_king_ace_scored_as_straight :
  evaluate_hand [mkCard RA Spades; mkCard R2 Hearts; mkCard RJ Diamonds;
                 mkCard RQ Clubs; mkCard RK Spades]
  = Some (4, [12]).
Proof. reflexivity. Qed.

Example six_high_straight :
  evaluate_hand [mkCard R2 Spades; mkCard R3 Hearts; mkCard R4 Diamonds;
                 mkCard R5 Clubs; mkCard R6 Spades]
  = Some (4, [4]).
Proof. reflexivity. Qed.

Lemma best_of_five_unique cards best other :
  best_of_five cards best → best_of_five cards other → other = best.
Proof.
  intros [(sub & Hsub & Hbest) Hmax] [(sub' & Hsub' & Hother) Hmax'].
  apply score_ltb_connex.
  - destruct (score_ltb other best) eqn:Hlt; [|done].
    apply lex_lt_ltb in Hlt. by destruct (Hmax' sub best).
  - destruct (score_ltb best other) eqn:Hlt; [|done].
    apply lex_lt_ltb in Hlt. by destruct (Hmax sub' other).
Qed.

Lemma evaluate_hand_best_of_five cards :
  (5 < length cards)%nat →
  ∃ best, evaluate_hand cards = Some best ∧ best_of_five cards best.
Proof.
  intros Hlen. rewrite evaluate_hand_unfold.
  destruct (Nat.ltb_spec (length cards) 5) as [|_]; [lia|].
  destruct (Nat.ltb_spec 5 (length cards)) as [_|]; [|lia].
  destruct (scores_of_combinations cards) as (scores & Hscores & Hlength).
  rewrite Hscores. simpl.
  destruct (py_max_score_spec scores) as (best & -> & Hin & Hmax).
  { intros ->. simpl in Hlength. symmetry in Hlength.
    apply length_zero_iff_nil in Hlength.
    by apply combinations_nonempty in Hlength; [|lia]. }
  exists best. split; [done|].
  apply mapM_Some in Hscores. split.
  - apply list_elem_of_lookup in Hin as [i Hi].
    destruct (Forall2_lookup_r _ _ _ _ _ Hscores Hi) as (sub & Hsub & Heval).
    exists sub.
    assert (Hfive : five_card_subset sub cards).
    { apply elem_of_combinations. apply list_elem_of_lookup. by exists i. }
    split; [done|]. rewrite evaluate_hand_five; [done|apply Hfive].
  - intros sub s Hfive Heval Hlt.
    rewrite evaluate_hand_five in Heval by apply Hfive.
    apply elem_of_combinations, list_elem_of_lookup in Hfive as [i Hi].
    destruct (Forall2_lookup_l _ _ _ _ _ Hscores Hi) as (s' & Hs' & Heval').
    assert (s' = s) as -> by congruence.
    apply lex_lt_ltb in Hlt. rewrite Hmax in Hlt; [done|].
    apply list_elem_of_lookup. by exists i.
Qed.

(** C4. On six or seven cards the evaluator returns the one score that is
    the maximum, in the lexicographic order on (category, tie-breaks), of
    the scores of the five-card subsets of its input; a hand of seven
    cards has 21 of them. *)
Theorem evaluate_hand_is_best_of_five (cards : list Card) :
  NoDup cards →
  length cards = 6%nat ∨ length cards = 7%nat →
  ∃ best,
    evaluate_hand cards = Some best
    ∧ best_of_five cards best
    ∧ (∀ other, best_of_five cards other → other = best)
    ∧ (length cards = 7%nat → length (combinations cards 5) = 21%nat).
Proof.
  intros _ Hlen.
  destruct (evaluate_hand_best_of_five cards) as (best & Heval & Hbest);
    [lia|].
  exists best. split_and!; [done|done| |].
  - intros other Hother. by apply (best_of_five_unique cards).
  - intros H7. by rewrite length_combinations, H7.
Qed.

Lemma evaluate_hand_is_best_of_five_witness :
  let cards := [mkCard RA Spades; mkCard RK Spades; mkCard RQ Spades;
                mkCard RJ Spades; mkCard R10 Spades; mkCard R2 Hearts;
                mkCard R3 Hearts] in
  ∃ best,
    evaluate_hand cards = Some best
    ∧ best_of_five cards best
    ∧ (∀ other, best_of_five cards other → other = best)
    ∧ (length cards = 7%nat → length (combinations cards 5) = 21%nat).
Proof.
  apply evaluate_hand_is_best_of_five.
  - compute_done.
  - right. reflexivity.
Defined.

End EvaluateHand.

(** ** Doubles *)

Section DoubleFacts.
Import Double.

(** Rounding to the nearest integer does not cross an integer. *)
Lemma round_half_even_le (num den K : Z) :
  0 < den → num ≤ K * den → round_half_even num den ≤ K.
Proof.
  intros Hden Hle. unfold round_half_even.
  pose proof (Z.div_mod num den ltac:(lia)) as Hdm.
  pose proof (Z.mod_pos_bound num den Hden) as Hr.
  assert (Hq : num / den ≤ K) by (apply Z.div_le_upper_bound; lia).
  assert (Hup : 0 < num mod den → num / den + 1 ≤ K) by nia.
  destruct (Z.ltb_spec (2 * (num mod den)) den); [done|].
  destruct (Z.ltb_spec den (2 * (num mod den))); [apply Hup; lia|].
  destruct (Z.even (num / den)); [done|apply Hup; lia].
Qed.

Lemma round_half_even_ge (num den K : Z) :
  0 < den → K * den ≤ num → K ≤ round_half_even num den.
Proof.
  intros Hden Hle. unfold round_half_even.
  assert (Hq : K ≤ num / den) by (apply Z.div_le_lower_bound; lia).
  destruct (_ <? den); [done|].
  destruct (den <? _); [lia|]. destruct (Z.even _); lia.
Qed.

(** A quotient below [2 ^ 53] has its unit in the last place at [2 ^ 0]
    or below. *)
Lemma ilog2_small (a d R : Z) :
  0 < a → 0 < d → a ≤ R * d → R < 2 ^ 53 → ilog2 a d ≤ 52.
Proof.
  intros Ha Hd Hle HR. unfold ilog2.
  set (k := Z.log2 a - Z.log2 d).
  destruct (Z.log2_spec a Ha) as [Ha1 Ha2].
  destruct (Z.log2_spec d Hd) as [Hd1 Hd2].
  pose proof (Z.log2_nonneg a). pose proof (Z.log2_nonneg d).
  assert (Hk : k ≤ 53).
  { destruct (Z_le_gt_dec k 53) as [|Hbig]; [done|]. exfalso.
    assert (Hpow : 2 ^ Z.log2 a = 2 ^ (Z.log2 d + 1) * 2 ^ (k - 1)).
    { rewrite <- Z.pow_add_r by lia. f_equal. lia. }
    assert (2 ^ 53 ≤ 2 ^ (k - 1)) by (apply Z.pow_le_mono_r; lia).
    nia. }
  destruct (Z.leb_spec (d * 2 ^ Z.max k 0) (a * 2 ^ Z.max (- k) 0)) as [Htest|_];
    [|lia].
  destruct (Z_le_gt_dec k 52) as [|Hbig]; [done|]. exfalso.
  assert (k = 53) as Hk53 by lia.
  rewrite Hk53 in Htest. change (Z.max 53 0) with 53 in Htest.
  change (Z.max (- 53) 0) with 0 in Htest. rewrite Z.pow_0_r in Htest. nia.
Qed.

(** Rounding does not cross an integer below [2 ^ 53] either, and what
    lies between two of them is a finite double. *)
Lemma round_between (x : Q) (lo hi : Z) :
  0 ≤ lo → hi < 2 ^ 53 →
  (inject_Z lo <= x)%Q → (x <= inject_Z hi)%Q →
  ∃ v, round x = Some v ∧ (inject_Z lo <= v)%Q ∧ (v <= inject_Z hi)%Q.
Proof.
  intros Hlo Hhi Hlox Hxhi. destruct x as [n d].
  unfold Qle in Hlox, Hxhi. cbn [Qnum Qden inject_Z] in Hlox, Hxhi.
  unfold round. cbn [Qnum Qden].
  destruct (Z.eqb_spec n 0) as [->|Hn].
  { exists 0%Q. split; [done|]. unfold Qle. cbn [Qnum Qden inject_Z]. lia. }
  assert (Hpos : 0 < n) by nia.
  rewrite (Z.abs_eq n) by lia.
  pose proof (ilog2_small n (Z.pos d) hi Hpos ltac:(lia) ltac:(lia) Hhi) as Hlog.
  set (e := Z.max (ilog2 n (Z.pos d) - (prec - 1)) emin).
  assert (He : e ≤ 0) by (unfold e, prec, emin; lia).
  rewrite (Z.max_r e 0), (Z.max_l (- e) 0) by lia.
  rewrite Z.pow_0_r, !Z.mul_1_r.
  set (P := 2 ^ (- e)).
  assert (HP : 0 < P) by (apply Z.pow_pos_nonneg; lia).
  set (m := round_half_even (n * P) (Z.pos d)).
  assert (Hm1 : lo * P ≤ m) by (apply round_half_even_ge; [lia|nia]).
  assert (Hm2 : m ≤ hi * P) by (apply round_half_even_le; [lia|nia]).
  assert (Hlow : (inject_Z lo <= m # Z.to_pos P)%Q).
  { unfold Qle. cbn [Qnum Qden inject_Z]. rewrite Z2Pos.id by done. lia. }
  assert (Hhigh : (m # Z.to_pos P <= inject_Z hi)%Q).
  { unfold Qle. cbn [Qnum Qden inject_Z]. rewrite Z2Pos.id by done. lia. }
  destruct (Qle_bool (inject_Z (2 ^ emax)) (m # Z.to_pos P)) eqn:Hover.
  { exfalso. apply Qle_bool_iff in Hover.
    pose proof (Qle_trans _ _ _ Hover Hhigh) as Hbig.
    rewrite <- Zle_Qle in Hbig.
    assert (2 ^ 53 < 2 ^ emax) by (by apply Z.pow_lt_mono_r).
    lia. }
  destruct (Z.ltb_spec n 0); [lia|]. by eexists.
Qed.

Lemma div_between (a b lo hi : Z) :
  0 < b → 0 ≤ lo → hi < 2 ^ 53 → lo * b ≤ a → a ≤ hi * b →
  ∃ v, div a b = Some v ∧ (inject_Z lo <= v)%Q ∧ (v <= inject_Z hi)%Q.
Proof.
  intros Hb Hlo Hhi Hlow Hhigh. unfold div.
  destruct (Z.eqb_spec b 0); [lia|].
  assert (Hbq : (0 < inject_Z b)%Q) by (by rewrite <- (Zlt_Qlt 0)).
  apply round_between; [done|done| |].
  - apply Qle_shift_div_l; [done|]. rewrite <- inject_Z_mult.
    by rewrite <- Zle_Qle.
  - apply Qle_shift_div_r; [done|]. rewrite <- inject_Z_mult.
    by rewrite <- Zle_Qle.
Qed.

(** The percentage of a ratio between 0 and 1. *)
Lemma percentage_between (ratio : Q) (lo : Z) :
  0 ≤ lo ≤ 1 →
  (inject_Z lo <= ratio)%Q → (ratio <= 1)%Q →
  ∃ v, mul ratio (inject_Z 100) = Some v
       ∧ (inject_Z (lo * 100) <= v)%Q ∧ (v <= inject_Z 100)%Q.
Proof.
  intros Hlo Hlow Hhigh. unfold mul.
  apply round_between; [lia|done| |].
  - rewrite inject_Z_mult. by apply Qmult_le_compat_r.
  - apply (Qle_trans _ (1 * inject_Z 100)); [by apply Qmult_le_compat_r|].
    unfold Qle. simpl. lia.
Qed.

(** Eleven wins in twenty iterations: the quotient is rounded up, and the
    estimate comes out one unit in the last place above 55. *)
Example eleven_wins_in_twenty :
  Qred <$> (ratio ← div 11 20; mul ratio (inject_Z 100))
  = Some (7740561859543041 # 140737488355328)
  ∧ (7740561859543041 # 140737488355328 == 55 + (1 # 140737488355328))%Q.
Proof. split; [by vm_compute|reflexivity]. Qed.

End DoubleFacts.

(** ** The estimator *)

Section EstimatorFacts.
Import Hand Estimator.
Variable shuffle : nat → list Card → list Card.

Lemma player_wins_spec player_score board opps :
  ∃ won, player_wins player_score board opps = Some won
         ∧ (won = true ↔
            ∀ opp_hand opp_score, opp_hand ∈ opps →
              evaluate_hand (opp_hand ++ board) = Some opp_score →
              ¬ lex_lt player_score opp_score).
Proof.
  induction opps as [|opp opps (won & IH & Hwon)]; simpl.
  - exists true. split; [done|]. split; [|done].
    intros _ ? ? Hin. by apply elem_of_nil in Hin.
  - destruct (evaluate_hand_total (opp ++ board)) as [opp_score Hs].
    rewrite Hs. simpl. unfold score_gtb.
    destruct (score_ltb player_score opp_score) eqn:Hlt.
    + exists false. split; [done|]. split; [done|]. intros Hall.
      destruct (Hall opp opp_score); [by left|done|]. by apply lex_lt_ltb.
    + exists won. split; [done|]. rewrite Hwon. split.
      * intros Hall o os [->|Hin]%elem_of_cons Ho.
        -- assert (os = opp_score) as -> by congruence.
           rewrite <- lex_lt_ltb. congruence.
        -- by apply (Hall o).
      * intros Hall o os Hin. apply Hall. by right.
Qed.

(** One iteration returns its verdict, and the verdict is a win exactly
    when no opponent is ahead. *)
Lemma trial_spec player_hand community_cards num_players available :
  ∃ won, trial player_hand community_cards num_players available = Some won
         ∧ (won = true ↔
            no_opponent_ahead player_hand community_cards num_players available).
Proof.
  unfold trial, no_opponent_ahead.
  destruct (evaluate_hand_total
              (player_hand ++ simulated_community community_cards available))
    as [player_score Hp].
  rewrite Hp. simpl.
  destruct (player_wins_spec player_score
              (simulated_community community_cards available)
              (opponent_hands available
                 (5 - Z.of_nat (length community_cards)) num_players))
    as (won & Hw & Hwon).
  exists won. split; [done|]. rewrite Hwon. split.
  - intros Hall opp ps os Hin Hps Hos.
    assert (ps = player_score) as -> by congruence. by apply (Hall opp).
  - intros Hall opp os Hin Hos. by apply (Hall opp player_score).
Qed.

Lemma iterate_counts player_hand community_cards num_players n :
  ∀ k available wins,
    iterate shuffle n k player_hand community_cards num_players available wins
    = Some (wins + Z.of_nat (length (filter
              (λ cards, trial player_hand community_cards num_players cards
                        = Some true)
              (decks shuffle n k available)))).
Proof.
  induction n as [|n IH]; intros k available wins; simpl.
  - f_equal. lia.
  - destruct (trial_spec player_hand community_cards num_players
                (shuffle k available)) as (won & Hw & _).
    rewrite Hw. simpl. rewrite IH, filter_cons.
    destruct won; case_decide; try congruence; simpl; f_equal; lia.
Qed.

Lemma length_decks n : ∀ k available,
  length (decks shuffle n k available) = n.
Proof. induction n as [|n IH]; intros; simpl; [done|]. by rewrite IH. Qed.

(** C5. On a two-card hand, a board of 0, 3, 4 or 5 cards, at least one
    opponent and at least one iteration, every iteration returns a verdict
    that is a win exactly when none of the [num_players - 1] opponents'
    scores strictly exceeds the player's (a tie is a win), and the
    estimator returns the number of winning iterations divided by the
    number of iterations, times 100, as the doubles of the division and of
    the product come out; what it returns lies between 0 and 100. *)
Theorem win_probability_counts_ties
    (player_hand community_cards : list Card) (num_players iterations : Z) :
  length player_hand = 2%nat →
  length community_cards ∈ [0; 3; 4; 5]%nat →
  2 ≤ num_players → 1 ≤ iterations →
  let available := available_cards (player_hand ++ community_cards) in
  let seen := decks shuffle (Z.to_nat iterations) 0 available in
  let wins :=
    Z.of_nat (length (filter
      (λ cards, trial player_hand community_cards num_players cards = Some true)
      seen)) in
  (∀ cards, cards ∈ seen →
     length (opponent_hands cards (5 - Z.of_nat (length community_cards))
                            num_players)
     = Z.to_nat (num_players - 1)
     ∧ ∃ won, trial player_hand community_cards num_players cards = Some won
              ∧ (won = true ↔
                 no_opponent_ahead player_hand community_cards num_players
                                   cards))
  ∧ ∃ ratio estimate,
      Double.div wins iterations = Some ratio
      ∧ Double.mul ratio (inject_Z 100) = Some estimate
      ∧ calculate_win_probability shuffle player_hand community_cards
          num_players iterations
        = Some estimate
      ∧ (0 <= estimate)%Q
      ∧ (estimate <= inject_Z 100)%Q.
Proof.
  intros _ _ _ Hiter available seen wins. split.
  - intros cards _. split; [|apply trial_spec].
    unfold opponent_hands. by rewrite length_map, length_seqZ.
  - assert (Hwins : 0 ≤ wins ≤ iterations).
    { split; [lia|]. unfold wins. etrans; [apply inj_le, length_filter|].
      unfold seen. rewrite length_decks. lia. }
    destruct (div_between wins iterations 0 1)
      as (ratio & Hdiv & Hr0 & Hr1); [lia|lia|done|lia|lia|].
    destruct (percentage_between ratio 0)
      as (estimate & Hmul & He0 & He1); [lia|done|done|].
    exists ratio, estimate. split_and!; [done|done| |done|done].
    unfold calculate_win_probability. fold available.
    rewrite iterate_counts. cbn [mbind option_bind]. rewrite Z.add_0_l.
    fold seen. fold wins. by rewrite Hdiv.
Qed.

End EstimatorFacts.

Lemma win_probability_counts_ties_witness :
  let shuffle := λ (_ : nat) (cards : list Card), reverse cards in
  let player_hand := [mkCard RA Spades; mkCard RA Hearts] in
  let community_cards := [mkCard R2 Clubs; mkCard R7 Diamonds; mkCard RJ Clubs] in
  let available := Estimator.available_cards (player_hand ++ community_cards) in
  let seen := Estimator.decks shuffle 2 0 available in
  let wins :=
    Z.of_nat (length (filter
      (λ cards, Estimator.trial player_hand community_cards 2 cards = Some true)
      seen)) in
  (∀ cards, cards ∈ seen →
     length (Estimator.opponent_hands cards (5 - Z.of_nat 3) 2)
     = Z.to_nat (2 - 1)
     ∧ ∃ won, Estimator.trial player_hand community_cards 2 cards = Some won
              ∧ (won = true ↔
                 Estimator.no_opponent_ahead player_hand community_cards 2
                                             cards))
  ∧ ∃ ratio estimate,
      Double.div wins 2 = Some ratio
      ∧ Double.mul ratio (inject_Z 100) = Some estimate
      ∧ Estimator.calculate_win_probability shuffle player_hand
          community_cards 2 2
        = Some estimate
      ∧ (0 <= estimate)%Q
      ∧ (estimate <= inject_Z 100)%Q.
Proof.
  apply (win_probability_counts_ties (λ _ cards, reverse cards)
           [mkCard RA Spades; mkCard RA Hearts]
           [mkCard R2 Clubs; mkCard R7 Diamonds; mkCard RJ Clubs] 2 2).
  - reflexivity.
  - compute_done.
  - lia.
  - lia.
Defined.

(** ** The start of a round *)

Section RoundStart.
Import Game.

Lemma place_bet_covered amount p :
  amount ≤ Player.chips p →
  Player.place_bet amount p
  = (amount, Player.mk (Player.chips p - amount) (Player.hand p)
               (Player.is_active p) (Player.is_ai p)
               (Player.current_bet p + amount)).
Proof.
  intros Hle. unfold Player.place_bet.
  by destruct (Z.ltb_spec (Player.chips p) amount); [lia|].
Qed.

Lemma deal_to_next seat ps c rest cc pt cb dealer cpi sb bb :
  deal_to seat (mk ps (c :: rest) cc pt cb dealer cpi sb bb)
  = Some (mk (alter (Player.add_card c) seat ps) rest cc pt cb dealer cpi sb bb).
Proof. reflexivity. Qed.

(** Two cards each at a table of four. *)
Lemma deal_hands_four p0 p1 p2 p3 c0 c1 c2 c3 c4 c5 c6 c7 rest
    cc pt cb dealer cpi sb bb :
  deal_hands (mk [p0; p1; p2; p3]
                 (c0 :: c1 :: c2 :: c3 :: c4 :: c5 :: c6 :: c7 :: rest)
                 cc pt cb dealer cpi sb bb)
  = Some (mk [Player.add_card c4 (Player.add_card c0 p0);
              Player.add_card c5 (Player.add_card c1 p1);
              Player.add_card c6 (Player.add_card c2 p2);
              Player.add_card c7 (Player.add_card c3 p3)]
             rest cc pt cb dealer cpi sb bb).
Proof.
  unfold deal_hands. cbn [players length seq app foldl].
  cbn [mbind option_bind]. rewrite deal_to_next.
  cbn [mbind option_bind]. rewrite deal_to_next.
  cbn [mbind option_bind]. rewrite deal_to_next.
  cbn [mbind option_bind]. rewrite deal_to_next.
  cbn [mbind option_bind]. rewrite deal_to_next.
  cbn [mbind option_bind]. rewrite deal_to_next.
  cbn [mbind option_bind]. rewrite deal_to_next.
  cbn [mbind option_bind]. rewrite deal_to_next.
  reflexivity.
Qed.

(** The blinds at a table of four with the button at seat 0. *)
Lemma post_blinds_four p0 p1 p2 p3 dk cc pt cb cpi sb bb :
  post_blinds (mk [p0; p1; p2; p3] dk cc pt cb 0 cpi sb bb)
  = Some (mk [p0; (Player.place_bet sb p1).2; (Player.place_bet bb p2).2; p3]
             dk cc
             (pt + ((Player.place_bet sb p1).1 + (Player.place_bet bb p2).1))
             bb 0 3 sb bb).
Proof.
  unfold post_blinds, bet_at, py_mod.
  cbn [players length dealer_idx small_blind big_blind Nat.eqb Nat.add
       mbind option_bind].
  change ((1 `mod` 4)%nat) with 1%nat. change ((2 `mod` 4)%nat) with 2%nat.
  cbn [lookup list_lookup mbind option_bind].
  destruct (Player.place_bet sb p1) as [paid1 q1].
  cbn [insert list_insert lookup list_lookup mbind option_bind].
  destruct (Player.place_bet bb p2) as [paid2 q2].
  reflexivity.
Qed.

(** What [start_new_round] comes to at a table of four solvent players. *)
Lemma start_new_round_four p0 p1 p2 p3 fresh dk cc pt cb dealer cpi sb bb :
  0 < Player.chips p0 → 0 < Player.chips p1 →
  0 < Player.chips p2 → 0 < Player.chips p3 →
  start_new_round fresh (mk [p0; p1; p2; p3] dk cc pt cb dealer cpi sb bb)
  = g ← deal_hands (mk [Player.clear_hand p0; Player.clear_hand p1;
                        Player.clear_hand p2; Player.clear_hand p3]
                       fresh [] 0 0 ((dealer + 1) mod 4)%nat cpi sb bb);
    g ← post_blinds g;
    Some (true, g).
Proof.
  intros H0 H1 H2 H3.
  unfold start_new_round, set_players, set_pot, set_current_bet,
    set_dealer_idx.
  cbn [players deck community_cards pot current_bet dealer_idx
       current_player_idx small_blind big_blind map].
  rewrite !filter_cons_True by (simpl; lia). rewrite filter_nil.
  reflexivity.
Qed.

(** C8. Four players who each hold the big blind or more, blinds of 5 and
    10, the dealer button moving to seat 0: once the forced bets are in,
    the pot is 15, the bet to match is 10 and seat 3, the seat after the
    big blind, is first to act. *)
Theorem blinds_posted_four_players (fresh_deck : list Card) (g : Game.t) :
  length (players g) = 4%nat →
  Forall (λ p, big_blind g ≤ Player.chips p) (players g) →
  small_blind g = 5 → big_blind g = 10 →
  ((dealer_idx g + 1) mod 4)%nat = 0%nat →
  length fresh_deck = 52%nat →
  ∃ g', start_new_round fresh_deck g = Some (true, g')
        ∧ dealer_idx g' = 0%nat
        ∧ pot g' = 15
        ∧ current_bet g' = 10
        ∧ current_player_idx g' = 3%nat.
Proof.
  destruct g as [ps dk cc pt cb dealer cpi sb bb].
  cbn [players small_blind big_blind dealer_idx].
  intros Hlen Hchips -> -> Hdealer Hdeck.
  destruct ps as [|p0 [|p1 [|p2 [|p3 [|]]]]]; try done.
  destruct fresh_deck as [|c0 [|c1 [|c2 [|c3 [|c4 [|c5 [|c6 [|c7 rest]]]]]]]];
    try done.
  apply Forall_cons in Hchips as [H0 Hchips].
  apply Forall_cons in Hchips as [H1 Hchips].
  apply Forall_cons in Hchips as [H2 Hchips].
  apply Forall_cons in Hchips as [H3 _].
  rewrite start_new_round_four by lia. rewrite Hdealer.
  rewrite deal_hands_four. cbn [mbind option_bind].
  rewrite post_blinds_four. cbn [mbind option_bind].
  rewrite !place_bet_covered by (simpl; lia).
  eexists. split; [reflexivity|]. cbn [dealer_idx pot current_bet
    current_player_idx fst]. split_and!; [done|lia|done|done].
Qed.

Lemma blinds_posted_four_players_witness :
  let g :=
    Game.mk [Player.new 1000 false; Player.new 1000 true;
             Player.new 1000 true; Player.new 1000 true]
            [] [] 0 0 3 0 5 10 in
  ∃ g', start_new_round all_cards g = Some (true, g')
        ∧ dealer_idx g' = 0%nat
        ∧ pot g' = 15
        ∧ current_bet g' = 10
        ∧ current_player_idx g' = 3%nat.
Proof.
  apply blinds_posted_four_players.
  - reflexivity.
  - simpl. repeat constructor; simpl; lia.
  - reflexivity.
  - reflexivity.
  - reflexivity.
  - reflexivity.
Defined.

End RoundStart.

(** ** The automated policy *)

Section Policy.
Import Hand Game.

(** C6 (as the program has it). Past the flop, holding three of a kind or
    better and with the draw below 0.7, the policy raises by the larger of
    the big blind and [min chips (pot // 2)]: the stack caps half the pot,
    not the big blind.  Whenever the stack covers the big blind this is
    the same as [min chips (max big_blind (pot // 2))]. *)
Theorem strong_hand_raise_size (g : Game.t) (player : Player.t)
    (amount_to_call : Z) (draw : Q) (hand_rank : Z) (tie_breakers : list Z) :
  community_cards g ≠ [] →
  evaluate_hand (Player.hand player ++ community_cards g)
  = Some (hand_rank, tie_breakers) →
  3 ≤ hand_rank →
  Qltb draw p_0_7 = true →
  ai_decision g player amount_to_call draw
  = Some (Raise (Z.max (big_blind g)
                       (Z.min (Player.chips player) (pot g / 2))))
  ∧ (big_blind g ≤ Player.chips player →
     Z.max (big_blind g) (Z.min (Player.chips player) (pot g / 2))
     = Z.min (Player.chips player) (Z.max (big_blind g) (pot g / 2))).
Proof.
  intros Hboard Heval Hrank Hdraw. split; [|lia].
  unfold ai_decision. rewrite Heval. cbn [mbind option_bind].
  destruct (community_cards g) as [|c board]; [done|].
  cbn [length Nat.eqb].
  destruct (Z.leb_spec 3 hand_rank) as [_|]; [|lia].
  by rewrite Hdraw.
Qed.

Lemma strong_hand_raise_size_witness :
  let g := Game.mk [] [] [mkCard RA Diamonds; mkCard RK Clubs; mkCard R2 Spades]
                   100 0 0 0 5 10 in
  let player := Player.mk 1000 [mkCard RA Spades; mkCard RA Hearts] true true 0 in
  ai_decision g player 0 0%Q = Some (Raise (Z.max 10 (Z.min 1000 (100 / 2))))
  ∧ (10 ≤ 1000 →
     Z.max 10 (Z.min 1000 (100 / 2)) = Z.min 1000 (Z.max 10 (100 / 2))).
Proof.
  apply (strong_hand_raise_size
           (Game.mk [] [] [mkCard RA Diamonds; mkCard RK Clubs; mkCard R2 Spades]
                    100 0 0 0 5 10)
           (Player.mk 1000 [mkCard RA Spades; mkCard RA Hearts] true true 0)
           0 0%Q 3 [12; 11; 0]).
  - done.
  - reflexivity.
  - lia.
  - reflexivity.
Defined.

(** With a stack below the big blind the raise is the big blind, more than
    the stack, and not [min chips (max big_blind (pot // 2))]. *)
Lemma short_stack_raise_exceeds_stack :
  let g := Game.mk [] [] [mkCard RA Diamonds; mkCard RK Clubs; mkCard R2 Spades]
                   100 0 0 0 5 10 in
  let player := Player.mk 5 [mkCard RA Spades; mkCard RA Hearts] true true 0 in
  evaluate_hand (Player.hand player ++ community_cards g) = Some (3, [12; 11; 0])
  ∧ Qltb 0%Q p_0_7 = true
  ∧ ai_decision g player 0 0%Q = Some (Raise 10)
  ∧ Z.min (Player.chips player) (Z.max (big_blind g) (pot g / 2)) = 5
  ∧ ai_decision g player 0 0%Q
    ≠ Some (Raise (Z.min (Player.chips player)
                         (Z.max (big_blind g) (pot g / 2)))).
Proof. vm_compute. split_and!; congruence. Qed.

End Policy.

(** ** A call for more than the stack *)

Section ShortCall.
Import Game.
Variable decide : nat → Game.t → nat → Z → option Action.

Lemma place_bet_short amount p :
  Player.chips p < amount →
  Player.place_bet amount p
  = (Player.chips p,
     Player.mk 0 (Player.hand p) (Player.is_active p) (Player.is_ai p)
               (Player.current_bet p + Player.chips p)).
Proof.
  intros Hlt. unfold Player.place_bet.
  destruct (Z.ltb_spec (Player.chips p) amount); [|lia].
  by rewrite Z.sub_diag.
Qed.

(** C2 (as the program has it). When the player to act holds less than
    the amount to call and the decision is to call, the street takes the
    call: the whole stack goes into the pot, the player's bet for the
    street grows by it, the bet to match stays, and the turn passes to the
    next seat.  Only [human_decision] turns such a call down. *)
Theorem short_call_is_capped (fuel : nat) (g : Game.t) (player_idx : nat)
    (last_raiser : option nat) (turns : nat) (player : Player.t) :
  players g !! player_idx = Some player →
  Player.is_active player = true →
  last_raiser ≠ Some player_idx →
  Player.chips player < current_bet g - Player.current_bet player →
  decide turns (set_current_player_idx player_idx g) player_idx
         (current_bet g - Player.current_bet player) = Some Call →
  let paid := Player.chips player in
  let after :=
    Player.mk 0 (Player.hand player) true (Player.is_ai player)
              (Player.current_bet player + paid) in
  let g' :=
    Game.mk (<[player_idx := after]> (players g)) (deck g)
            (community_cards g) (pot g + paid) (current_bet g) (dealer_idx g)
            player_idx (small_blind g) (big_blind g) in
  betting_loop decide (S fuel) g player_idx last_raiser turns
  = betting_loop decide fuel g'
      ((player_idx + 1) mod length (players g))%nat
      (Some (default player_idx last_raiser)) (S turns)
  ∧ human_accepts player (current_bet g - Player.current_bet player) Call
    = false.
Proof.
  intros Hlookup Hactive Hlast Hshort Hdecide paid after g'. split.
  - cbn [betting_loop]. rewrite Hlookup, Hactive. cbn [negb].
    rewrite bool_decide_eq_false_2 by done.
    change (current_bet (set_current_player_idx player_idx g))
      with (current_bet g).
    rewrite Hdecide. unfold process_action, bet_at.
    change (players (set_current_player_idx player_idx g)) with (players g).
    rewrite Hlookup. cbn [mbind option_bind].
    rewrite place_bet_short by done. rewrite Hactive.
    cbn [mbind option_bind]. reflexivity.
  - unfold human_accepts.
    destruct (Z.leb_spec (current_bet g - Player.current_bet player)
                (Player.chips player)); [lia|].
    by rewrite andb_false_r.
Qed.
End ShortCall.

Section ShortCallExamples.
Import Game.

Lemma short_call_is_capped_witness :
  let g :=
    Game.mk [Player.mk 5 [] true true 0; Player.mk 990 [] true true 10]
            [] [] 15 10 1 0 5 10 in
  let g' :=
    Game.mk (<[0%nat := Player.mk 0 [] true true (0 + 5)]> (players g)) []
            [] (15 + 5) 10 1 0 5 10 in
  betting_loop (scripted [Call; Check]) 4 g 0 None 0
  = betting_loop (scripted [Call; Check]) 3 g' ((0 + 1) mod 2)%nat
      (Some (default 0%nat None)) 1
  ∧ human_accepts (Player.mk 5 [] true true 0) (10 - 0) Call = false.
Proof.
  apply (short_call_is_capped (scripted [Call; Check]) 3
           (Game.mk [Player.mk 5 [] true true 0; Player.mk 990 [] true true 10]
                    [] [] 15 10 1 0 5 10)
           0 None 0 (Player.mk 5 [] true true 0)).
  - reflexivity.
  - reflexivity.
  - done.
  - simpl. lia.
  - reflexivity.
Defined.

(** Seat 0 holds 5 chips and faces a bet of 10: the call is taken, pot
    and stack change, and the street runs on to its end. *)
Lemma short_call_mutates_state :
  let g :=
    Game.mk [Player.mk 5 [] true true 0; Player.mk 990 [] true true 10]
            [] [] 15 10 1 0 5 10 in
  ∃ g',
    betting_round (scripted [Call; Check]) 4 g = Returned true g' 2
    ∧ pot g = 15 ∧ pot g' = 20
    ∧ Player.chips <$> players g = [5; 990]
    ∧ Player.chips <$> players g' = [0; 990]
    ∧ Player.current_bet <$> players g' = [5; 10]
    ∧ g' ≠ g.
Proof.
  eexists. split; [vm_compute; reflexivity|].
  vm_compute. split_and!; congruence.
Qed.

(** The automated policy does take such a call: a weak hand before the
    flop calls any bet up to the big blind, whatever the stack. *)
Example policy_calls_beyond_stack :
  let g :=
    Game.mk [Player.mk 5 [mkCard R7 Spades; mkCard R2 Hearts] true true 0;
             Player.mk 990 [mkCard RA Spades; mkCard RA Hearts] true true 10]
            [] [] 15 10 1 0 5 10 in
  automated (λ _, 0%Q) 0 g 0 10 = Some Call.
Proof. reflexivity. Qed.

End ShortCallExamples.

(** ** Settlement *)

Section Settlement.
Import Hand Game.

Lemma add_chips_0 p : Player.add_chips 0 p = p.
Proof. destruct p. unfold Player.add_chips. simpl. by rewrite Z.add_0_r. Qed.

Lemma add_chips_add n m p :
  Player.add_chips m (Player.add_chips n p) = Player.add_chips (n + m) p.
Proof. unfold Player.add_chips. simpl. f_equal. lia. Qed.

Lemma total_chips_alter n w ps :
  (w < length ps)%nat →
  total_chips (alter (Player.add_chips n) w ps) = total_chips ps + n.
Proof.
  unfold total_chips. revert w.
  induction ps as [|p ps IH]; intros [|w] Hw; simpl in Hw; try lia.
  - cbn. lia.
  - change (alter (Player.add_chips n) (S w) (p :: ps))
      with (p :: alter (Player.add_chips n) w ps).
    rewrite !fmap_cons. cbn [foldr]. rewrite IH by lia. lia.
Qed.

(** Paying the same amount to each seat of a list of distinct seats. *)
Lemma lookup_pay_all n (winners : list nat) : ∀ (ps : list Player.t) (seat : nat),
  NoDup winners →
  foldl (λ ps w, alter (Player.add_chips n) w ps) ps winners !! seat
  = Player.add_chips (if bool_decide (seat ∈ winners) then n else 0)
    <$> ps !! seat.
Proof.
  induction winners as [|w winners IH]; intros ps seat Hnd; simpl.
  - destruct (ps !! seat) as [p|]; simpl; [|done]. by rewrite add_chips_0.
  - apply NoDup_cons in Hnd as [Hw Hnd]. rewrite IH by done.
    destruct (decide (seat = w)) as [->|Hne].
    + rewrite list_lookup_alter_eq.
      rewrite (bool_decide_eq_false_2 (w ∈ winners)) by done.
      rewrite bool_decide_eq_true_2 by by left.
      destruct (ps !! w) as [p|]; simpl; [|done]. by rewrite add_chips_0.
    + rewrite list_lookup_alter_ne by done.
      destruct (decide (seat ∈ winners)) as [Hin|Hnin].
      * rewrite !bool_decide_eq_true_2; [done|by right|done].
      * rewrite !bool_decide_eq_false_2; [done| |done].
        by intros [?|?]%elem_of_cons.
Qed.

Lemma length_pay_all n (winners : list nat) : ∀ ps : list Player.t,
  length (foldl (λ ps w, alter (Player.add_chips n) w ps) ps winners)
  = length ps.
Proof.
  induction winners as [|w winners IH]; intros ps; simpl; [done|].
  by rewrite IH, length_alter.
Qed.

Lemma total_chips_pay_all n (winners : list nat) : ∀ ps : list Player.t,
  Forall (λ w, w < length ps)%nat winners →
  total_chips (foldl (λ ps w, alter (Player.add_chips n) w ps) ps winners)
  = total_chips ps + Z.of_nat (length winners) * n.
Proof.
  induction winners as [|w winners IH]; intros ps Hall; simpl; [lia|].
  apply Forall_cons in Hall as [Hw Hall].
  rewrite IH by by rewrite length_alter.
  rewrite total_chips_alter by done. lia.
Qed.

(** The split among distinct seated winners. *)
Lemma split_pot_spec pot winners ps :
  winners ≠ [] → NoDup winners →
  Forall (λ w, w < length ps)%nat winners →
  ∃ ps', split_pot pot winners ps = Some ps'
         ∧ (∀ seat, ps' !! seat
                    = Player.add_chips (share pot winners seat) <$> ps !! seat)
         ∧ total_chips ps' = total_chips ps + pot.
Proof.
  intros Hne Hnd Hall. unfold split_pot, share.
  destruct winners as [|w0 winners]; [done|].
  set (count := Z.of_nat (length (w0 :: winners))).
  assert (Hcount : 0 < count) by (unfold count; simpl; lia).
  destruct (Z.eqb_spec count 0) as [|_]; [lia|].
  set (paid := foldl _ ps (w0 :: winners)).
  assert (Hpaid : ∀ seat, paid !! seat
    = Player.add_chips
        (if bool_decide (seat ∈ w0 :: winners) then pot / count else 0)
      <$> ps !! seat) by (intros; by apply lookup_pay_all).
  assert (Htotal : total_chips paid = total_chips ps + count * (pot / count))
    by by apply total_chips_pay_all.
  pose proof (Z.div_mod pot count ltac:(lia)) as Hdm.
  pose proof (Z.mod_pos_bound pot count Hcount) as Hmod.
  cbn [head].
  destruct (Z.ltb_spec 0 (pot mod count)) as [Hrem|Hrem].
  - cbn [mbind option_bind]. eexists. split; [done|]. split.
    + intros seat. destruct (decide (seat = w0)) as [->|Hneq].
      * rewrite list_lookup_alter_eq, Hpaid.
        rewrite (bool_decide_eq_true_2 (Some w0 = Some w0)) by done.
        destruct (ps !! w0); simpl; [|done]. by rewrite add_chips_add.
      * rewrite list_lookup_alter_ne, Hpaid by done.
        rewrite (bool_decide_eq_false_2 (Some w0 = Some seat)) by congruence.
        by rewrite Z.add_0_r.
    + rewrite total_chips_alter.
      * rewrite Htotal. lia.
      * unfold paid. rewrite length_pay_all.
        by apply Forall_cons in Hall as [? _].
  - eexists. split; [done|]. split.
    + intros seat. rewrite Hpaid. assert (pot mod count = 0) as -> by lia.
      f_equal. f_equal. repeat case_bool_decide; lia.
    + rewrite Htotal. lia.
Qed.

Lemma insert_desc_perm {A K} (key : A → K) (ltb : K → K → bool) x l :
  insert_desc key ltb x l ≡ₚ x :: l.
Proof.
  induction l as [|y l IH]; simpl; [done|].
  destruct (ltb (key x) (key y)); [|done].
  rewrite IH. apply Permutation_swap.
Qed.

Lemma sorted_desc_perm {A K} (key : A → K) (ltb : K → K → bool) l :
  sorted_desc key ltb l ≡ₚ l.
Proof.
  induction l as [|x l IH]; simpl; [done|].
  by rewrite insert_desc_perm, IH.
Qed.

Lemma tied_with_sublist top entries :
  tied_with top entries `sublist_of` entries.*1.
Proof.
  induction entries as [|[seat score] entries IH]; simpl; [done|].
  case_bool_decide; [by apply sublist_skip|apply sublist_nil_l].
Qed.

Lemma active_seats_seated (ps : list Player.t) :
  Forall (λ seat, seat < length ps)%nat (active_seats ps).
Proof.
  apply Forall_forall. intros seat [_ Hin]%list_elem_of_filter.
  apply elem_of_seq in Hin. lia.
Qed.

Lemma NoDup_active_seats (ps : list Player.t) : NoDup (active_seats ps).
Proof. apply NoDup_filter, NoDup_seq. Qed.

Lemma scores_of_seats g (seats : list nat) :
  Forall (λ seat, seat < length (players g))%nat seats →
  ∃ player_scores,
    mapM (λ seat,
            player ← players g !! seat;
            score ← evaluate_hand (Player.hand player ++ community_cards g);
            Some (seat, score)) seats = Some player_scores
    ∧ player_scores.*1 = seats.
Proof.
  induction 1 as [|seat seats Hseat Hall (scores & IH & Hfst)].
  - by exists [].
  - destruct (lookup_lt_is_Some_2 _ _ Hseat) as [player Hp].
    destruct (evaluate_hand_total (Player.hand player ++ community_cards g))
      as [score Hs].
    exists ((seat, score) :: scores). split; [|by rewrite fmap_cons, Hfst].
    cbn [mapM]. rewrite Hp. cbn [mbind option_bind]. rewrite Hs.
    cbn [mbind option_bind]. rewrite IH. done.
Qed.

(** A showdown among seated, distinct seats names at least one winner,
    and names no seat twice. *)
Lemma showdown_winners_spec g (active : list nat) :
  active ≠ [] → NoDup active →
  Forall (λ seat, seat < length (players g))%nat active →
  ∃ winners, showdown_winners g active = Some winners
             ∧ winners ≠ [] ∧ NoDup winners
             ∧ Forall (λ w, w < length (players g))%nat winners.
Proof.
  intros Hne Hnd Hseated. unfold showdown_winners.
  destruct (scores_of_seats g active Hseated) as (scores & -> & Hfst).
  cbn [mbind option_bind].
  pose proof (sorted_desc_perm snd score_ltb scores) as Hperm.
  destruct (sorted_desc snd score_ltb scores) as [|top sorted] eqn:Hsorted.
  { apply Permutation_nil_l in Hperm. subst scores. by destruct active. }
  cbn [head tail mbind option_bind]. eexists. split; [done|].
  assert (Hsub : top.1 :: tied_with top.2 sorted
                 `sublist_of` (top :: sorted).*1)
    by (rewrite fmap_cons; apply sublist_skip, tied_with_sublist).
  apply (fmap_Permutation fst) in Hperm. rewrite Hfst in Hperm.
  split_and!; [done| |].
  - apply (sublist_NoDup _ _ (proj2 (NoDup_Permutation_proper _ _ Hperm) Hnd)
             Hsub).
  - apply Forall_forall. intros w Hw.
    rewrite Forall_forall in Hseated. apply Hseated.
    rewrite <- Hperm. by apply (elem_of_sublist _ _ _ Hw).
Qed.

(** C3. At a showdown of two or more players over a pot that is not
    negative, every winner collects the pot divided by the number of
    winners, the first winner of the sorted list collects the whole
    remainder on top, nobody else collects anything, and the chips handed
    out add up to the pot exactly. *)
Theorem showdown_splits_pot_exactly (g : Game.t) :
  0 ≤ pot g →
  (2 ≤ length (active_seats (players g)))%nat →
  ∃ winners g',
    showdown_winners g (active_seats (players g)) = Some winners
    ∧ determine_winners g = Some g'
    ∧ winners ≠ []
    ∧ (∀ seat, players g' !! seat
               = Player.add_chips (share (pot g) winners seat)
                 <$> players g !! seat)
    ∧ total_chips (players g') = total_chips (players g) + pot g.
Proof.
  intros _ Hactive.
  destruct (showdown_winners_spec g (active_seats (players g)))
    as (winners & Hwinners & Hne & Hnd & Hseated).
  { intros Hnil. rewrite Hnil in Hactive. simpl in Hactive. lia. }
  { apply NoDup_active_seats. }
  { apply active_seats_seated. }
  destruct (split_pot_spec (pot g) winners (players g) Hne Hnd Hseated)
    as (ps' & Hsplit & Hlookup & Htotal).
  exists winners, (set_players ps' g). split_and!; try done.
  unfold determine_winners.
  destruct (active_seats (players g)) as [|s0 [|s1 rest]] eqn:Hseats;
    [simpl in Hactive; lia|simpl in Hactive; lia|].
  rewrite Hwinners. cbn [mbind option_bind]. rewrite Hsplit. done.
Qed.

Lemma showdown_splits_pot_exactly_witness :
  let board := [mkCard R2 Clubs; mkCard R7 Diamonds; mkCard R9 Spades;
                mkCard RJ Clubs; mkCard RQ Diamonds] in
  let g :=
    Game.mk [Player.mk 100 [mkCard RA Spades; mkCard RK Spades] true false 0;
             Player.mk 200 [mkCard RA Hearts; mkCard RK Hearts] true true 0;
             Player.mk 300 [mkCard R3 Hearts; mkCard R4 Hearts] true true 0]
            [] board 15 0 0 0 5 10 in
  ∃ winners g',
    showdown_winners g (active_seats (players g)) = Some winners
    ∧ determine_winners g = Some g'
    ∧ winners ≠ []
    ∧ (∀ seat, players g' !! seat
               = Player.add_chips (share (pot g) winners seat)
                 <$> players g !! seat)
    ∧ total_chips (players g') = total_chips (players g) + pot g.
Proof.
  apply showdown_splits_pot_exactly.
  - simpl. lia.
  - vm_compute. lia.
Defined.

(** The same showdown, computed: seats 0 and 1 tie, 15 chips split 7 and
    7, and the odd chip goes to seat 0. *)
Example showdown_odd_chip :
  let board := [mkCard R2 Clubs; mkCard R7 Diamonds; mkCard R9 Spades;
                mkCard RJ Clubs; mkCard RQ Diamonds] in
  let g :=
    Game.mk [Player.mk 100 [mkCard RA Spades; mkCard RK Spades] true false 0;
             Player.mk 200 [mkCard RA Hearts; mkCard RK Hearts] true true 0;
             Player.mk 300 [mkCard R3 Hearts; mkCard R4 Hearts] true true 0]
            [] board 15 0 0 0 5 10 in
  showdown_winners g (active_seats (players g)) = Some [0; 1]%nat
  ∧ (λ g', Player.chips <$> players g') <$> determine_winners g
    = Some [108; 207; 300].
Proof. vm_compute. done. Qed.

End Settlement.

(** ** Seats round the table *)

Section SeatArithmetic.
Import Game.

Lemma mod_wrap (x m : nat) :
  (0 < m → x < 2 * m → x mod m = if x <? m then x else x - m)%nat.
Proof.
  intros Hm Hx. destruct (Nat.ltb_spec x m) as [Hlt|Hge].
  - by apply Nat.mod_small.
  - replace x with ((x - m) + 1 * m)%nat at 1 by lia.
    rewrite Nat.Div0.mod_add. apply Nat.mod_small. lia.
Qed.

Lemma next_seat_wrap (idx m : nat) :
  (idx < m → (idx + 1) mod m = if idx + 1 <? m then idx + 1 else 0)%nat.
Proof.
  intros Hidx. rewrite mod_wrap by lia.
  destruct (Nat.ltb_spec (idx + 1) m); lia.
Qed.

Lemma next_seat_lt (idx m : nat) : (idx < m → (idx + 1) mod m < m)%nat.
Proof. intros. apply Nat.mod_upper_bound. lia. Qed.

Lemma gap_wrap (m idx target : nat) :
  (idx < m → target < m →
   gap m idx target = if idx <=? target then target - idx
                      else target + m - idx)%nat.
Proof.
  intros Hidx Htarget. unfold gap. rewrite mod_wrap by lia.
  destruct (Nat.ltb_spec (target + m - idx) m), (Nat.leb_spec idx target); lia.
Qed.

Lemma gap_0 (m idx target : nat) :
  (idx < m → target < m → gap m idx target = 0 ↔ idx = target)%nat.
Proof.
  intros Hidx Htarget. rewrite gap_wrap by done.
  destruct (Nat.leb_spec idx target); lia.
Qed.

Lemma gap_next (m idx target : nat) :
  (idx < m → target < m → idx ≠ target →
   gap m idx target = S (gap m ((idx + 1) mod m) target))%nat.
Proof.
  intros Hidx Htarget Hne.
  rewrite !gap_wrap, next_seat_wrap by (done || by apply next_seat_lt).
  destruct (Nat.ltb_spec (idx + 1) m), (Nat.leb_spec idx target);
    repeat match goal with |- context [(?a <=? ?b)%nat] =>
             destruct (Nat.leb_spec a b) end; lia.
Qed.

Lemma gap_after (m idx : nat) :
  (idx < m → gap m ((idx + 1) mod m) idx = m - 1)%nat.
Proof.
  intros Hidx.
  rewrite gap_wrap, next_seat_wrap by (done || by apply next_seat_lt).
  destruct (Nat.ltb_spec (idx + 1) m);
    repeat match goal with |- context [(?a <=? ?b)%nat] =>
             destruct (Nat.leb_spec a b) end; lia.
Qed.

Lemma seats_from_S (m idx w : nat) :
  (idx < m →
   seats_from m idx (S w) = idx :: seats_from m ((idx + 1) mod m) w)%nat.
Proof.
  intros Hidx. unfold seats_from. cbn [seq fmap list_fmap].
  rewrite Nat.add_0_r, Nat.mod_small by done. f_equal.
  rewrite <- fmap_S_seq, <- list_fmap_compose. apply list_fmap_ext.
  intros _ j _. simpl.
  rewrite Nat.Div0.add_mod_idemp_l. f_equal. lia.
Qed.

(** Going once round the table meets every seat once. *)
Lemma seats_from_round (m idx : nat) :
  (idx < m → seats_from m idx m ≡ₚ seq 0 m)%nat.
Proof.
  intros Hidx. unfold seats_from.
  assert (Hsplit : seq 0 m = seq 0 (m - idx) ++ seq (m - idx) idx).
  { replace m with ((m - idx) + idx)%nat at 1 by lia. by rewrite seq_app. }
  rewrite Hsplit at 1. rewrite fmap_app.
  assert (H1 : (λ j, (idx + j) mod m)%nat <$> seq 0 (m - idx)
               = seq idx (m - idx)).
  { rewrite <- (Nat.add_0_r idx) at 2. rewrite <- fmap_add_seq.
    apply list_fmap_ext. intros i j [-> ?]%lookup_seq.
    apply Nat.mod_small. lia. }
  assert (H2 : (λ j, (idx + j) mod m)%nat <$> seq (m - idx) idx = seq 0 idx).
  { rewrite <- (Nat.add_0_r (m - idx)), <- fmap_add_seq, <- list_fmap_compose.
    rewrite <- (list_fmap_id (seq 0 idx)) at 2.
    apply list_fmap_ext. intros i j [-> ?]%lookup_seq. simpl.
    replace (idx + (m - idx + i))%nat with (i + 1 * m)%nat by lia.
    rewrite Nat.Div0.mod_add. apply Nat.mod_small. lia. }
  rewrite H1, H2, Permutation_app_comm, <- seq_app.
  by replace (idx + (m - idx))%nat with m by lia.
Qed.
End SeatArithmetic.

Section Counting.
Import Game.

Lemma length_filter_fmap {A B} (f : A → B) (P : B → Prop)
    `{∀ x, Decision (P x)} (l : list A) :
  length (filter P (f <$> l)) = length (filter (P ∘ f) l).
Proof.
  induction l as [|x l IH]; [done|].
  rewrite fmap_cons, !filter_cons. simpl.
  destruct (decide (P (f x))); simpl; by rewrite IH.
Qed.

(** The players still in the hand, counted seat by seat. *)
Lemma count_active_seats (ps : list Player.t) :
  length (filter (λ seat, active_at ps seat = true) (seq 0 (length ps)))
  = count_active ps.
Proof.
  unfold count_active. induction ps as [|p ps IH]; [done|].
  cbn [length seq]. rewrite <- fmap_S_seq.
  rewrite (filter_cons _ p ps), (filter_cons _ 0%nat).
  change (active_at (p :: ps) 0) with (Player.is_active p).
  destruct (decide (Player.is_active p = true)); cbn [length];
    rewrite length_filter_fmap, <- IH; reflexivity.
Qed.

Lemma active_at_flags (ps ps' : list Player.t) seat :
  Player.is_active <$> ps' = Player.is_active <$> ps →
  active_at ps' seat = active_at ps seat.
Proof.
  intros Hflags. unfold active_at.
  by rewrite <- !list_lookup_fmap, Hflags.
Qed.

Lemma length_flags (ps ps' : list Player.t) :
  Player.is_active <$> ps' = Player.is_active <$> ps →
  length ps' = length ps.
Proof.
  intros Hflags. by rewrite <- (length_fmap Player.is_active ps'), Hflags,
    length_fmap.
Qed.

Lemma to_act_flags (ps ps' : list Player.t) idx target :
  Player.is_active <$> ps' = Player.is_active <$> ps →
  to_act ps' idx target = to_act ps idx target.
Proof.
  intros Hflags. unfold to_act. rewrite (length_flags _ _ Hflags).
  f_equal. apply list_filter_iff. intros seat.
  by rewrite (active_at_flags _ _ _ Hflags).
Qed.

Lemma count_active_flags (ps ps' : list Player.t) :
  Player.is_active <$> ps' = Player.is_active <$> ps →
  count_active ps' = count_active ps.
Proof.
  intros Hflags. rewrite <- !count_active_seats, (length_flags _ _ Hflags).
  f_equal. apply list_filter_iff. intros seat.
  by rewrite (active_at_flags _ _ _ Hflags).
Qed.

Lemma active_at_lookup (ps : list Player.t) seat p :
  ps !! seat = Some p → active_at ps seat = Player.is_active p.
Proof. intros Hp. unfold active_at. by rewrite Hp. Qed.

(** A player yet to act is counted; a folded one is passed over. *)
Lemma to_act_next (ps : list Player.t) idx target :
  (idx < length ps)%nat → (target < length ps)%nat → idx ≠ target →
  to_act ps idx target
  = ((if active_at ps idx then 1 else 0)
     + to_act ps ((idx + 1) mod length ps) target)%nat.
Proof.
  intros Hidx Htarget Hne. unfold to_act.
  rewrite (gap_next _ idx target), seats_from_S, filter_cons by done.
  destruct (active_at ps idx); case_decide; try done; simpl; lia.
Qed.

Lemma to_act_done (ps : list Player.t) idx :
  (idx < length ps)%nat → to_act ps idx idx = 0%nat.
Proof.
  intros Hidx. unfold to_act.
  by rewrite (proj2 (gap_0 _ idx idx Hidx Hidx) eq_refl).
Qed.

(** After an active player has acted, everybody else is still to act. *)
Lemma to_act_after (ps : list Player.t) idx :
  (idx < length ps)%nat → active_at ps idx = true →
  S (to_act ps ((idx + 1) mod length ps) idx) = count_active ps.
Proof.
  intros Hidx Hactive. unfold to_act. rewrite gap_after by done.
  rewrite <- count_active_seats.
  rewrite <- (seats_from_round (length ps) idx Hidx).
  assert (Hround : seats_from (length ps) idx (length ps)
                   = idx :: seats_from (length ps) ((idx + 1) mod length ps)
                              (length ps - 1)).
  { rewrite <- seats_from_S by done. f_equal. lia. }
  rewrite Hround, filter_cons. by rewrite decide_True.
Qed.

End Counting.

(** ** The length of a street *)

Section StreetLength.
Import Game.

Lemma raises_left_mono (raise_turns : list nat) t :
  (raises_left raise_turns (S t) ≤ raises_left raise_turns t)%nat.
Proof.
  unfold raises_left. induction raise_turns as [|x l IH]; [done|].
  rewrite !filter_cons. repeat case_decide; simpl; lia.
Qed.

Lemma raises_left_hit (raise_turns : list nat) t :
  t ∈ raise_turns →
  (raises_left raise_turns (S t) < raises_left raise_turns t)%nat.
Proof.
  unfold raises_left. induction raise_turns as [|x l IH]; intros Hin.
  - by apply elem_of_nil in Hin.
  - pose proof (raises_left_mono l t) as Hmono. unfold raises_left in Hmono.
    rewrite !filter_cons. apply elem_of_cons in Hin as [->|Hin].
    + rewrite decide_False by lia. rewrite decide_True by lia. simpl. lia.
    + specialize (IH Hin). repeat case_decide; simpl; lia.
Qed.

Lemma raises_left_0 (raise_turns : list nat) :
  raises_left raise_turns 0 = length raise_turns.
Proof.
  unfold raises_left. induction raise_turns as [|x l IH]; [done|].
  rewrite filter_cons, decide_True by lia. simpl. by rewrite IH.
Qed.

(** An action other than a fold keeps everybody in the hand; a raise
    makes the raiser the one the action has to come back to. *)
Lemma process_action_keeps (a : Action) (g : Game.t) (idx : nat)
    (last_raiser : option nat) (amount_to_call : Z) (p : Player.t) :
  players g !! idx = Some p → a ≠ Fold →
  ∃ g',
    process_action a g idx last_raiser amount_to_call
    = Some (KeepBetting g'
              (match a with Raise _ => Some idx | _ => last_raiser end))
    ∧ Player.is_active <$> players g' = Player.is_active <$> players g.
Proof.
  intros Hp Ha.
  assert (Hflags : ∀ amount,
    Player.is_active <$> <[idx := (Player.place_bet amount p).2]> (players g)
    = Player.is_active <$> players g).
  { intros amount. rewrite list_fmap_insert. apply list_insert_id.
    by rewrite list_lookup_fmap, Hp. }
  destruct a as [| | |amount]; [done| | |].
  - by exists g.
  - unfold process_action, bet_at. rewrite Hp. cbn [mbind option_bind].
    specialize (Hflags amount_to_call).
    destruct (Player.place_bet amount_to_call p) as [paid p'].
    cbn [mbind option_bind]. eexists. split; [done|]. exact Hflags.
  - unfold process_action, bet_at. rewrite Hp. cbn [mbind option_bind].
    specialize (Hflags (amount_to_call + amount)).
    destruct (Player.place_bet (amount_to_call + amount) p) as [paid p'].
    cbn [mbind option_bind].
    rewrite list_lookup_insert_eq by by eapply lookup_lt_Some.
    cbn [mbind option_bind]. eexists. split; [done|]. exact Hflags.
Qed.

Variable decide : nat → Game.t → nat → Z → option Action.
Variable raise_turns : list nat.
Hypothesis raise_only_then : ∀ t g seat amount_to_call x,
  decide t g seat amount_to_call = Some (Raise x) → t ∈ raise_turns.

(** Once somebody is marked as the one the action has to come back to,
    the street ends; it takes the players still to act, and a further
    round of the others for every raise still to come. *)
Lemma street_closes (fuel : nat) : ∀ (g : Game.t) (idx target turns : nat),
  let ps := players g in
  let n := count_active ps in
  let bound :=
    (turns + to_act ps idx target + raises_left raise_turns turns * (n - 1))%nat in
  (2 ≤ n)%nat →
  (idx < length ps)%nat → (target < length ps)%nat →
  active_at ps target = true →
  (gap (length ps) idx target + raises_left raise_turns turns * length ps
   < fuel)%nat →
  (∀ t g' seat amount_to_call, (turns ≤ t < bound)%nat →
     ∃ a, decide t g' seat amount_to_call = Some a ∧ a ≠ Fold) →
  ∃ g' T, betting_loop decide fuel g idx (Some target) turns
          = Returned true g' T
          ∧ (T ≤ bound)%nat.
Proof.
  induction fuel as [|fuel IH]; intros g idx target turns ps n bound
    Hn Hidx Htarget Hactive Hfuel Hdecide; [lia|].
  destruct (lookup_lt_is_Some_2 ps idx Hidx) as [p Hp].
  pose proof (active_at_lookup ps idx p Hp) as Hflag.
  pose proof (raises_left_mono raise_turns turns) as Hmono.
  assert (Hmono_m : (raises_left raise_turns (S turns) * length ps
                     ≤ raises_left raise_turns turns * length ps)%nat)
    by by apply Nat.mul_le_mono_r.
  assert (Hmono_n : (raises_left raise_turns (S turns) * (n - 1)
                     ≤ raises_left raise_turns turns * (n - 1))%nat)
    by by apply Nat.mul_le_mono_r.
  pose proof (next_seat_lt idx (length ps) Hidx) as Hnext.
  cbn [betting_loop]. fold ps. rewrite Hp.
  destruct (Player.is_active p) eqn:Hp_active; cbn [negb].
  - case_bool_decide as Hlast.
    + (* the action is back where it has to be *)
      eexists _, turns. split; [done|]. unfold bound. nia.
    + assert (Hne : idx ≠ target) by congruence.
      pose proof (to_act_next ps idx target Hidx Htarget Hne) as Hto_act.
      rewrite Hflag in Hto_act.
      pose proof (gap_next (length ps) idx target Hidx Htarget Hne) as Hgap.
      destruct (Hdecide turns (set_current_player_idx idx g) idx
                  (current_bet (set_current_player_idx idx g)
                   - Player.current_bet p))
        as (a & Ha & Hnofold); [unfold bound; nia|].
      rewrite Ha. change (default idx (Some target)) with target.
      destruct (process_action_keeps a (set_current_player_idx idx g) idx
                  (Some target)
                  (current_bet (set_current_player_idx idx g)
                   - Player.current_bet p) p Hp Hnofold)
        as (g' & -> & Hflags).
      change (players (set_current_player_idx idx g)) with ps in Hflags.
      pose proof (length_flags _ _ Hflags) as Hlen.
      pose proof (count_active_flags _ _ Hflags) as Hcount.
      assert (Hcases :
        (∃ x, a = Raise x)
        ∨ match a with Raise _ => Some idx | _ => Some target end
          = Some target).
      { destruct a; [done|by right|by right|left; by eexists]. }
      destruct Hcases as [[x ->]|Hkeep].
      * (* a raise: everybody else is to act again *)
        pose proof (raises_left_hit raise_turns turns
                      (raise_only_then _ _ _ _ _ Ha)) as Hhit.
        assert (Hhit_m : (raises_left raise_turns (S turns) * length ps
                          + length ps
                          ≤ raises_left raise_turns turns * length ps)%nat).
        { transitivity (S (raises_left raise_turns (S turns)) * length ps)%nat;
            [lia|]. by apply Nat.mul_le_mono_r. }
        assert (Hhit_n : (raises_left raise_turns (S turns) * (n - 1)
                          + (n - 1)
                          ≤ raises_left raise_turns turns * (n - 1))%nat).
        { transitivity (S (raises_left raise_turns (S turns)) * (n - 1))%nat;
            [lia|]. by apply Nat.mul_le_mono_r. }
        pose proof (to_act_after ps idx Hidx) as Hafter.
        rewrite Hflag in Hafter. specialize (Hafter eq_refl). fold n in Hafter.
        destruct (IH g' ((idx + 1) mod length ps)%nat idx (S turns))
          as (g'' & T & Hloop & HT).
        -- by rewrite Hcount.
        -- by rewrite Hlen.
        -- by rewrite Hlen.
        -- by rewrite (active_at_flags _ _ _ Hflags), Hflag.
        -- rewrite Hlen, gap_after by done. lia.
        -- intros t g0 seat amt Ht. apply Hdecide.
           rewrite ?Hcount, ?(to_act_flags _ _ _ _ Hflags), ?Hlen in Ht.
           fold n in Ht. unfold bound. nia.
        -- exists g'', T. split; [done|].
           rewrite ?Hcount, ?(to_act_flags _ _ _ _ Hflags), ?Hlen in HT.
           fold n in HT. unfold bound. nia.
      * (* a check or a call: one player fewer to act *)
        rewrite Hkeep.
        destruct (IH g' ((idx + 1) mod length ps)%nat target (S turns))
          as (g'' & T & Hloop & HT).
        -- by rewrite Hcount.
        -- by rewrite Hlen.
        -- by rewrite Hlen.
        -- by rewrite (active_at_flags _ _ _ Hflags).
        -- rewrite Hlen. lia.
        -- intros t g0 seat amt Ht. apply Hdecide.
           rewrite ?Hcount, ?(to_act_flags _ _ _ _ Hflags), ?Hlen in Ht.
           fold n in Ht. unfold bound. nia.
        -- exists g'', T. split; [done|].
           rewrite ?Hcount, ?(to_act_flags _ _ _ _ Hflags), ?Hlen in HT.
           fold n in HT. unfold bound. nia.
  - (* a folded player is passed over *)
    assert (Hne : idx ≠ target).
    { intros ->. rewrite Hflag in Hactive. congruence. }
    pose proof (to_act_next ps idx target Hidx Htarget Hne) as Hto_act.
    rewrite Hflag in Hto_act.
    pose proof (gap_next (length ps) idx target Hidx Htarget Hne) as Hgap.
    destruct (IH g ((idx + 1) mod length ps)%nat target turns)
      as (g'' & T & Hloop & HT); try done.
    + fold ps. lia.
    + intros t g0 seat amt Ht. apply Hdecide. fold ps n in Ht.
      unfold bound. nia.
    + exists g'', T. split; [done|]. fold ps n in HT. unfold bound. nia.
Qed.

Lemma gap_reach (m idx target : nat) :
  (idx < m → target < m → (idx + gap m idx target) mod m = target)%nat.
Proof.
  intros Hidx Htarget. rewrite gap_wrap by done.
  destruct (Nat.leb_spec idx target).
  - replace (idx + (target - idx))%nat with target by lia.
    by apply Nat.mod_small.
  - replace (idx + (target + m - idx))%nat with (target + 1 * m)%nat by lia.
    rewrite Nat.Div0.mod_add. by apply Nat.mod_small.
Qed.

Lemma active_seat_exists (ps : list Player.t) :
  (1 ≤ count_active ps)%nat →
  ∃ seat, (seat < length ps)%nat ∧ active_at ps seat = true.
Proof.
  rewrite <- count_active_seats. intros Hcount.
  destruct (filter _ (seq 0 (length ps))) as [|seat l] eqn:Hfilter;
    [simpl in Hcount; lia|].
  assert (Hin : seat ∈ filter (λ seat, active_at ps seat = true)
                         (seq 0 (length ps))) by (rewrite Hfilter; by left).
  apply list_elem_of_filter in Hin as [Hactive Hin].
  apply elem_of_seq in Hin. exists seat. split; [lia|done].
Qed.

(** The street opens with the first player still in the hand at or after
    the starting seat; whatever that player does short of folding, the
    action has to come back to that seat. *)
Lemma street_opens (k : nat) : ∀ (fuel : nat) (g : Game.t) (idx : nat),
  let ps := players g in
  (idx < length ps)%nat →
  active_at ps ((idx + k) mod length ps) = true →
  (k < fuel)%nat →
  (∀ g' seat amount_to_call,
     ∃ a, decide 0 g' seat amount_to_call = Some a ∧ a ≠ Fold) →
  ∃ g' first j,
    (j ≤ k)%nat ∧ (first < length ps)%nat ∧ active_at ps first = true
    ∧ Player.is_active <$> players g' = Player.is_active <$> ps
    ∧ betting_loop decide fuel g idx None 0
      = betting_loop decide (fuel - S j) g' ((first + 1) mod length ps)
          (Some first) 1.
Proof.
  induction k as [|k IH]; intros fuel g idx ps Hidx Hactive Hfuel Hdecide;
    (destruct fuel as [|fuel]; [lia|]);
    destruct (lookup_lt_is_Some_2 ps idx Hidx) as [p Hp];
    pose proof (active_at_lookup ps idx p Hp) as Hflag;
    cbn [betting_loop]; fold ps; rewrite Hp.
  - rewrite Nat.add_0_r, Nat.mod_small in Hactive by done.
    rewrite <- Hflag, Hactive. cbn [negb].
    rewrite bool_decide_eq_false_2 by done.
    destruct (Hdecide (set_current_player_idx idx g) idx
                (current_bet (set_current_player_idx idx g)
                 - Player.current_bet p)) as (a & -> & Hnofold).
    destruct (process_action_keeps a (set_current_player_idx idx g) idx
                (Some (default idx None))
                (current_bet (set_current_player_idx idx g)
                 - Player.current_bet p) p Hp Hnofold)
      as (g' & -> & Hflags).
    exists g', idx, 0%nat. split_and!; try done.
    replace (S fuel - 1)%nat with fuel by lia. by destruct a.
  - destruct (Player.is_active p) eqn:Hp_active; cbn [negb].
    + rewrite bool_decide_eq_false_2 by done.
      destruct (Hdecide (set_current_player_idx idx g) idx
                  (current_bet (set_current_player_idx idx g)
                   - Player.current_bet p)) as (a & -> & Hnofold).
      destruct (process_action_keeps a (set_current_player_idx idx g) idx
                  (Some (default idx None))
                  (current_bet (set_current_player_idx idx g)
                   - Player.current_bet p) p Hp Hnofold)
        as (g' & -> & Hflags).
      exists g', idx, 0%nat. split_and!; try done; [lia|].
      replace (S fuel - 1)%nat with fuel by lia. by destruct a.
    + destruct (IH fuel g ((idx + 1) mod length ps)%nat)
        as (g' & first & j & Hj & Hfirst & Hfirst_active & Hflags & Hloop).
      * by apply next_seat_lt.
      * fold ps. rewrite Nat.Div0.add_mod_idemp_l.
        by replace (idx + 1 + k)%nat with (idx + S k)%nat by lia.
      * lia.
      * done.
      * exists g', first, (S j). split_and!; try done; lia.
Qed.

(** C7 (as the program has it). With two or more players in the hand and
    nobody folding, a street in which a raise can come at the turns
    [raise_turns] only ends by returning to the last to raise, after no
    more turns than there are players in the hand, plus a round of the
    others for every raise; with one raise at most that is within twice
    the number of players in the hand. *)
Theorem street_ends_within (g : Game.t) :
  let n := count_active (players g) in
  let bound := (n + length raise_turns * (n - 1))%nat in
  (2 ≤ n)%nat →
  (current_player_idx g < length (players g))%nat →
  (∀ t g' seat amount_to_call, (t < bound)%nat →
     ∃ a, decide t g' seat amount_to_call = Some a ∧ a ≠ Fold) →
  ∃ fuel g' turns,
    betting_round decide fuel g = Returned true g' turns
    ∧ (turns ≤ bound)%nat
    ∧ (length raise_turns ≤ 1 → turns ≤ n * 2)%nat.
Proof.
  intros n bound Hn Hidx Hdecide.
  set (ps := players g) in *. set (m := length ps) in *.
  destruct (active_seat_exists ps) as (seat & Hseat & Hseat_active);
    [fold n; lia|].
  pose proof (gap_reach m (current_player_idx g) seat Hidx Hseat) as Hreach.
  assert (Hgap : (gap m (current_player_idx g) seat < m)%nat)
    by (apply Nat.mod_upper_bound; unfold m; lia).
  set (fuel := (2 * m + length raise_turns * m + 1)%nat).
  destruct (street_opens (gap m (current_player_idx g) seat) fuel g
              (current_player_idx g))
    as (g1 & first & j & Hj & Hfirst & Hfirst_active & Hflags & Hopen).
  { done. }
  { fold ps m. by rewrite Hreach. }
  { unfold fuel. lia. }
  { intros g' s amt. apply Hdecide. unfold bound. nia. }
  fold ps m in Hfirst, Hfirst_active, Hflags, Hopen.
  pose proof (length_flags _ _ Hflags) as Hlen.
  pose proof (count_active_flags _ _ Hflags) as Hcount.
  pose proof (to_act_after ps first Hfirst Hfirst_active) as Hafter.
  fold n m in Hafter.
  pose proof (raises_left_mono raise_turns 0) as Hmono.
  rewrite raises_left_0 in Hmono.
  assert (Hmono_m : (raises_left raise_turns 1 * m
                     ≤ length raise_turns * m)%nat)
    by by apply Nat.mul_le_mono_r.
  assert (Hmono_n : (raises_left raise_turns 1 * (n - 1)
                     ≤ length raise_turns * (n - 1))%nat)
    by by apply Nat.mul_le_mono_r.
  destruct (street_closes (fuel - S j) g1 ((first + 1) mod m)%nat first 1)
    as (g' & T & Hclose & HT).
  { by rewrite Hcount. }
  { rewrite Hlen. by apply next_seat_lt. }
  { by rewrite Hlen. }
  { by rewrite (active_at_flags _ _ _ Hflags). }
  { rewrite Hlen. fold m. rewrite gap_after by done. unfold fuel. lia. }
  { intros t g0 s amt Ht. apply Hdecide.
    rewrite Hcount, (to_act_flags _ _ _ _ Hflags) in Ht.
    fold ps n m in Ht. unfold bound. nia. }
  rewrite Hcount, (to_act_flags _ _ _ _ Hflags) in HT. fold ps n m in HT.
  exists fuel, g', T. split_and!.
  - unfold betting_round. fold ps n.
    destruct (Nat.leb_spec n 1) as [|_]; [lia|].
    by rewrite Hopen, Hclose.
  - unfold bound. nia.
  - intros Hone. destruct raise_turns as [|t0 [|]]; simpl in *; lia.
Qed.

End StreetLength.

(** ** Streets played out *)

Section StreetExamples.
Import Game.

Lemma street_ends_within_witness :
  let g :=
    Game.mk [Player.mk 1000 [] true true 0; Player.mk 1000 [] true true 0]
            [] [] 0 0 0 0 5 10 in
  ∃ fuel g' turns,
    betting_round (scripted [Check; Raise 10; Call]) fuel g
    = Returned true g' turns
    ∧ (turns ≤ 2 + 1 * (2 - 1))%nat
    ∧ (1 ≤ 1 → turns ≤ 2 * 2)%nat.
Proof.
  apply (street_ends_within (scripted [Check; Raise 10; Call]) [1%nat]).
  - intros [|[|[|t]]] g seat amount_to_call x; simpl; intros Hx;
      try discriminate. by left.
  - vm_compute. lia.
  - vm_compute. lia.
  - intros t g' seat amount_to_call Ht.
    assert (Hlt : (t < 3)%nat) by (vm_compute in Ht; lia).
    destruct t as [|[|[|t]]]; [| | |lia]; by eexists.
Defined.

(** Two players who keep raising each other by one chip: every decision
    passes the test of [human_decision], nobody folds, and the street
    takes six turns, more than twice the two players in the hand. *)
Lemma raises_prolong_street :
  let g :=
    Game.mk [Player.mk 1000 [] true true 0; Player.mk 1000 [] true true 0]
            [] [] 0 0 0 0 5 10 in
  ∃ g',
    betting_round
      (scripted_checked [Raise 1; Raise 1; Raise 1; Raise 1; Raise 1; Call])
      20 g
    = Returned true g' 6
    ∧ count_active (players g) = 2%nat
    ∧ ¬ (6 ≤ count_active (players g) * 2)%nat.
Proof.
  eexists. split; [vm_compute; reflexivity|]. vm_compute. split; [done|lia].
Qed.

End StreetExamples.

Section OpenerFolds.
Import Game.

(** The first to act folds and the two others check for ever after: the
    seat the action has to come back to is out of the hand and is passed
    over, so the street does not end, however long it is run. *)
Lemma opener_fold_street_never_ends (fuel : nat) :
  let g :=
    Game.mk [Player.mk 1000 [] true true 0; Player.mk 995 [] true true 5;
             Player.mk 990 [] true true 10]
            [] [] 15 10 0 0 5 10 in
  let decide := λ (turn : nat) (_ : Game.t) (_ : nat) (_ : Z),
    Some (match turn with
          | O => Fold
          | 1%nat => Call
          | _ => Check
          end) in
  betting_round decide fuel g = OutOfFuel.
Proof.
  intros g decide. subst g decide.
  set (source := λ (turn : nat) (_ : Game.t) (_ : nat) (_ : Z),
    Some (match turn with
          | O => Fold
          | 1%nat => Call
          | _ => Check
          end)).
  set (ps := [Player.mk 1000 [] false true 0; Player.mk 990 [] true true 10;
              Player.mk 990 [] true true 10]).
  assert (Hloop : ∀ fuel idx cpi turns,
    (idx < 3)%nat → (2 ≤ turns)%nat →
    betting_loop source fuel (Game.mk ps [] [] 20 10 0 cpi 5 10) idx (Some 0%nat)
                 turns = OutOfFuel).
  { clear fuel. induction fuel as [|fuel IH]; intros idx cpi turns Hidx Hturns;
      [done|].
    destruct turns as [|[|turns]]; [lia|lia|].
    destruct idx as [|[|[|idx]]]; [| | |lia]; cbn; apply IH; lia. }
  destruct fuel as [|[|[|fuel]]]; [done|done|done|].
  change (betting_loop source fuel (Game.mk ps [] [] 20 10 0 2 5 10) 0
            (Some 0%nat) 3 = OutOfFuel).
  apply Hloop; lia.
Qed.

End OpenerFolds.

(** * Further properties *)

(** ** Dealing *)

Section Dealing.
Import Deck.

(** X1. A deal of [count] cards, one or more, from a deck that holds
    them hands out the top [count] cards (a single card as such, two or
    more as a list) and keeps the rest: what was dealt followed by what is
    left is the deck as it was. *)
Theorem deal_splits_deck (count : nat) (cards : list Card) :
  (1 ≤ count ≤ length cards)%nat →
  ∃ dealt rest,
    deal count cards
    = Some (match dealt with [c] => DealtCard c | _ => DealtList dealt end, rest)
    ∧ dealt ++ rest = cards
    ∧ length dealt = count.
Proof.
  intros [Hpos Hle]. exists (take count cards), (drop count cards).
  assert (Hlen : length (take count cards) = count)
    by (rewrite length_take; lia).
  split_and!; [|apply take_drop|done].
  unfold deal. destruct (Nat.ltb_spec (length cards) count) as [|_]; [lia|].
  destruct (Nat.ltb_spec 1 count) as [Hmany|Hone].
  - destruct (take count cards) as [|c [|c' dealt]]; simpl in Hlen; try lia.
    done.
  - destruct (take count cards) as [|c [|c' dealt]]; simpl in Hlen; try lia.
    done.
Qed.

Lemma deal_splits_deck_witness :
  ∃ dealt rest,
    deal 3 [mkCard RA Spades; mkCard RK Hearts; mkCard R2 Clubs; mkCard R7 Clubs]
    = Some (match dealt with [c] => DealtCard c | _ => DealtList dealt end, rest)
    ∧ dealt ++ rest
      = [mkCard RA Spades; mkCard RK Hearts; mkCard R2 Clubs; mkCard R7 Clubs]
    ∧ length dealt = 3%nat.
Proof. apply deal_splits_deck. simpl. lia. Defined.

(** X2. A new deck holds each of the 52 cards once, whatever order the
    shuffle leaves them in. *)
Theorem new_deck_holds_every_card_once (shuffle : list Card → list Card) :
  (∀ cards, shuffle cards ≡ₚ cards) →
  length (new shuffle) = 52%nat
  ∧ NoDup (new shuffle)
  ∧ ∀ c, c ∈ new shuffle.
Proof.
  intros Hshuffle. unfold new.
  assert (Hnd : NoDup all_cards) by compute_done.
  assert (Hall : ∀ c, c ∈ all_cards).
  { intros [r s]. destruct r, s; compute_done. }
  split_and!.
  - by rewrite Hshuffle.
  - by rewrite Hshuffle.
  - intros c. by rewrite Hshuffle.
Qed.

Lemma new_deck_holds_every_card_once_witness :
  length (new reverse) = 52%nat
  ∧ NoDup (new reverse)
  ∧ ∀ c, c ∈ new reverse.
Proof.
  apply new_deck_holds_every_card_once. intros cards. apply reverse_Permutation.
Defined.

End Dealing.

(** ** Chips on the table *)

Section Chips.
Import Game.

Lemma total_chips_cons p ps :
  total_chips (p :: ps) = Player.chips p + total_chips ps.
Proof. done. Qed.

Lemma total_chips_app ps qs :
  total_chips (ps ++ qs) = total_chips ps + total_chips qs.
Proof.
  induction ps as [|p ps IH]; [done|].
  change ((p :: ps) ++ qs) with (p :: (ps ++ qs)).
  rewrite !total_chips_cons, IH. lia.
Qed.

Lemma total_chips_insert (ps : list Player.t) (i : nat) (p p' : Player.t) :
  ps !! i = Some p →
  total_chips (<[i := p']> ps) = total_chips ps - Player.chips p + Player.chips p'.
Proof.
  revert i. induction ps as [|q ps IH]; intros [|i] Hp; try done.
  - injection Hp as ->. change (<[0%nat := p']> (p :: ps)) with (p' :: ps).
    rewrite !total_chips_cons. lia.
  - change (<[S i := p']> (q :: ps)) with (q :: <[i := p']> ps).
    rewrite !total_chips_cons, (IH i Hp). lia.
Qed.

Lemma total_chips_alter_same (f : Player.t → Player.t) (ps : list Player.t) i :
  (∀ p, Player.chips (f p) = Player.chips p) →
  total_chips (alter f i ps) = total_chips ps.
Proof.
  intros Hf. revert i. induction ps as [|q ps IH]; intros [|i]; try done.
  - change (alter f 0%nat (q :: ps)) with (f q :: ps).
    by rewrite !total_chips_cons, Hf.
  - change (alter f (S i) (q :: ps)) with (q :: alter f i ps).
    by rewrite !total_chips_cons, IH.
Qed.

(** A bet moves chips from the stack to the one who collects it. *)
Lemma bet_at_total seat amount (ps ps' : list Player.t) paid :
  bet_at seat amount ps = Some (paid, ps') →
  total_chips ps' + paid = total_chips ps ∧ length ps' = length ps.
Proof.
  unfold bet_at. destruct (ps !! seat) as [p|] eqn:Hp; [|done].
  cbn [mbind option_bind]. unfold Player.place_bet.
  intros [= <- <-]. rewrite (total_chips_insert ps seat p _ Hp), length_insert.
  cbn [Player.chips]. lia.
Qed.

Lemma process_action_total_chips a g idx last_raiser amount_to_call next :
  process_action a g idx last_raiser amount_to_call = Some next →
  total_chips (players (game_of next)) + pot (game_of next)
  = total_chips (players g) + pot g.
Proof.
  destruct a as [| | |amount]; cbn [process_action].
  - destruct (_ =? 1)%nat; intros [= <-]; cbn [game_of players set_players pot];
      by rewrite total_chips_alter_same.
  - intros [= <-]. done.
  - destruct (bet_at idx amount_to_call (players g)) as [[bet ps]|] eqn:Hbet;
      [|done].
    apply bet_at_total in Hbet as [Hbet _]. cbn [mbind option_bind].
    intros [= <-]. cbn [game_of players set_players set_pot pot]. lia.
  - destruct (bet_at idx (amount_to_call + amount) (players g))
      as [[bet ps]|] eqn:Hbet; [|done].
    apply bet_at_total in Hbet as [Hbet _]. cbn [mbind option_bind].
    destruct (ps !! idx); [|done]. cbn [mbind option_bind].
    intros [= <-].
    cbn [game_of players set_players set_pot set_current_bet pot]. lia.
Qed.

(** What every pass through the loop keeps, the street keeps. *)
Lemma betting_loop_keeps (Inv : Game.t → Prop)
    (decide : nat → Game.t → nat → Z → option Action) :
  (∀ g i, Inv g → Inv (set_current_player_idx i g)) →
  (∀ a g idx last_raiser amount_to_call next,
     Inv g → process_action a g idx last_raiser amount_to_call = Some next →
     Inv (game_of next)) →
  ∀ fuel g idx last_raiser turns result g' turns',
    Inv g →
    betting_loop decide fuel g idx last_raiser turns = Returned result g' turns' →
    Inv g'.
Proof.
  intros Hset Hact. induction fuel as [|fuel IH];
    intros g idx last_raiser turns result g' turns' Hinv; [done|].
  cbn [betting_loop]. destruct (players g !! idx) as [p|]; [|done].
  destruct (negb (Player.is_active p)); [by apply IH|].
  case_bool_decide.
  { intros [= <- <- <-]. by apply Hset. }
  destruct (decide _ _ _ _) as [a|]; [|done].
  destruct (process_action _ _ _ _ _) as [[g1 lr1|g1]|] eqn:Hnext; [| |done].
  - apply IH. apply (Hact _ _ _ _ _ _ (Hset _ idx Hinv) Hnext).
  - intros [= <- <- <-]. apply (Hact _ _ _ _ _ _ (Hset _ idx Hinv) Hnext).
Qed.

Lemma betting_round_keeps (Inv : Game.t → Prop)
    (decide : nat → Game.t → nat → Z → option Action) :
  (∀ g i, Inv g → Inv (set_current_player_idx i g)) →
  (∀ a g idx last_raiser amount_to_call next,
     Inv g → process_action a g idx last_raiser amount_to_call = Some next →
     Inv (game_of next)) →
  ∀ fuel g result g' turns,
    Inv g → betting_round decide fuel g = Returned result g' turns → Inv g'.
Proof.
  intros Hset Hact fuel g result g' turns Hinv. unfold betting_round.
  destruct (_ <=? 1)%nat; [by intros [= <- <- <-]|].
  by apply betting_loop_keeps.
Qed.

Lemma betting_round_total_chips decide fuel g result g' turns :
  betting_round decide fuel g = Returned result g' turns →
  total_chips (players g') + pot g' = total_chips (players g) + pot g.
Proof.
  apply (betting_round_keeps
           (λ h, total_chips (players h) + pot h = total_chips (players g) + pot g));
    [done| |done].
  intros a h idx lr amt next Hh Hnext.
  by rewrite (process_action_total_chips _ _ _ _ _ _ Hnext).
Qed.

End Chips.

(** ** Who is left when a street returns *)

Section Remaining.
Import Game.

Lemma count_active_cons p ps :
  count_active (p :: ps)
  = ((if Player.is_active p then 1 else 0) + count_active ps)%nat.
Proof.
  unfold count_active. rewrite filter_cons.
  destruct (Player.is_active p); by case_decide.
Qed.

Lemma count_active_fold (ps : list Player.t) (i : nat) (p : Player.t) :
  ps !! i = Some p → Player.is_active p = true →
  S (count_active (alter Player.fold i ps)) = count_active ps.
Proof.
  revert i. induction ps as [|q ps IH]; intros [|i] Hp Hactive; try done.
  - injection Hp as ->.
    change (alter Player.fold 0%nat (p :: ps)) with (Player.fold p :: ps).
    rewrite !count_active_cons, Hactive. done.
  - change (alter Player.fold (S i) (q :: ps))
      with (q :: alter Player.fold i ps).
    rewrite !count_active_cons, <- (IH i Hp Hactive). lia.
Qed.

Lemma betting_loop_remaining decide fuel : ∀ g idx last_raiser turns result g' turns',
  (2 ≤ count_active (players g))%nat →
  betting_loop decide fuel g idx last_raiser turns = Returned result g' turns' →
  if result then (2 ≤ count_active (players g'))%nat
  else count_active (players g') = 1%nat.
Proof.
  induction fuel as [|fuel IH];
    intros g idx last_raiser turns result g' turns' Hcount; [done|].
  cbn [betting_loop]. destruct (players g !! idx) as [p|] eqn:Hp; [|done].
  destruct (Player.is_active p) eqn:Hactive; cbn [negb]; [|by apply IH].
  case_bool_decide.
  { by intros [= <- <- <-]. }
  destruct (decide _ _ _ _) as [a|]; [|done].
  destruct (decide_rel (=) a Fold) as [->|Hnofold].
  - cbn [process_action]. cbn [players set_players set_current_player_idx].
    pose proof (count_active_fold _ _ _ Hp Hactive) as Hfold.
    destruct (Nat.eqb_spec (count_active (alter Player.fold idx (players g))) 1)
      as [Hone|Hmore].
    + by intros [= <- <- <-].
    + apply IH. cbn [players set_players set_current_player_idx]. lia.
  - destruct (process_action_keeps a (set_current_player_idx idx g) idx
                (Some (default idx last_raiser))
                (current_bet (set_current_player_idx idx g) - Player.current_bet p)
                p Hp Hnofold) as (g1 & -> & Hflags).
    apply IH. by rewrite (count_active_flags _ _ Hflags).
Qed.

End Remaining.

(** ** Settlement, whoever is left *)

Section SettlementAll.
Import Hand Game.

Lemma length_active_seats (ps : list Player.t) :
  length (active_seats ps) = count_active ps.
Proof.
  rewrite <- count_active_seats. unfold active_seats. f_equal.
  apply list_filter_iff. intros seat. unfold active_at.
  destruct (ps !! seat) as [p|]; simpl; [|done].
  split; [by intros [= ->]|by intros ->].
Qed.


Lemma showdown_nobody g : showdown_winners g [] = None.
Proof. done. Qed.

(** Settlement hands out the pot, neither more nor less. *)
Lemma determine_winners_total_chips g g' :
  determine_winners g = Some g' →
  total_chips (players g') = total_chips (players g) + pot g
  ∧ pot g' = pot g.
Proof.
  unfold determine_winners.
  pose proof (active_seats_seated (players g)) as Hseated.
  pose proof (NoDup_active_seats (players g)) as Hnd.
  destruct (active_seats (players g)) as [|w [|w' rest]] eqn:Hactive.
  - by rewrite showdown_nobody.
  - intros [= <-]. cbn [players set_players pot]. split; [|done].
    apply total_chips_alter. by apply Forall_cons in Hseated as [? _].
  - destruct (showdown_winners_spec g (w :: w' :: rest))
      as (winners & -> & Hne & Hnd' & Hseated'); [done|done|done|].
    cbn [mbind option_bind].
    destruct (split_pot_spec (pot g) winners (players g) Hne Hnd' Hseated')
      as (ps' & -> & _ & Htotal).
    cbn [mbind option_bind]. by intros [= <-].
Qed.

Lemma determine_winners_returns g :
  (1 ≤ count_active (players g))%nat → is_Some (determine_winners g).
Proof.
  rewrite <- length_active_seats. intros Hcount. unfold determine_winners.
  pose proof (active_seats_seated (players g)) as Hseated.
  pose proof (NoDup_active_seats (players g)) as Hnd.
  destruct (active_seats (players g)) as [|w [|w' rest]] eqn:Hactive.
  - simpl in Hcount. lia.
  - done.
  - destruct (showdown_winners_spec g (w :: w' :: rest))
      as (winners & -> & Hne & Hnd' & Hseated'); [done|done|done|].
    cbn [mbind option_bind].
    destruct (split_pot_spec (pot g) winners (players g) Hne Hnd' Hseated')
      as (ps' & -> & _ & Htotal).
    done.
Qed.

End SettlementAll.

(** ** The chips at the start of a round *)

Section RoundStartChips.
Import Game.

Lemma total_chips_solvent (ps : list Player.t) :
  Forall (λ p, 0 ≤ Player.chips p) ps →
  total_chips (filter (λ p, 0 < Player.chips p) (map Player.clear_hand ps))
  = total_chips ps.
Proof.
  induction 1 as [|p ps Hp Hall IH]; [done|].
  cbn [map]. rewrite filter_cons, total_chips_cons.
  case_decide as Hpos; simpl in Hpos.
  - rewrite total_chips_cons, IH. done.
  - rewrite IH. lia.
Qed.

Lemma deal_to_keeps seat g g' :
  deal_to seat g = Some g' →
  total_chips (players g') = total_chips (players g) ∧ pot g' = pot g.
Proof.
  unfold deal_to. destruct (Deck.deal 1 (deck g)) as [[dealt rest]|]; [|done].
  cbn [mbind option_bind]. destruct dealt as [|c|]; try done.
  intros [= <-]. cbn [players pot set_deck set_players]. split; [|done].
  by apply total_chips_alter_same.
Qed.

Lemma deal_all_none (seats : list nat) :
  foldl (λ og seat, g ← og; deal_to seat g) None seats = None.
Proof. by induction seats. Qed.

Lemma deal_all_keeps (seats : list nat) : ∀ g g',
  foldl (λ og seat, g ← og; deal_to seat g) (Some g) seats = Some g' →
  total_chips (players g') = total_chips (players g) ∧ pot g' = pot g.
Proof.
  induction seats as [|seat seats IH]; intros g g'.
  - by intros [= <-].
  - cbn [foldl mbind option_bind].
    destruct (deal_to seat g) as [g1|] eqn:Hdeal.
    + intros Hrest. apply IH in Hrest as [-> ->]. by apply (deal_to_keeps seat).
    + by rewrite deal_all_none.
Qed.

Lemma post_blinds_keeps g g' :
  post_blinds g = Some g' →
  total_chips (players g') + pot g' = total_chips (players g) + pot g.
Proof.
  unfold post_blinds.
  destruct (py_mod (dealer_idx g + 1) _) as [sb_idx|]; [|done].
  destruct (py_mod (dealer_idx g + 2) _) as [bb_idx|]; [|done].
  cbn [mbind option_bind].
  destruct (bet_at sb_idx _ _) as [[sb ps]|] eqn:Hsb; [|done].
  cbn [mbind option_bind].
  destruct (bet_at bb_idx _ ps) as [[bb ps']|] eqn:Hbb; [|done].
  cbn [mbind option_bind].
  destruct (py_mod (bb_idx + 1) _) as [first|]; [|done].
  cbn [mbind option_bind]. intros [= <-].
  apply bet_at_total in Hsb as [Hsb _]. apply bet_at_total in Hbb as [Hbb _].
  cbn [players pot set_current_player_idx set_current_bet set_pot set_players].
  lia.
Qed.

(** The chips that go into the blinds come out of the stacks. *)
Lemma start_new_round_total_chips fresh_deck g result g' :
  Forall (λ p, 0 ≤ Player.chips p) (players g) →
  start_new_round fresh_deck g = Some (result, g') →
  total_chips (players g') + pot g' = total_chips (players g).
Proof.
  intros Hchips. unfold start_new_round.
  cbn [players pot set_players set_pot set_current_bet dealer_idx].
  pose proof (total_chips_solvent (players g) Hchips) as Hsolvent.
  set (ps := filter _ (map Player.clear_hand (players g))) in *.
  destruct (length ps =? 1)%nat.
  { intros [= <- <-]. cbn [players pot set_players set_pot set_current_bet]. lia. }
  destruct (py_mod _ _) as [dealer|]; [|done]. cbn [mbind option_bind].
  destruct (deal_hands _) as [g1|] eqn:Hdeal; [|done].
  cbn [mbind option_bind].
  destruct (post_blinds g1) as [g2|] eqn:Hblinds; [|done].
  cbn [mbind option_bind]. intros [= <- <-].
  apply post_blinds_keeps in Hblinds. apply deal_all_keeps in Hdeal as [Ht Hp].
  cbn [players pot set_dealer_idx set_players set_pot set_current_bet] in Ht, Hp.
  lia.
Qed.

End RoundStartChips.

(** ** A street and what it leaves alone *)

Section StreetFrame.
Import Game.

Lemma bet_at_hands seat amount (ps ps' : list Player.t) paid :
  bet_at seat amount ps = Some (paid, ps') →
  Player.hand <$> ps' = Player.hand <$> ps.
Proof.
  unfold bet_at. destruct (ps !! seat) as [p|] eqn:Hp; [|done].
  cbn [mbind option_bind]. unfold Player.place_bet. intros [= <- <-].
  rewrite list_fmap_insert. apply list_insert_id.
  by rewrite list_lookup_fmap, Hp.
Qed.

Lemma fold_hands (ps : list Player.t) i :
  Player.hand <$> alter Player.fold i ps = Player.hand <$> ps.
Proof.
  revert i. induction ps as [|p ps IH]; intros [|i]; try done.
  change (alter Player.fold (S i) (p :: ps)) with (p :: alter Player.fold i ps).
  by rewrite !fmap_cons, IH.
Qed.

Lemma process_action_same_cards a g idx last_raiser amount_to_call next :
  process_action a g idx last_raiser amount_to_call = Some next →
  same_cards g (game_of next).
Proof.
  unfold same_cards. destruct a as [| | |amount]; cbn [process_action].
  - destruct (_ =? 1)%nat; intros [= <-]; cbn; by rewrite fold_hands.
  - by intros [= <-].
  - destruct (bet_at idx amount_to_call (players g)) as [[bet ps]|] eqn:Hbet;
      [|done].
    apply bet_at_hands in Hbet. cbn [mbind option_bind]. by intros [= <-].
  - destruct (bet_at idx (amount_to_call + amount) (players g))
      as [[bet ps]|] eqn:Hbet; [|done].
    apply bet_at_hands in Hbet. cbn [mbind option_bind].
    destruct (ps !! idx); [|done]. cbn [mbind option_bind]. by intros [= <-].
Qed.

Lemma same_cards_trans g g1 g2 :
  same_cards g g1 → same_cards g1 g2 → same_cards g g2.
Proof.
  unfold same_cards. intros (-> & -> & -> & -> & -> & ->). done.
Qed.

(** X3. A street moves chips between the stacks and the pot and changes
    nothing else: when [betting_round] returns, stacks and pot add up to
    what they did, and the deck, the board, the button, the blinds and
    every player's cards are as they were. *)
Theorem street_moves_chips_only
    (decide : nat → Game.t → nat → Z → option Action) (fuel : nat)
    (g g' : Game.t) (result : bool) (turns : nat) :
  betting_round decide fuel g = Returned result g' turns →
  total_chips (players g') + pot g' = total_chips (players g) + pot g
  ∧ same_cards g g'
  ∧ length (players g') = length (players g).
Proof.
  intros Hround. split; [by eapply betting_round_total_chips|].
  revert Hround.
  apply (betting_round_keeps
           (λ h, same_cards g h ∧ length (players h) = length (players g)));
    [done| |done].
  intros a h idx lr amt next [Hcards Hlen] Hnext. split.
  - eapply same_cards_trans; [done|]. by eapply process_action_same_cards.
  - rewrite <- Hlen.
    rewrite <- !(length_fmap Player.hand).
    by destruct (process_action_same_cards _ _ _ _ _ _ Hnext)
      as (_ & _ & _ & _ & _ & ->).
Qed.

Lemma street_moves_chips_only_witness :
  let g :=
    Game.mk [Player.mk 1000 [mkCard RA Spades; mkCard RK Spades] true true 0;
             Player.mk 995 [mkCard R2 Hearts; mkCard R7 Clubs] true true 5;
             Player.mk 990 [mkCard RQ Hearts; mkCard RQ Clubs] true true 10]
            [mkCard R9 Diamonds] [] 15 10 0 0 5 10 in
  ∃ g',
    betting_round (scripted [Raise 20; Fold; Call]) 10 g = Returned true g' 3
    ∧ total_chips (players g') + pot g' = total_chips (players g) + pot g
    ∧ same_cards g g'
    ∧ length (players g') = length (players g).
Proof.
  intros g. eexists. split; [vm_compute; reflexivity|].
  eapply (street_moves_chips_only (scripted [Raise 20; Fold; Call]) 10 g).
  vm_compute. reflexivity.
Defined.

(** X4. [betting_round] returns [True] only with two players or more still
    in the hand, and [False] only with one at most. *)
Theorem street_flag_counts_players
    (decide : nat → Game.t → nat → Z → option Action) (fuel : nat)
    (g g' : Game.t) (result : bool) (turns : nat) :
  betting_round decide fuel g = Returned result g' turns →
  if result then (2 ≤ count_active (players g'))%nat
  else (count_active (players g') ≤ 1)%nat.
Proof.
  unfold betting_round.
  destruct (Nat.leb_spec (count_active (players g)) 1) as [Hfew|Hmany].
  - by intros [= <- <- <-].
  - intros Hloop. apply betting_loop_remaining in Hloop; [|lia].
    destruct result; lia.
Qed.

Lemma street_flag_counts_players_witness :
  let g :=
    Game.mk [Player.mk 1000 [] true true 0; Player.mk 995 [] true true 5;
             Player.mk 990 [] true true 10]
            [] [] 15 10 0 0 5 10 in
  ∃ g',
    betting_round (scripted [Fold; Fold]) 10 g = Returned false g' 2
    ∧ (count_active (players g') ≤ 1)%nat.
Proof.
  intros g. eexists. split; [vm_compute; reflexivity|].
  eapply (street_flag_counts_players (scripted [Fold; Fold]) 10 g _ false).
  vm_compute. reflexivity.
Defined.

End StreetFrame.

(** ** A whole round *)

Section WholeRound.
Import Game.

Lemma deal_flop_keeps g g' :
  deal_flop g = Some g' → players g' = players g ∧ pot g' = pot g.
Proof.
  unfold deal_flop. destruct (Deck.deal 3 (deck g)) as [[dealt rest]|]; [|done].
  cbn [mbind option_bind]. destruct dealt; try done. by intros [= <-].
Qed.

Lemma deal_street_keeps g g' :
  deal_street g = Some g' → players g' = players g ∧ pot g' = pot g.
Proof.
  unfold deal_street. destruct (Deck.deal 1 (deck g)) as [[dealt rest]|]; [|done].
  cbn [mbind option_bind]. destruct dealt; try done. by intros [= <-].
Qed.

Lemma settle_total_chips g result g' :
  settle g = RoundReturned result g' →
  total_chips (players g') = total_chips (players g) + pot g.
Proof.
  unfold settle. destruct (determine_winners g) as [g1|] eqn:Hwin; [|done].
  intros [= <- <-]. by apply determine_winners_total_chips in Hwin as [? _].
Qed.

(** A street keeps the chips in play, provided what follows it does. *)
Lemma street_total_chips decide fuel g (k : Game.t → RoundOutcome) result g' C :
  total_chips (players g) + pot g = C →
  (∀ g1, total_chips (players g1) + pot g1 = C →
         k g1 = RoundReturned result g' → total_chips (players g') = C) →
  street decide fuel g k = RoundReturned result g' →
  total_chips (players g') = C.
Proof.
  intros HC Hk. unfold street.
  destruct (betting_round decide fuel g) as [flag g1 turns| |] eqn:Hround;
    [|done|done].
  apply betting_round_total_chips in Hround.
  destruct flag.
  - apply Hk. lia.
  - intros Hsettle. apply settle_total_chips in Hsettle. lia.
Qed.

Lemma after_total_chips (dealt : option Game.t) (k : Game.t → RoundOutcome)
    result g' C :
  (∀ g1, dealt = Some g1 → k g1 = RoundReturned result g' →
         total_chips (players g') = C) →
  after dealt k = RoundReturned result g' → total_chips (players g') = C.
Proof. intros Hk. destruct dealt as [g1|]; [|done]. by apply Hk. Qed.

Lemma start_new_round_false fresh_deck g g' :
  start_new_round fresh_deck g = Some (false, g') → pot g' = 0.
Proof.
  unfold start_new_round. destruct (length _ =? 1)%nat; [by intros [= <-]|].
  destruct (py_mod _ _); [|done]. cbn [mbind option_bind].
  destruct (deal_hands _); [|done]. cbn [mbind option_bind].
  destruct (post_blinds _); [|done]. done.
Qed.

(** X5. A round neither makes nor loses chips: when [play_round]
    returns, the stacks of the players left at the table add up to what the
    stacks added up to before the round, none of them being negative then. *)
Theorem round_conserves_chips (fresh_deck : list Card)
    (decide : nat → nat → Game.t → nat → Z → option Action) (fuel : nat)
    (g g' : Game.t) (result : bool) :
  Forall (λ p, 0 ≤ Player.chips p) (players g) →
  play_round fresh_deck decide fuel g = RoundReturned result g' →
  total_chips (players g') = total_chips (players g).
Proof.
  intros Hchips. unfold play_round.
  destruct (start_new_round fresh_deck g) as [[flag g0]|] eqn:Hstart; [|done].
  pose proof (start_new_round_total_chips _ _ _ _ Hchips Hstart) as Htotal.
  destruct flag.
  - apply street_total_chips; [done|]. intros g1 H1.
    apply after_total_chips. intros g2 [Hp2 Hpot2]%deal_flop_keeps.
    apply street_total_chips; [by rewrite Hp2, Hpot2|]. intros g3 H3.
    apply after_total_chips. intros g4 [Hp4 Hpot4]%deal_street_keeps.
    apply street_total_chips; [by rewrite Hp4, Hpot4|]. intros g5 H5.
    apply after_total_chips. intros g6 [Hp6 Hpot6]%deal_street_keeps.
    apply street_total_chips; [by rewrite Hp6, Hpot6|]. intros g7 H7 Hsettle.
    apply settle_total_chips in Hsettle. lia.
  - intros [= <- <-]. apply start_new_round_false in Hstart. lia.
Qed.

(** Three players who call or check all the way to the showdown. *)
Lemma round_conserves_chips_witness :
  let g :=
    Game.mk [Player.new 1000 false; Player.new 1000 true; Player.new 1000 true]
            [] [] 0 0 0 0 5 10 in
  let decide := λ (_ _ : nat) (_ : Game.t) (_ : nat) (amount_to_call : Z),
    Some (if amount_to_call =? 0 then Check else Call) in
  ∃ g',
    play_round all_cards decide 20 g = RoundReturned true g'
    ∧ total_chips (players g') = total_chips (players g).
Proof.
  intros g decide. eexists. split; [vm_compute; reflexivity|].
  eapply (round_conserves_chips all_cards decide 20 g).
  - repeat constructor; simpl; lia.
  - vm_compute. reflexivity.
Defined.

End WholeRound.

(** ** Everybody else has folded *)

Section FoldOut.
Import Game.



End FoldOut.

(** ** What holds all through a round *)

Section RoundInvariants.
Import Game.

(** The two ways [start_new_round] returns. *)
Lemma start_new_round_cases fresh_deck g result g' :
  start_new_round fresh_deck g = Some (result, g') →
  let ps := filter (λ p, 0 < Player.chips p) (map Player.clear_hand (players g)) in
  let g0 := Game.mk ps fresh_deck [] 0 0 (dealer_idx g) (current_player_idx g)
                    (small_blind g) (big_blind g) in
  (result = false ∧ g' = g0 ∧ length ps = 1%nat)
  ∨ (result = true ∧ length ps ≠ 1%nat
     ∧ ∃ dealer g1,
         py_mod (dealer_idx g + 1) (length ps) = Some dealer
         ∧ deal_hands (set_dealer_idx dealer g0) = Some g1
         ∧ post_blinds g1 = Some g').
Proof.
  cbv zeta. unfold start_new_round.
  cbn [players pot set_players set_pot set_current_bet dealer_idx].
  set (ps := filter _ (map Player.clear_hand (players g))).
  intros Hstart.
  destruct (Nat.eqb_spec (length ps) 1) as [Hone|Hmore].
  { left. by injection Hstart as <- <-. }
  right. destruct (py_mod _ _) as [dealer|]; [|done].
  cbn [mbind option_bind] in Hstart.
  destruct (deal_hands _) as [g1|] eqn:Hdeal; [|done].
  cbn [mbind option_bind] in Hstart.
  destruct (post_blinds g1) as [g2|] eqn:Hblinds; [|done].
  cbn [mbind option_bind] in Hstart. injection Hstart as <- <-.
  split_and!; [done|done|]. by exists dealer, g1.
Qed.

(** What every card dealt keeps, the two passes keep. *)
Lemma deal_hands_keeps (Inv : Game.t → Prop) :
  (∀ seat g g', Inv g → deal_to seat g = Some g' → Inv g') →
  ∀ g g', Inv g → deal_hands g = Some g' → Inv g'.
Proof.
  intros Hdeal g g'. unfold deal_hands.
  generalize (seq 0 (length (players g)) ++ seq 0 (length (players g))).
  intros seats. revert g. induction seats as [|seat seats IH]; intros g Hinv.
  - by intros [= <-].
  - cbn [foldl mbind option_bind].
    destruct (deal_to seat g) as [g1|] eqn:H1.
    + apply IH. by eapply Hdeal.
    + by rewrite deal_all_none.
Qed.

(** What the start of the round sets up, and the streets, the cards that
    come and the settlement keep, holds when the round returns. *)
Lemma play_round_keeps (Inv : Game.t → Prop) (Post : bool → Game.t → Prop)
    fresh_deck (decide : nat → nat → Game.t → nat → Z → option Action)
    fuel g result g' :
  (∀ g0, start_new_round fresh_deck g = Some (true, g0) → Inv g0) →
  (∀ g0, start_new_round fresh_deck g = Some (false, g0) → Post false g0) →
  (∀ s g1 flag g2 turns,
     Inv g1 → betting_round (decide s) fuel g1 = Returned flag g2 turns → Inv g2) →
  (∀ g1 g2, Inv g1 → deal_flop g1 = Some g2 → Inv g2) →
  (∀ g1 g2, Inv g1 → deal_street g1 = Some g2 → Inv g2) →
  (∀ g1 g2, Inv g1 → determine_winners g1 = Some g2 → Post true g2) →
  play_round fresh_deck decide fuel g = RoundReturned result g' →
  Post result g'.
Proof.
  intros Hstart Hfalse Hstreet Hflop Hcard Hsettle. unfold play_round.
  destruct (start_new_round fresh_deck g) as [[flag g0]|]; [|done].
  destruct flag; [|intros [= <- <-]; by apply Hfalse].
  specialize (Hstart g0 eq_refl). clear Hfalse.
  assert (Hend : ∀ g1, Inv g1 → settle g1 = RoundReturned result g' →
                       Post result g').
  { intros g1 H1. unfold settle.
    destruct (determine_winners g1) as [g2|] eqn:Hwin; [|done].
    intros [= <- <-]. by eapply Hsettle. }
  assert (Hst : ∀ s g1 (k : Game.t → RoundOutcome),
            Inv g1 →
            (∀ g2, Inv g2 → k g2 = RoundReturned result g' → Post result g') →
            street (decide s) fuel g1 k = RoundReturned result g' →
            Post result g').
  { intros s g1 k H1 Hk. unfold street.
    destruct (betting_round (decide s) fuel g1) as [flag g2 turns| |] eqn:Hround;
      [|done|done].
    apply Hstreet in Hround; [|done].
    destruct flag; [by apply Hk|by apply Hend]. }
  assert (Haf : ∀ (dealt : option Game.t) (k : Game.t → RoundOutcome),
            (∀ g2, dealt = Some g2 → Inv g2) →
            (∀ g2, Inv g2 → k g2 = RoundReturned result g' → Post result g') →
            after dealt k = RoundReturned result g' → Post result g').
  { intros [g2|] k Hd Hk; [|done]. cbn [after]. apply Hk. by apply Hd. }
  apply Hst; [done|]. intros g1 H1.
  apply Haf; [intros g2; by apply Hflop|]. intros g2 H2.
  apply Hst; [done|]. intros g3 H3.
  apply Haf; [intros g4; by apply Hcard|]. intros g4 H4.
  apply Hst; [done|]. intros g5 H5.
  apply Haf; [intros g6; by apply Hcard|]. intros g6 H6.
  apply Hst; [done|]. intros g7 H7. by apply Hend.
Qed.

Lemma total_bets_cons p ps :
  total_bets (p :: ps) = Player.current_bet p + total_bets ps.
Proof. done. Qed.

Lemma total_bets_insert (ps : list Player.t) (i : nat) (p p' : Player.t) :
  ps !! i = Some p →
  total_bets (<[i := p']> ps)
  = total_bets ps - Player.current_bet p + Player.current_bet p'.
Proof.
  revert i. induction ps as [|q ps IH]; intros [|i] Hp; try done.
  - injection Hp as ->. change (<[0%nat := p']> (p :: ps)) with (p' :: ps).
    rewrite !total_bets_cons. lia.
  - change (<[S i := p']> (q :: ps)) with (q :: <[i := p']> ps).
    rewrite !total_bets_cons, (IH i Hp). lia.
Qed.

Lemma total_bets_alter_same (f : Player.t → Player.t) (ps : list Player.t) i :
  (∀ p, Player.current_bet (f p) = Player.current_bet p) →
  total_bets (alter f i ps) = total_bets ps.
Proof.
  intros Hf. revert i. induction ps as [|q ps IH]; intros [|i]; try done.
  - change (alter f 0%nat (q :: ps)) with (f q :: ps).
    by rewrite !total_bets_cons, Hf.
  - change (alter f (S i) (q :: ps)) with (q :: alter f i ps).
    by rewrite !total_bets_cons, IH.
Qed.

Lemma total_bets_cleared (ps : list Player.t) :
  total_bets (filter (λ p, 0 < Player.chips p) (map Player.clear_hand ps)) = 0.
Proof.
  induction ps as [|p ps IH]; [done|].
  cbn [map]. rewrite filter_cons. case_decide; [|done].
  rewrite total_bets_cons, IH. done.
Qed.

Lemma bet_at_total_bets seat amount (ps ps' : list Player.t) paid :
  bet_at seat amount ps = Some (paid, ps') →
  total_bets ps' = total_bets ps + paid.
Proof.
  unfold bet_at. destruct (ps !! seat) as [p|] eqn:Hp; [|done].
  cbn [mbind option_bind]. unfold Player.place_bet.
  intros [= <- <-]. rewrite (total_bets_insert ps seat p _ Hp).
  cbn [Player.current_bet]. lia.
Qed.

Lemma process_action_pot_bets a g idx last_raiser amount_to_call next :
  process_action a g idx last_raiser amount_to_call = Some next →
  pot (game_of next) - total_bets (players (game_of next))
  = pot g - total_bets (players g).
Proof.
  destruct a as [| | |amount]; cbn [process_action].
  - destruct (_ =? 1)%nat; intros [= <-]; cbn [game_of players set_players pot];
      by rewrite total_bets_alter_same.
  - intros [= <-]. done.
  - destruct (bet_at idx amount_to_call (players g)) as [[bet ps]|] eqn:Hbet;
      [|done].
    apply bet_at_total_bets in Hbet. cbn [mbind option_bind].
    intros [= <-]. cbn [game_of players set_players set_pot pot]. lia.
  - destruct (bet_at idx (amount_to_call + amount) (players g))
      as [[bet ps]|] eqn:Hbet; [|done].
    apply bet_at_total_bets in Hbet. cbn [mbind option_bind].
    destruct (ps !! idx); [|done]. cbn [mbind option_bind].
    intros [= <-].
    cbn [game_of players set_players set_pot set_current_bet pot]. lia.
Qed.

Lemma deal_to_pot_bets seat g g' :
  deal_to seat g = Some g' →
  pot g' - total_bets (players g') = pot g - total_bets (players g).
Proof.
  unfold deal_to. destruct (Deck.deal 1 (deck g)) as [[dealt rest]|]; [|done].
  cbn [mbind option_bind]. destruct dealt as [|c|]; try done.
  intros [= <-]. cbn [players pot set_deck set_players].
  by rewrite total_bets_alter_same.
Qed.

Lemma post_blinds_pot_bets g g' :
  post_blinds g = Some g' →
  pot g' - total_bets (players g') = pot g - total_bets (players g).
Proof.
  unfold post_blinds.
  destruct (py_mod (dealer_idx g + 1) _) as [sb_idx|]; [|done].
  destruct (py_mod (dealer_idx g + 2) _) as [bb_idx|]; [|done].
  cbn [mbind option_bind].
  destruct (bet_at sb_idx _ _) as [[sb ps]|] eqn:Hsb; [|done].
  cbn [mbind option_bind].
  destruct (bet_at bb_idx _ ps) as [[bb ps']|] eqn:Hbb; [|done].
  cbn [mbind option_bind].
  destruct (py_mod (bb_idx + 1) _) as [first|]; [|done].
  cbn [mbind option_bind]. intros [= <-].
  apply bet_at_total_bets in Hsb. apply bet_at_total_bets in Hbb.
  cbn [players pot set_current_player_idx set_current_bet set_pot set_players].
  lia.
Qed.

Lemma start_new_round_pot_bets fresh_deck g result g' :
  start_new_round fresh_deck g = Some (result, g') →
  pot g' = total_bets (players g').
Proof.
  intros Hstart. apply start_new_round_cases in Hstart.
  pose proof (total_bets_cleared (players g)) as Hzero.
  destruct Hstart as [(_ & -> & _)|(_ & _ & dealer & g1 & _ & Hdeal & Hblinds)].
  - cbn [pot players]. lia.
  - apply post_blinds_pot_bets in Hblinds.
    revert Hdeal.
    intros Hdeal%(deal_hands_keeps (λ h, pot h - total_bets (players h) = 0)).
    + lia.
    + intros seat h h' Hh Hto. apply deal_to_pot_bets in Hto. lia.
    + cbn [pot players set_dealer_idx]. lia.
Qed.

Lemma pay_all_bets n (winners : list nat) : ∀ ps : list Player.t,
  total_bets (foldl (λ ps w, alter (Player.add_chips n) w ps) ps winners)
  = total_bets ps.
Proof.
  induction winners as [|w winners IH]; intros ps; [done|].
  cbn [foldl]. rewrite IH. by apply total_bets_alter_same.
Qed.

Lemma determine_winners_pot_bets g g' :
  determine_winners g = Some g' →
  pot g' = pot g ∧ total_bets (players g') = total_bets (players g).
Proof.
  unfold determine_winners.
  assert (Hshow :
    (winners ← showdown_winners g (active_seats (players g));
     ps ← split_pot (pot g) winners (players g);
     Some (set_players ps g)) = Some g' →
    pot g' = pot g ∧ total_bets (players g') = total_bets (players g)).
  { destruct (showdown_winners _ _) as [winners|]; [|done].
    cbn [mbind option_bind]. unfold split_pot.
    destruct (_ =? 0); [done|].
    destruct (0 <? _).
    - destruct (head winners) as [w0|]; [|done]. cbn [mbind option_bind].
      intros [= <-]. cbn [pot players set_players]. split; [done|].
      by rewrite total_bets_alter_same, pay_all_bets.
    - cbn [mbind option_bind]. intros [= <-]. cbn [pot players set_players].
      split; [done|]. by rewrite pay_all_bets. }
  destruct (active_seats (players g)) as [|w [|w' rest]]; try done.
  intros [= <-]. cbn [pot players set_players]. split; [done|].
  by apply total_bets_alter_same.
Qed.

(** X7. All through a round the pot is what the players have put
    in: when [play_round] returns, the pot equals the sum of the players'
    [current_bet], the settlement having paid the winners without emptying
    the one or the other. *)
Theorem round_pot_is_sum_of_bets (fresh_deck : list Card)
    (decide : nat → nat → Game.t → nat → Z → option Action) (fuel : nat)
    (g g' : Game.t) (result : bool) :
  play_round fresh_deck decide fuel g = RoundReturned result g' →
  pot g' = total_bets (players g').
Proof.
  apply (play_round_keeps (λ h, pot h = total_bets (players h))
                          (λ _ h, pot h = total_bets (players h))).
  - intros g0. apply start_new_round_pot_bets.
  - intros g0. apply start_new_round_pot_bets.
  - intros s g1 flag g2 turns H1.
    apply (betting_round_keeps (λ h, pot h = total_bets (players h))); [done| |done].
    intros a h idx lr amt next Hh Hnext.
    apply process_action_pot_bets in Hnext. lia.
  - intros g1 g2 H1 [Hp Hpot]%deal_flop_keeps. by rewrite Hp, Hpot.
  - intros g1 g2 H1 [Hp Hpot]%deal_street_keeps. by rewrite Hp, Hpot.
  - intros g1 g2 H1 [Hpot Hb]%determine_winners_pot_bets. lia.
Qed.

(** A raise, a fold and a call before the flop, then checks to the end. *)
Lemma round_pot_is_sum_of_bets_witness :
  let g :=
    Game.mk [Player.new 1000 false; Player.new 1000 true; Player.new 1000 true]
            [] [] 0 0 0 0 5 10 in
  let decide := λ (s t : nat) (_ : Game.t) (_ : nat) (_ : Z),
    match s with
    | 0%nat => [Raise 20; Fold; Call] !! t
    | _ => Some Check
    end in
  ∃ g',
    play_round all_cards decide 20 g = RoundReturned true g'
    ∧ pot g' = 65
    ∧ Player.current_bet <$> players g' = [30; 30; 5]
    ∧ pot g' = total_bets (players g').
Proof.
  intros g decide. eexists. split; [vm_compute; reflexivity|].
  split; [reflexivity|]. split; [reflexivity|].
  eapply (round_pot_is_sum_of_bets all_cards decide 20 g).
  vm_compute. reflexivity.
Defined.

End RoundInvariants.

(** ** The player at the keyboard *)

Section Keyboard.
Import Game.

(** X8. What [human_decision] lets through is paid in full, whatever
    the state of the table: after an accepted call the player's bet is the
    table's, after an accepted raise by [amount] the table's bet has gone
    up by [amount], which is positive, and the player's bet equals it; the
    chips paid are in the pot and the stack has not gone below zero.  A
    fold or a check moves no chips. *)
Theorem accepted_decision_is_paid_in_full (a : Action) (g : Game.t)
    (player_idx : nat) (last_raiser : option nat) (p : Player.t) :
  players g !! player_idx = Some p →
  let amount_to_call := current_bet g - Player.current_bet p in
  human_accepts p amount_to_call a = true →
  ∃ next p',
    process_action a g player_idx last_raiser amount_to_call = Some next
    ∧ players (game_of next) !! player_idx = Some p'
    ∧ match a with
      | Fold =>
          Player.is_active p' = false ∧ Player.chips p' = Player.chips p
          ∧ pot (game_of next) = pot g
          ∧ current_bet (game_of next) = current_bet g
      | Check =>
          game_of next = g ∧ Player.current_bet p = current_bet g
      | Call =>
          Player.current_bet p' = current_bet g
          ∧ Player.chips p' = Player.chips p - amount_to_call
          ∧ 0 ≤ Player.chips p'
          ∧ pot (game_of next) = pot g + amount_to_call
          ∧ current_bet (game_of next) = current_bet g
      | Raise amount =>
          0 < amount
          ∧ current_bet (game_of next) = current_bet g + amount
          ∧ Player.current_bet p' = current_bet g + amount
          ∧ Player.chips p' = Player.chips p - (amount_to_call + amount)
          ∧ 0 ≤ Player.chips p'
          ∧ pot (game_of next) = pot g + (amount_to_call + amount)
      end.
Proof.
  intros Hp amount_to_call. destruct a as [| | |amount]; cbn [human_accepts].
  - intros _. cbn [process_action].
    assert (Hfold : alter Player.fold player_idx (players g) !! player_idx
                    = Some (Player.fold p))
      by (by rewrite list_lookup_alter_eq, Hp).
    cbv zeta. cbn [players set_players].
    destruct (_ =? 1)%nat; eexists _, _;
      (split; [reflexivity|]); cbn [game_of players set_players];
      (split; [exact Hfold|]); done.
  - intros Hzero%Z.eqb_eq. exists (KeepBetting g last_raiser), p.
    cbn [process_action game_of]. split_and!; try done.
    subst amount_to_call. lia.
  - intros [Hnz%negb_true_iff%Z.eqb_neq Hle%Z.leb_le]%andb_true_iff.
    cbn [process_action]. unfold bet_at. rewrite Hp. cbn [mbind option_bind].
    rewrite (place_bet_covered _ _ Hle). cbn [mbind option_bind].
    eexists _, _. split; [reflexivity|].
    cbn [game_of players set_players set_pot pot current_bet].
    split; [apply list_lookup_insert_eq; by eapply lookup_lt_Some|].
    cbn [Player.current_bet Player.chips]. subst amount_to_call.
    split_and!; lia.
  - intros [[_ Hpos%Z.ltb_lt]%andb_true_iff Hle%Z.leb_le]%andb_true_iff.
    cbn [process_action]. unfold bet_at. rewrite Hp. cbn [mbind option_bind].
    rewrite (place_bet_covered _ _ Hle). cbn [mbind option_bind].
    rewrite list_lookup_insert_eq by (by eapply lookup_lt_Some).
    cbn [mbind option_bind].
    eexists _, _. split; [reflexivity|].
    cbn [game_of players set_players set_pot set_current_bet pot current_bet].
    split; [apply list_lookup_insert_eq; by eapply lookup_lt_Some|].
    cbn [Player.current_bet Player.chips]. subst amount_to_call.
    split_and!; lia.
Qed.

(** The big blind of 10 is raised by 30 from a stack of 1000. *)
Lemma accepted_decision_is_paid_in_full_witness :
  let g :=
    Game.mk [Player.mk 1000 [] true false 0; Player.mk 995 [] true true 5;
             Player.mk 990 [] true true 10]
            [] [] 15 10 0 0 5 10 in
  ∃ next p',
    process_action (Raise 30) g 0 None 10 = Some next
    ∧ players (game_of next) !! 0%nat = Some p'
    ∧ 0 < 30
    ∧ current_bet (game_of next) = 10 + 30
    ∧ Player.current_bet p' = 10 + 30
    ∧ Player.chips p' = 1000 - (10 + 30)
    ∧ 0 ≤ Player.chips p'
    ∧ pot (game_of next) = 15 + (10 + 30).
Proof.
  intros g.
  exact (accepted_decision_is_paid_in_full (Raise 30) g 0 None
           (Player.mk 1000 [] true false 0) eq_refl eq_refl).
Defined.

End Keyboard.

(** ** The automated players *)

Section Automated.
Import Hand Game.

Lemma evaluate_hand_short cards :
  (length cards < 5)%nat →
  evaluate_hand cards
  = Some (0, map rank_value (sorted_desc rank_value Z.ltb cards)).
Proof.
  intros Hlen. rewrite evaluate_hand_unfold.
  by destruct (Nat.ltb_spec (length cards) 5); [|lia].
Qed.

(** X9. [ai_decision] answers for every player who holds two cards
    or more, and its answer fits the turn: with nothing to call it checks
    or raises, facing a bet it never checks; and what it raises by is
    positive, the big blind and the stack being so. *)
Theorem ai_decision_fits_turn (g : Game.t) (player : Player.t)
    (amount_to_call : Z) (draw : Q) :
  (2 ≤ length (Player.hand player))%nat →
  ∃ a,
    ai_decision g player amount_to_call draw = Some a
    ∧ (amount_to_call = 0 → a = Check ∨ ∃ amount, a = Raise amount)
    ∧ (0 < amount_to_call → a ≠ Check)
    ∧ (∀ amount, a = Raise amount →
         0 < big_blind g → 0 < Player.chips player → 0 < amount).
Proof.
  intros Hhand. unfold ai_decision.
  destruct (evaluate_hand_total (Player.hand player ++ community_cards g))
    as [[hand_rank tie_breakers] ->].
  cbn [mbind option_bind].
  destruct (Player.hand player) as [|c0 [|c1 hand]] eqn:Hcards;
    [simpl in Hhand; lia|simpl in Hhand; lia|].
  cbn [lookup list_lookup mbind option_bind].
  assert (Hfit : ∀ a : Action,
            (amount_to_call = 0 → a = Check ∨ ∃ amount, a = Raise amount) →
            (0 < amount_to_call → a ≠ Check) →
            (∀ amount, a = Raise amount →
               0 < big_blind g → 0 < Player.chips player → 0 < amount) →
            ∃ a', Some a = Some a'
              ∧ (amount_to_call = 0 → a' = Check ∨ ∃ amount, a' = Raise amount)
              ∧ (0 < amount_to_call → a' ≠ Check)
              ∧ (∀ amount, a' = Raise amount →
                   0 < big_blind g → 0 < Player.chips player → 0 < amount))
    by (intros a ? ? ?; by exists a).
  destruct (length (community_cards g) =? 0)%nat.
  - destruct (1 <=? hand_rank); cbn [mbind option_bind].
    + destruct (Z.eqb_spec amount_to_call 0) as [Hz|Hnz].
      * apply Hfit; [eauto|lia|]. intros amount [= <-]. lia.
      * destruct (amount_to_call <=? _); apply Hfit; try done; lia.
    + destruct (9 <? rank_value c0); cbn [mbind option_bind];
        [destruct (9 <? rank_value c1)|].
      * destruct (Z.eqb_spec amount_to_call 0) as [Hz|Hnz].
        -- apply Hfit; [eauto|lia|]. intros amount [= <-]. lia.
        -- destruct (amount_to_call <=? _); apply Hfit; try done; lia.
      * destruct (Z.eqb_spec amount_to_call 0) as [Hz|Hnz].
        -- apply Hfit; [eauto|lia|done].
        -- destruct (amount_to_call <=? _); apply Hfit; try done; lia.
      * destruct (Z.eqb_spec amount_to_call 0) as [Hz|Hnz].
        -- apply Hfit; [eauto|lia|done].
        -- destruct (amount_to_call <=? _); apply Hfit; try done; lia.
  - destruct (3 <=? hand_rank); [|destruct (1 <=? hand_rank)].
    + destruct (Qltb draw p_0_7).
      * apply Hfit; [eauto|done|]. intros amount [= <-]. lia.
      * destruct (Z.ltb_spec 0 amount_to_call); apply Hfit; try done; try lia.
        eauto.
    + destruct (Z.eqb_spec amount_to_call 0) as [Hz|Hnz].
      * destruct (Qltb draw p_0_3); apply Hfit; try done; try lia; eauto.
        intros amount [= <-]. lia.
      * destruct (amount_to_call <=? _); apply Hfit; try done; lia.
    + destruct (Z.eqb_spec amount_to_call 0) as [Hz|Hnz].
      * apply Hfit; [eauto|lia|done].
      * destruct (amount_to_call <=? _); [destruct (Qltb draw p_0_3)|];
          apply Hfit; try done; lia.
Qed.

(** Seven-deuce facing the big blind. *)
Lemma ai_decision_fits_turn_witness :
  let g := Game.mk [] [] [] 15 10 0 0 5 10 in
  let player := Player.mk 1000 [mkCard R7 Spades; mkCard R2 Hearts] true true 0 in
  ∃ a,
    ai_decision g player 10 0%Q = Some a
    ∧ (10 = 0 → a = Check ∨ ∃ amount, a = Raise amount)
    ∧ (0 < 10 → a ≠ Check)
    ∧ (∀ amount, a = Raise amount →
         0 < big_blind g → 0 < Player.chips player → 0 < amount).
Proof.
  intros g player.
  apply (ai_decision_fits_turn g player 10 0%Q). simpl. lia.
Defined.

(** X10. Before the flop the automated player cannot see a pair:
    two cards always score as a high card, so the test on the category is
    dead and the choice rests on whether both cards are queens or better.
    A pair of jacks or less is played as a weak hand. *)
Theorem preflop_policy_ignores_pairs (g : Game.t) (player : Player.t)
    (c0 c1 : Card) (amount_to_call : Z) (draw : Q) :
  Player.hand player = [c0; c1] →
  community_cards g = [] →
  evaluate_hand (Player.hand player ++ community_cards g)
  = Some (0, map rank_value (sorted_desc rank_value Z.ltb [c0; c1]))
  ∧ ai_decision g player amount_to_call draw
    = Some (if (9 <? rank_value c0) && (9 <? rank_value c1) then
              if amount_to_call =? 0 then
                Raise (Z.min (Player.chips player) (big_blind g * 2))
              else if amount_to_call <=? big_blind g * 3 then Call
              else Fold
            else
              if amount_to_call =? 0 then Check
              else if amount_to_call <=? big_blind g then Call
              else Fold).
Proof.
  intros Hhand Hboard.
  assert (Hscore : evaluate_hand (Player.hand player ++ community_cards g)
    = Some (0, map rank_value (sorted_desc rank_value Z.ltb [c0; c1]))).
  { rewrite Hhand, Hboard. apply evaluate_hand_short. simpl. lia. }
  split; [done|]. unfold ai_decision. rewrite Hscore, Hhand, Hboard.
  cbn [mbind option_bind length Nat.eqb lookup list_lookup].
  change (1 <=? 0) with false. cbv iota.
  destruct (9 <? rank_value c0); cbn [mbind option_bind andb];
    [destruct (9 <? rank_value c1)|];
    destruct (amount_to_call =? 0); try done;
    by destruct (amount_to_call <=? _).
Qed.

(** A pair of jacks is folded to a raise of three big blinds. *)
Lemma preflop_policy_ignores_pairs_witness :
  let g := Game.mk [] [] [] 45 30 0 0 5 10 in
  let player := Player.mk 1000 [mkCard RJ Spades; mkCard RJ Hearts] true true 0 in
  evaluate_hand (Player.hand player ++ community_cards g) = Some (0, [9; 9])
  ∧ ai_decision g player 30 0%Q = Some Fold.
Proof.
  intros g player.
  exact (preflop_policy_ignores_pairs g player (mkCard RJ Spades)
           (mkCard RJ Hearts) 30 0%Q eq_refl eq_refl).
Defined.

End Automated.

(** ** The cards of a simulated deal *)

Section SimulatedDeal.
Import Hand Estimator.

Variable shuffle : nat → list Card → list Card.

Lemma slice_from (xs : list Card) (start stop : Z) :
  0 ≤ start ≤ stop →
  slice xs start stop
  = take (Z.to_nat (stop - start)) (drop (Z.to_nat start) xs).
Proof.
  intros Hrange. unfold slice, clamp.
  destruct (Z.ltb_spec start 0); [lia|]. destruct (Z.ltb_spec stop 0); [lia|].
  destruct (Z_le_gt_dec (Z.of_nat (length xs)) start) as [Hout|Hin].
  - rewrite !drop_ge by lia. by rewrite !take_nil.
  - rewrite (Z.min_l start) by lia.
    destruct (Z_le_gt_dec stop (Z.of_nat (length xs))).
    + by rewrite Z.min_l by lia.
    + rewrite Z.min_r by lia.
      rewrite !take_ge; [done| |]; rewrite length_drop; lia.
Qed.

Lemma opponent_hands_concat (available : list Card) (first : nat) (m : nat) :
  concat (map (λ j, slice available (Z.of_nat first + 2 * j)
                                    (Z.of_nat first + 2 * j + 2))
              (seqZ 0 (Z.of_nat m)))
  = take (2 * m) (drop first available).
Proof.
  unfold seqZ. rewrite Nat2Z.id. induction m as [|m IH]; [done|].
  rewrite seq_S, fmap_app, map_app, concat_app, IH.
  cbn [fmap list_fmap map concat]. rewrite app_nil_r.
  rewrite slice_from by lia.
  replace (Z.to_nat (Z.of_nat first + 2 * (Z.of_nat (0 + m) + 0) + 2
                     - (Z.of_nat first + 2 * (Z.of_nat (0 + m) + 0))))
    with 2%nat by lia.
  replace (Z.to_nat (Z.of_nat first + 2 * (Z.of_nat (0 + m) + 0)))
    with (first + 2 * m)%nat by lia.
  rewrite <- drop_drop.
  replace (2 * S m)%nat with (2 * m + 2)%nat by lia.
  by rewrite take_take_drop.
Qed.

Lemma decks_permuted (n : nat) :
  (∀ k xs, shuffle k xs ≡ₚ xs) →
  ∀ k available cards,
    cards ∈ decks shuffle n k available → cards ≡ₚ available.
Proof.
  intros Hshuffle. induction n as [|n IH]; intros k available cards; simpl.
  - by intros ?%elem_of_nil.
  - intros [->|Hin]%elem_of_cons; [done|].
    etrans; [by eapply IH|done].
Qed.

Lemma NoDup_all_cards : NoDup all_cards.
Proof. compute_done. Qed.

(** X11. An iteration of the estimator deals no card twice: the
    shuffle being a permutation, the cards it leaves are those the player
    has not seen, and the player's hand, the board as completed and the
    opponents' hands, all together, hold no card more than once; the
    board is completed to five cards and every opponent gets two as long
    as the unseen cards last. *)
Theorem simulated_deal_has_no_duplicates
    (player_hand community_cards : list Card) (num_players : Z)
    (iterations : nat) (cards : list Card) :
  (∀ k xs, shuffle k xs ≡ₚ xs) →
  NoDup (player_hand ++ community_cards) →
  (length community_cards ≤ 5)%nat →
  let available := available_cards (player_hand ++ community_cards) in
  let remaining := 5 - Z.of_nat (length community_cards) in
  let board := simulated_community community_cards cards in
  let opps := opponent_hands cards remaining num_players in
  cards ∈ decks shuffle iterations 0 available →
  cards ≡ₚ available
  ∧ NoDup (player_hand ++ board ++ concat opps)
  ∧ (1 ≤ num_players →
     remaining + 2 * (num_players - 1) ≤ Z.of_nat (length available) →
     length board = 5%nat ∧ Forall (λ opp_hand, length opp_hand = 2%nat) opps).
Proof.
  intros Hshuffle Hknown Hboard available remaining board opps Hin.
  pose proof (decks_permuted _ Hshuffle _ _ _ Hin) as Hperm.
  split; [done|].
  set (first := (5 - length community_cards)%nat).
  assert (Hremaining : remaining = Z.of_nat first) by (subst remaining first; lia).
  assert (Hb : board = community_cards ++ take first cards).
  { subst board. unfold simulated_community. f_equal.
    fold remaining. rewrite slice_from by lia. rewrite drop_0. f_equal. lia. }
  split.
  - set (m := Z.to_nat (num_players - 1)).
    assert (Hopps : concat opps = take (2 * m) (drop first cards)).
    { subst opps. unfold opponent_hands. rewrite Hremaining.
      rewrite <- opponent_hands_concat. do 2 f_equal.
      unfold seqZ. by rewrite Nat2Z.id. }
    rewrite Hb, Hopps, <- (assoc_L (++)), take_take_drop, (assoc_L (++)).
    assert (Hcards : NoDup cards).
    { rewrite Hperm. apply NoDup_filter, NoDup_all_cards. }
    apply NoDup_app. split; [done|]. split.
    + intros c Hc Hc'. apply (subseteq_take _ cards) in Hc'.
      rewrite Hperm in Hc'.
      subst available. unfold available_cards in Hc'.
      apply list_elem_of_filter in Hc' as [Hc' _]. done.
    + eapply sublist_NoDup; [done|apply sublist_take].
  - intros Hplayers Henough. pose proof (Permutation_length Hperm) as Hlen.
    split.
    + rewrite Hb, length_app, length_take. lia.
    + subst opps. unfold opponent_hands. apply Forall_fmap, Forall_forall.
      intros j Hj%elem_of_seqZ. cbn [compose].
      rewrite slice_from by lia. rewrite length_take, length_drop. lia.
Qed.

End SimulatedDeal.

(** Aces in hand on a flop, two opponents, the unseen cards reversed at
    every iteration. *)
Lemma simulated_deal_has_no_duplicates_witness :
  let shuffle := λ (_ : nat) (cards : list Card), reverse cards in
  let player_hand := [mkCard RA Spades; mkCard RA Hearts] in
  let community_cards := [mkCard R2 Clubs; mkCard R7 Diamonds; mkCard RJ Clubs] in
  let available := Estimator.available_cards (player_hand ++ community_cards) in
  let cards := reverse available in
  let board := Estimator.simulated_community community_cards cards in
  let opps := Estimator.opponent_hands cards (5 - 3) 3 in
  cards ∈ Estimator.decks shuffle 2 0 available
  ∧ cards ≡ₚ available
  ∧ NoDup (player_hand ++ board ++ concat opps)
  ∧ (1 ≤ 3 →
     5 - 3 + 2 * (3 - 1) ≤ Z.of_nat (length available) →
     length board = 5%nat ∧ Forall (λ opp_hand, length opp_hand = 2%nat) opps).
Proof.
  intros shuffle player_hand community_cards available cards board opps.
  assert (Hin : cards ∈ Estimator.decks shuffle 2 0 available)
    by (vm_compute; left).
  split; [exact Hin|].
  apply (simulated_deal_has_no_duplicates shuffle player_hand community_cards
           3 2 cards).
  - intros k xs. apply reverse_Permutation.
  - compute_done.
  - simpl. lia.
  - exact Hin.
Defined.

(** ** The estimator at the edges *)

Section EstimatorEdges.
Import Hand Estimator.

Variable shuffle : nat → list Card → list Card.

Lemma trial_alone player_hand community_cards num_players available :
  num_players ≤ 1 →
  trial player_hand community_cards num_players available = Some true.
Proof.
  intros Halone. unfold trial, opponent_hands.
  destruct (evaluate_hand_total
              (player_hand ++ simulated_community community_cards available))
    as [player_score ->].
  cbn [mbind option_bind]. unfold seqZ.
  by replace (Z.to_nat (num_players - 1)) with 0%nat by lia.
Qed.

Lemma filter_all {A} (P : A → Prop) `{∀ x, Decision (P x)} (l : list A) :
  Forall P l → filter P l = l.
Proof.
  induction 1 as [|x l Hx _ IH]; [done|].
  rewrite filter_cons. case_decide; [|done]. by rewrite IH.
Qed.

(** X12. With no iteration to run, [calculate_win_probability] divides
    by zero; and with no opponent at the table every iteration is a win,
    so that the estimate is 100 whatever the cards. *)
Theorem estimate_without_opponents
    (player_hand community_cards : list Card) (num_players iterations : Z) :
  calculate_win_probability shuffle player_hand community_cards num_players 0
  = None
  ∧ (num_players ≤ 1 → 1 ≤ iterations →
     ∃ estimate,
       calculate_win_probability shuffle player_hand community_cards
         num_players iterations = Some estimate
       ∧ (estimate == inject_Z 100)%Q).
Proof.
  split; [done|]. intros Halone Hiter. unfold calculate_win_probability.
  rewrite iterate_counts. cbn [mbind option_bind].
  rewrite filter_all; [|apply Forall_forall; intros; by apply trial_alone].
  rewrite length_decks, Z2Nat.id, Z.add_0_l by lia.
  destruct (div_between iterations iterations 1 1)
    as (ratio & -> & Hr1 & Hr2); [lia|lia|done|lia|lia|].
  cbn [mbind option_bind].
  destruct (percentage_between ratio 1)
    as (estimate & -> & He1 & He2); [lia|done|done|].
  exists estimate. split; [done|]. by apply Qle_antisym.
Qed.

End EstimatorEdges.

Lemma estimate_without_opponents_witness :
  let shuffle := λ (_ : nat) (cards : list Card), reverse cards in
  let player_hand := [mkCard R7 Spades; mkCard R2 Hearts] in
  Estimator.calculate_win_probability shuffle player_hand [] 1 0 = None
  ∧ (1 ≤ 1 → 1 ≤ 3 →
     ∃ estimate,
       Estimator.calculate_win_probability shuffle player_hand [] 1 3
       = Some estimate
       ∧ (estimate == inject_Z 100)%Q).
Proof.
  intros shuffle player_hand.
  exact (estimate_without_opponents shuffle player_hand [] 1 3).
Defined.

(** ** The shape of a score, and more cards *)

Section ScoreShape.
Import Hand.

Lemma length_sorted_desc {A K} (key : A → K) (ltb : K → K → bool) (l : list A) :
  length (sorted_desc key ltb l) = length l.
Proof. apply Permutation_length, sorted_desc_perm. Qed.

Lemma length_others (ranks : list Z) (k : Z) (c : nat) :
  (k, c) ∈ Counter ranks →
  (c + length (filter (λ r, r ≠ k) ranks))%nat = length ranks.
Proof.
  intros [-> _]%Counter_elem.
  by rewrite <- (length_filter_split (λ x, x = k) ranks).
Qed.

Lemma length_ranks_with n items :
  length (ranks_with n items) = length (filter (λ c, c = n) (values items)).
Proof.
  unfold ranks_with, values. rewrite length_map.
  induction items as [|[k c] items IH]; [done|].
  cbn [map]. rewrite !filter_cons. cbn [snd].
  destruct (decide (c = n)); simpl; by rewrite IH.
Qed.

Lemma evaluate_five_shape cards category tie_breakers :
  length cards = 5%nat →
  evaluate_five cards = Some (category, tie_breakers) →
  0 ≤ category ≤ 9 ∧ length tie_breakers = tie_breaker_count category.
Proof.
  intros Hlen. unfold evaluate_five.
  assert (Hranks : length (map rank_value cards) = 5%nat)
    by by rewrite length_map.
  set (ranks := map rank_value cards) in *.
  destruct (straight_check _) as [is_straight straight_high].
  destruct (_ && set_eqb ranks _); [by intros [= <- <-]|].
  destruct (_ && is_straight); [by intros [= <- <-]|].
  destruct (has_count 4 _) eqn:H4.
  { destruct (head_ranks_with _ _ H4) as (k & -> & Hin). cbn [mbind option_bind].
    destruct (head _); [|done]. by intros [= <- <-]. }
  assert (Hthree : ∀ k, head (ranks_with 3 (Counter ranks)) = Some k →
            length (sorted_desc id Z.ltb (filter (λ r, r ≠ k) ranks)) = 2%nat).
  { intros k Hk. rewrite length_sorted_desc.
    assert (Hin : (k, 3%nat) ∈ Counter ranks).
    { apply ranks_with_elem. destruct (ranks_with 3 _); [done|].
      injection Hk as ->. by left. }
    apply length_others in Hin. lia. }
  assert (Hpair : ∀ k, head (ranks_with 2 (Counter ranks)) = Some k →
            length (sorted_desc id Z.ltb (filter (λ r, r ≠ k) ranks)) = 3%nat).
  { intros k Hk. rewrite length_sorted_desc.
    assert (Hin : (k, 2%nat) ∈ Counter ranks).
    { apply ranks_with_elem. destruct (ranks_with 2 _); [done|].
      injection Hk as ->. by left. }
    apply length_others in Hin. lia. }
  assert (Hfive : length (sorted_desc id Z.ltb ranks) = 5%nat)
    by by rewrite length_sorted_desc.
  assert (Htwo :
    (length (filter (λ c, c = 2%nat) (values (Counter ranks))) =? 2)%nat = true →
    length (sorted_desc id Z.ltb (ranks_with 2 (Counter ranks))) = 2%nat).
  { intros ?%Nat.eqb_eq. by rewrite length_sorted_desc, length_ranks_with. }
  destruct (has_count 3 _ && has_count 2 _).
  { destruct (head (ranks_with 3 _)); [|done]. cbn [mbind option_bind].
    destruct (head (ranks_with 2 _)); [|done]. by intros [= <- <-]. }
  destruct (_ =? 1)%nat; [intros [= <- <-]; by rewrite Hfive|].
  destruct is_straight; [by intros [= <- <-]|].
  destruct (has_count 3 _).
  { destruct (head (ranks_with 3 _)) as [k|] eqn:Hk; [|done].
    cbn [mbind option_bind]. intros [= <- <-]. cbn [length].
    by rewrite (Hthree k). }
  destruct (_ =? 2)%nat.
  { destruct (head (filter _ ranks)); [|done]. cbn [mbind option_bind].
    intros [= <- <-]. rewrite length_app, Htwo by done. done. }
  destruct (has_count 2 _); [|intros [= <- <-]; by rewrite Hfive].
  destruct (head (ranks_with 2 _)) as [k|] eqn:Hk; [|done].
  cbn [mbind option_bind]. intros [= <- <-]. cbn [length].
  by rewrite (Hpair k).
Qed.

(** X13. The score of five cards or more has a category from 0 to 9,
    one that [HAND_RANKINGS] names, and as many tie-breakers as its
    category calls for: two scores of one category are lists of one
    length. *)
Theorem score_has_shape_of_category (cards : list Card) (category : Z)
    (tie_breakers : list Z) :
  (5 ≤ length cards)%nat →
  evaluate_hand cards = Some (category, tie_breakers) →
  0 ≤ category ≤ 9 ∧ length tie_breakers = tie_breaker_count category.
Proof.
  intros Hlen Heval.
  destruct (decide (length cards = 5%nat)) as [Hfive|Hmore].
  - rewrite evaluate_hand_five in Heval by done.
    by apply evaluate_five_shape in Heval.
  - destruct (evaluate_hand_best_of_five cards) as (best & Hbest & Hsub & _);
      [lia|].
    destruct Hsub as (sub & [_ Hsub] & Hscore).
    assert (best = (category, tie_breakers)) as -> by congruence.
    rewrite evaluate_hand_five in Hscore by done.
    by apply evaluate_five_shape in Hscore.
Qed.

(** Kings full of sevens among seven cards. *)
Lemma score_has_shape_of_category_witness :
  let cards := [mkCard RK Spades; mkCard R7 Hearts; mkCard RK Hearts;
                mkCard R2 Clubs; mkCard R7 Clubs; mkCard RK Diamonds;
                mkCard R9 Spades] in
  evaluate_hand cards = Some (6, [11; 5])
  ∧ 0 ≤ 6 ≤ 9 ∧ length [11; 5] = tie_breaker_count 6.
Proof.
  intros cards.
  assert (Heval : evaluate_hand cards = Some (6, [11; 5]))
    by (vm_compute; reflexivity).
  split; [exact Heval|].
  apply (score_has_shape_of_category cards 6 [11; 5]); [simpl; lia|exact Heval].
Defined.

Lemma sublist_same_length {A} (l1 l2 : list A) :
  l1 `sublist_of` l2 → length l2 = length l1 → l2 = l1.
Proof.
  induction 1 as [|x l1 l2 Hsub IH|x l1 l2 Hsub IH]; [done| |].
  - intros [= Hlen]. by rewrite IH.
  - intros Hlen. apply sublist_length in Hsub. simpl in Hlen. lia.
Qed.

(** X14. More cards never lower a score: the score of a hand of
    five cards or more is not above that of any hand it is taken from.  At
    a showdown nobody scores below the board. *)
Theorem more_cards_never_lower_score (cards more : list Card)
    (score score' : HandScore) :
  cards `sublist_of` more →
  (5 ≤ length cards)%nat →
  evaluate_hand cards = Some score →
  evaluate_hand more = Some score' →
  ¬ lex_lt score' score.
Proof.
  intros Hsub Hlen Hscore Hscore'.
  destruct (decide (length more = length cards)) as [Hsame|Hlonger].
  { apply sublist_same_length in Hsame as ->; [|done].
    assert (score' = score) as -> by congruence.
    rewrite <- lex_lt_ltb. by rewrite score_ltb_irrefl. }
  pose proof (sublist_length _ _ Hsub) as Hle.
  destruct (evaluate_hand_best_of_five more) as (best & Hbest & _ & Hmax);
    [lia|].
  assert (best = score') as -> by congruence.
  destruct (decide (length cards = 5%nat)) as [Hfive|Hmore].
  - by apply (Hmax cards).
  - destruct (evaluate_hand_best_of_five cards)
      as (best & Hbest' & (sub & [Hsub' Hfive] & Heval) & _); [lia|].
    assert (best = score) as -> by congruence.
    apply (Hmax sub); [|done]. split; [|done]. by etrans.
Qed.

(** A board with a pair of nines, and a hand that makes it three. *)
Lemma more_cards_never_lower_score_witness :
  let board := [mkCard R9 Clubs; mkCard R9 Diamonds; mkCard R2 Spades;
                mkCard RJ Clubs; mkCard RQ Diamonds] in
  let hand := [mkCard R9 Spades; mkCard R3 Hearts] in
  evaluate_hand board = Some (1, [7; 10; 9; 0])
  ∧ evaluate_hand (hand ++ board) = Some (3, [7; 10; 9])
  ∧ ¬ lex_lt (3, [7; 10; 9]) (1, [7; 10; 9; 0]).
Proof.
  intros board hand.
  assert (Hboard : evaluate_hand board = Some (1, [7; 10; 9; 0]))
    by (vm_compute; reflexivity).
  assert (Hall : evaluate_hand (hand ++ board) = Some (3, [7; 10; 9]))
    by (vm_compute; reflexivity).
  split; [exact Hboard|]. split; [exact Hall|].
  apply (more_cards_never_lower_score board (hand ++ board) _ _);
    [|simpl; lia|exact Hboard|exact Hall].
  apply sublist_inserts_l. done.
Defined.

End ScoreShape.

(** ** Who wins a showdown *)

Section ShowdownWinners.
Import Hand Game.

Lemma filter_none {A} (P : A → Prop) `{∀ x, Decision (P x)} (l : list A) :
  Forall (λ x, ¬ P x) l → filter P l = [].
Proof.
  induction 1 as [|x l Hx _ IH]; [done|].
  rewrite filter_cons. by case_decide.
Qed.

(** Sorting in a hand that scores below [top] leaves the run of hands
    that tie with [top] as it was. *)
Lemma tied_with_insert_below top (x : nat * HandScore) entries :
  score_ltb x.2 top = true →
  tied_with top (insert_desc snd score_ltb x entries) = tied_with top entries.
Proof.
  intros Hbelow. induction entries as [|[seat score] entries IH].
  - destruct x as [xs xscore]. cbn [insert_desc tied_with snd] in *.
    case_bool_decide as Heq; [|done]. subst.
    by rewrite score_ltb_irrefl in Hbelow.
  - cbn [insert_desc snd].
    destruct (score_ltb x.2 score) eqn:Hlt.
    + cbn [tied_with]. case_bool_decide; [|done]. by rewrite IH.
    + destruct x as [xs xscore]. cbn [tied_with snd] in *.
      case_bool_decide as Hx; [subst; by rewrite score_ltb_irrefl in Hbelow|].
      case_bool_decide as Hs; [|done]. subst. congruence.
Qed.

(** The first entry after sorting holds a best score, and the run that
    ties with it is made of the entries with that score, in the order
    they came in. *)
Lemma sorted_desc_leaders (entries : list (nat * HandScore)) :
  match sorted_desc snd score_ltb entries with
  | [] => entries = []
  | top :: rest =>
      top ∈ entries
      ∧ (∀ e, e ∈ entries → score_ltb top.2 e.2 = false)
      ∧ top.1 :: tied_with top.2 rest
        = (filter (λ e, e.2 = top.2) entries).*1
  end.
Proof.
  induction entries as [|x entries IH]; [done|].
  cbn [sorted_desc foldr]. fold (sorted_desc snd score_ltb entries).
  destruct (sorted_desc snd score_ltb entries) as [|top rest].
  - subst entries. cbn [insert_desc]. split_and!.
    + by left.
    + intros e ->%list_elem_of_singleton. apply score_ltb_irrefl.
    + rewrite filter_cons. by case_decide.
  - destruct IH as (Hin & Hmax & Hrun). cbn [insert_desc].
    destruct (score_ltb x.2 top.2) eqn:Hlt.
    + split_and!.
      * by right.
      * intros e [->|He]%elem_of_cons; [by apply score_ltb_asym|by apply Hmax].
      * rewrite tied_with_insert_below by done. rewrite Hrun, filter_cons.
        case_decide as Heq; [|done].
        rewrite Heq, score_ltb_irrefl in Hlt. done.
    + split_and!.
      * by left.
      * intros e [->|He]%elem_of_cons; [apply score_ltb_irrefl|].
        eapply score_not_above_trans; [apply Hmax, He|done].
      * rewrite filter_cons. case_decide; [|done]. cbn [fmap list_fmap].
        f_equal. destruct top as [seat score]. cbn [tied_with snd fst] in *.
        case_bool_decide as Heq.
        -- subst score. exact Hrun.
        -- rewrite filter_none; [done|].
           apply Forall_forall. intros e He Hsame. apply Heq.
           apply score_ltb_connex; [|done].
           rewrite <- Hsame. by apply Hmax.
Qed.

Lemma scores_by_seat g (seats : list nat) : ∀ player_scores,
  mapM (λ seat,
          player ← players g !! seat;
          score ← evaluate_hand (Player.hand player ++ community_cards g);
          Some (seat, score)) seats = Some player_scores →
  Forall2 (λ seat e, e.1 = seat ∧ score_at g seat = Some e.2)
          seats player_scores.
Proof.
  intros player_scores Hscores%mapM_Some.
  eapply Forall2_impl; [exact Hscores|].
  intros seat [seat' score]. unfold score_at. cbn beta.
  destruct (players g !! seat) as [p|]; [|done]. cbn [mbind option_bind].
  destruct (evaluate_hand _) as [s|]; [|done]. cbn [mbind option_bind].
  by intros [= <- <-].
Qed.

Lemma filter_by_seat g top (seats : list nat) (player_scores : list (nat * HandScore)) :
  Forall2 (λ seat e, e.1 = seat ∧ score_at g seat = Some e.2)
          seats player_scores →
  (filter (λ e, e.2 = top) player_scores).*1
  = filter (λ seat, score_at g seat = Some top) seats.
Proof.
  induction 1 as [|seat e seats player_scores [Hseat Hscore] _ IH]; [done|].
  rewrite !filter_cons. rewrite Hscore.
  destruct (decide (e.2 = top)) as [->|Hne].
  - rewrite decide_True by done. cbn [fmap list_fmap]. by rewrite IH, Hseat.
  - rewrite decide_False by congruence. done.
Qed.

(** X15. The winners of a showdown are the players in the hand
    whose score is the best one there: everyone who ties with it wins, in
    seat order, so that the odd chips of a split go to the lowest seat
    among them, and no player in the hand scores above them. *)
Theorem showdown_winners_hold_best_score (g : Game.t) (active winners : list nat) :
  showdown_winners g active = Some winners →
  ∃ top,
    winners = filter (λ seat, score_at g seat = Some top) active
    ∧ winners ≠ []
    ∧ ∀ seat score, seat ∈ active → score_at g seat = Some score →
                    ¬ lex_lt top score.
Proof.
  unfold showdown_winners.
  destruct (mapM _ active) as [player_scores|] eqn:Hscores; [|done].
  cbn [mbind option_bind].
  apply scores_by_seat in Hscores.
  pose proof (sorted_desc_leaders player_scores) as Hleaders.
  destruct (sorted_desc snd score_ltb player_scores) as [|top rest]; [done|].
  destruct Hleaders as (Hin & Hmax & Hrun).
  cbn [head mbind option_bind tail]. intros [= <-].
  exists top.2. rewrite Hrun, (filter_by_seat g top.2 active) by done.
  split_and!; [done| |].
  - rewrite <- (filter_by_seat g top.2 active player_scores) by done.
    rewrite <- Hrun. done.
  - intros seat score Hseat Hscore.
    apply list_elem_of_lookup in Hseat as [i Hi].
    destruct (Forall2_lookup_l _ _ _ _ _ Hscores Hi) as (e & He & _ & Hscore').
    assert (e.2 = score) as <- by congruence.
    rewrite <- lex_lt_ltb. rewrite Hmax; [done|].
    apply list_elem_of_lookup. by exists i.
Qed.

(** Seats 0 and 2 tie with ace and king on the board's queen; seat 1
    trails and seat 3 has folded. *)
Lemma showdown_winners_hold_best_score_witness :
  let board := [mkCard R2 Clubs; mkCard R7 Diamonds; mkCard R9 Spades;
                mkCard RJ Clubs; mkCard RQ Diamonds] in
  let g :=
    Game.mk [Player.mk 100 [mkCard RA Spades; mkCard RK Spades] true false 0;
             Player.mk 200 [mkCard R3 Hearts; mkCard R4 Hearts] true true 0;
             Player.mk 300 [mkCard RA Hearts; mkCard RK Hearts] true true 0;
             Player.mk 400 [mkCard RQ Hearts; mkCard RQ Clubs] false true 0]
            [] board 15 0 0 0 5 10 in
  showdown_winners g [0; 1; 2]%nat = Some [0; 2]%nat
  ∧ ∃ top,
      [0; 2]%nat = filter (λ seat, score_at g seat = Some top) [0; 1; 2]%nat
      ∧ [0; 2]%nat ≠ []
      ∧ ∀ seat score, seat ∈ [0; 1; 2]%nat → score_at g seat = Some score →
                      ¬ lex_lt top score.
Proof.
  intros board g.
  assert (Hwin : showdown_winners g [0; 1; 2]%nat = Some [0; 2]%nat)
    by (vm_compute; reflexivity).
  split; [exact Hwin|].
  exact (showdown_winners_hold_best_score g [0; 1; 2]%nat [0; 2]%nat Hwin).
Defined.

End ShowdownWinners.

(** ** The deal at the start of a round *)

Section RoundStartDeal.
Import Game.

Lemma deal_to_card seat g c rest :
  deck g = c :: rest →
  deal_to seat g
  = Some (set_deck rest
            (set_players (alter (Player.add_card c) seat (players g)) g)).
Proof. intros Hdeck. unfold deal_to. rewrite Hdeck. reflexivity. Qed.

(** One pass of the deal over the first [k] seats. *)
Lemma deal_pass (k : nat) : ∀ g,
  (k ≤ length (deck g))%nat →
  ∃ ps',
    foldl (λ og seat, g ← og; deal_to seat g) (Some g) (seq 0 k)
    = Some (set_deck (drop k (deck g)) (set_players ps' g))
    ∧ length ps' = length (players g)
    ∧ (∀ i, (i < k)%nat →
         ∃ c, deck g !! i = Some c
              ∧ ps' !! i = Player.add_card c <$> players g !! i)
    ∧ (∀ i, (k ≤ i)%nat → ps' !! i = players g !! i).
Proof.
  induction k as [|k IH]; intros g Hdeck.
  - exists (players g). split_and!; [by destruct g|done|lia|done].
  - destruct (IH g) as (ps' & Hpass & Hlen & Hdealt & Hrest); [lia|].
    destruct (lookup_lt_is_Some_2 (deck g) k) as [c Hc]; [lia|].
    exists (alter (Player.add_card c) k ps').
    rewrite seq_S, foldl_app, Hpass. cbn [foldl mbind option_bind].
    split_and!.
    + rewrite (deal_to_card _ _ c (drop (S k) (deck g)));
        [done|by apply drop_S].
    + by rewrite length_alter.
    + intros i Hi. destruct (decide (i = k)) as [->|Hne].
      * exists c. split; [done|].
        rewrite list_lookup_alter_eq. f_equal. apply Hrest. lia.
      * destruct (Hdealt i) as (c' & Hc' & Hi'); [lia|].
        exists c'. split; [done|]. by rewrite list_lookup_alter_ne.
    + intros i Hi. rewrite list_lookup_alter_ne by lia. apply Hrest. lia.
Qed.

(** The two passes: the player at seat [i] gets card [i] of the deck, then
    card [n + i]. *)
Lemma deal_hands_in_turn g :
  let n := length (players g) in
  (2 * n ≤ length (deck g))%nat →
  ∃ ps',
    deal_hands g
    = Some (set_deck (drop (2 * n) (deck g)) (set_players ps' g))
    ∧ length ps' = n
    ∧ ∀ i, (i < n)%nat →
        ∃ c c', deck g !! i = Some c ∧ deck g !! (n + i)%nat = Some c'
                ∧ ps' !! i
                  = (λ p, Player.add_card c' (Player.add_card c p))
                    <$> players g !! i.
Proof.
  intros n Hdeck. unfold deal_hands. fold n. rewrite foldl_app.
  destruct (deal_pass n g) as (ps1 & -> & Hlen1 & Hdealt1 & _); [lia|].
  set (g1 := set_deck _ _).
  destruct (deal_pass n g1) as (ps2 & -> & Hlen2 & Hdealt2 & _).
  { subst g1. cbn [deck set_deck]. rewrite length_drop. lia. }
  exists ps2. split_and!.
  - subst g1. cbn [deck players set_deck set_players]. rewrite drop_drop.
    replace (n + n)%nat with (2 * n)%nat by lia. by destruct g.
  - rewrite Hlen2. subst g1. by cbn [players set_deck set_players].
  - intros i Hi.
    destruct (Hdealt1 i Hi) as (c & Hc & Hi1).
    destruct (Hdealt2 i Hi) as (c' & Hc' & Hi2).
    subst g1. cbn [deck players set_deck set_players] in Hc', Hi2.
    rewrite lookup_drop in Hc'. exists c, c'. split_and!; [done|done|].
    rewrite Hi2, Hi1. by destruct (players g !! i).
Qed.

(** The blinds leave everybody's cards alone and pass the turn to the
    third seat after the button. *)
Lemma post_blinds_turn g :
  let n := length (players g) in
  (2 ≤ n)%nat →
  ∃ ps' pot',
    post_blinds g
    = Some (set_current_player_idx ((dealer_idx g + 3) mod n)%nat
              (set_current_bet (big_blind g)
                 (set_pot pot' (set_players ps' g))))
    ∧ Player.hand <$> ps' = Player.hand <$> players g.
Proof.
  intros n Hn. unfold post_blinds, py_mod. fold n.
  destruct (Nat.eqb_spec n 0) as [|_]; [lia|]. cbn [mbind option_bind].
  assert (Hseat : ∀ a, (a mod n < n)%nat) by (intros a; apply Nat.mod_upper_bound; lia).
  destruct (bet_at ((dealer_idx g + 1) mod n) (small_blind g) (players g))
    as [[sb ps1]|] eqn:Hsb.
  2: { unfold bet_at in Hsb.
       destruct (lookup_lt_is_Some_2 (players g) ((dealer_idx g + 1) mod n))
         as [p Hp]; [apply Hseat|].
       rewrite Hp in Hsb. done. }
  cbn [mbind option_bind].
  pose proof (bet_at_hands _ _ _ _ _ Hsb) as Hhands1.
  pose proof (bet_at_total _ _ _ _ _ Hsb) as [_ Hlen1].
  destruct (bet_at ((dealer_idx g + 2) mod n) (big_blind g) ps1)
    as [[bb ps2]|] eqn:Hbb.
  2: { unfold bet_at in Hbb.
       destruct (lookup_lt_is_Some_2 ps1 ((dealer_idx g + 2) mod n))
         as [p Hp]; [rewrite Hlen1; apply Hseat|].
       rewrite Hp in Hbb. done. }
  cbn [mbind option_bind].
  pose proof (bet_at_hands _ _ _ _ _ Hbb) as Hhands2.
  exists ps2, (pot g + (sb + bb)). split; [|congruence].
  do 2 f_equal. rewrite Nat.Div0.add_mod_idemp_l. f_equal. lia.
Qed.

Lemma cleared_hands (ps : list Player.t) :
  Forall (λ p, Player.hand p = [])
         (filter (λ p, 0 < Player.chips p) (map Player.clear_hand ps)).
Proof.
  induction ps as [|p ps IH]; [done|].
  cbn [map]. rewrite filter_cons. case_decide; [|done]. by constructor.
Qed.

(** X16. With two players or more who have chips, and two cards in the
    deck for each of them, [start_new_round] returns [True] after dealing
    in turn: the players without chips are gone, seat [i] of the [n] who
    stay holds card [i] and card [n + i] of the new deck, the deck has
    lost its first [2 n] cards and the board is empty; the button has
    moved one seat on, the table's bet is the big blind and the turn is
    with the third seat after the button. *)
Theorem start_new_round_deals_in_turn (fresh_deck : list Card) (g : Game.t) :
  let ps :=
    filter (λ p, 0 < Player.chips p) (map Player.clear_hand (players g)) in
  let n := length ps in
  (2 ≤ n)%nat →
  (2 * n ≤ length fresh_deck)%nat →
  ∃ g',
    start_new_round fresh_deck g = Some (true, g')
    ∧ length (players g') = n
    ∧ deck g' = drop (2 * n) fresh_deck
    ∧ community_cards g' = []
    ∧ dealer_idx g' = ((dealer_idx g + 1) mod n)%nat
    ∧ current_player_idx g' = ((dealer_idx g' + 3) mod n)%nat
    ∧ current_bet g' = big_blind g
    ∧ ∀ i, (i < n)%nat →
        ∃ c c', fresh_deck !! i = Some c
                ∧ fresh_deck !! (n + i)%nat = Some c'
                ∧ Player.hand <$> players g' !! i = Some [c; c'].
Proof.
  intros ps n Hn Hdeck. unfold start_new_round.
  cbn [players pot set_players set_pot set_current_bet dealer_idx].
  fold ps. fold n.
  destruct (Nat.eqb_spec n 1) as [|_]; [lia|].
  unfold py_mod. destruct (Nat.eqb_spec n 0) as [|_]; [lia|].
  cbn [mbind option_bind].
  set (g0 := set_dealer_idx _ _).
  assert (Hps0 : players g0 = ps) by done.
  assert (Hdeck0 : deck g0 = fresh_deck) by done.
  destruct (deal_hands_in_turn g0) as (ps1 & -> & Hlen1 & Hdealt).
  { rewrite Hps0, Hdeck0. done. }
  cbn [mbind option_bind]. rewrite Hps0, Hdeck0 in *. fold n in Hlen1, Hdealt |- *.
  set (g1 := set_deck _ _).
  assert (Hps1 : players g1 = ps1) by done.
  destruct (post_blinds_turn g1) as (ps2 & pot' & -> & Hhands).
  { rewrite Hps1. lia. }
  cbn [mbind option_bind]. rewrite Hps1 in *. rewrite Hlen1.
  eexists. split; [reflexivity|].
  cbn [players deck community_cards dealer_idx current_player_idx current_bet
       set_current_player_idx set_current_bet set_pot set_players].
  split_and!; try done.
  - rewrite <- Hlen1, <- !(length_fmap Player.hand). by rewrite Hhands.
  - intros i Hi. destruct (Hdealt i Hi) as (c & c' & Hc & Hc' & Hi1).
    exists c, c'. split_and!; [done|done|].
    rewrite <- list_lookup_fmap, Hhands, list_lookup_fmap, Hi1.
    destruct (lookup_lt_is_Some_2 ps i Hi) as [p Hp]. rewrite Hp.
    cbn [fmap option_fmap option_map Player.add_card Player.hand].
    pose proof (cleared_hands (players g)) as Hclear.
    fold ps in Hclear. rewrite Forall_forall in Hclear.
    rewrite (Hclear p); [done|]. by eapply list_elem_of_lookup_2.
Qed.

(** Five at the table, one of them without chips. *)
Lemma start_new_round_deals_in_turn_witness :
  let g :=
    Game.mk [Player.new 1000 false; Player.new 0 true; Player.new 300 true;
             Player.new 20 true; Player.new 700 true]
            [] [] 0 0 1 0 5 10 in
  ∃ g',
    start_new_round all_cards g = Some (true, g')
    ∧ length (players g') = 4%nat
    ∧ deck g' = drop (2 * 4) all_cards
    ∧ community_cards g' = []
    ∧ dealer_idx g' = ((1 + 1) mod 4)%nat
    ∧ current_player_idx g' = ((dealer_idx g' + 3) mod 4)%nat
    ∧ current_bet g' = 10
    ∧ ∀ i, (i < 4)%nat →
        ∃ c c', all_cards !! i = Some c
                ∧ all_cards !! (4 + i)%nat = Some c'
                ∧ Player.hand <$> players g' !! i = Some [c; c'].
Proof.
  intros g.
  apply (start_new_round_deals_in_turn all_cards g); vm_compute; lia.
Defined.

End RoundStartDeal.

(** ** Stacks that stay out of debt *)

Section Solvency.
Import Hand Game.

Lemma betting_loop_keeps_decided (Inv : Game.t → Prop)
    (source : nat → Game.t → nat → Z → option Action) :
  (∀ g i, Inv g → Inv (set_current_player_idx i g)) →
  (∀ t a g idx p last_raiser next,
     Inv g → players g !! idx = Some p →
     source t g idx (current_bet g - Player.current_bet p) = Some a →
     process_action a g idx last_raiser (current_bet g - Player.current_bet p)
     = Some next →
     Inv (game_of next)) →
  ∀ fuel g idx last_raiser turns result g' turns',
    Inv g →
    betting_loop source fuel g idx last_raiser turns = Returned result g' turns' →
    Inv g'.
Proof.
  intros Hset Hact. induction fuel as [|fuel IH];
    intros g idx last_raiser turns result g' turns' Hinv; [done|].
  cbn [betting_loop]. destruct (players g !! idx) as [p|] eqn:Hp; [|done].
  destruct (negb (Player.is_active p)); [by apply IH|].
  case_bool_decide.
  { intros [= <- <- <-]. by apply Hset. }
  destruct (source _ _ _ _) as [a|] eqn:Ha; [|done].
  destruct (process_action _ _ _ _ _) as [[g1 lr1|g1]|] eqn:Hnext; [| |done].
  - apply IH. apply (Hact _ _ _ _ p _ _ (Hset _ idx Hinv) Hp Ha Hnext).
  - intros [= <- <- <-]. apply (Hact _ _ _ _ p _ _ (Hset _ idx Hinv) Hp Ha Hnext).
Qed.

Lemma total_bets_nonneg (ps : list Player.t) :
  Forall (λ p, 0 ≤ Player.chips p ∧ 0 ≤ Player.current_bet p) ps →
  0 ≤ total_bets ps.
Proof.
  induction 1 as [|p ps [_ Hp] _ IH]; [done|]. rewrite total_bets_cons. lia.
Qed.

(** A bet that brings the player's own bet to a level that is not
    negative leaves the player out of debt. *)
Lemma bet_at_sound seat amount (ps ps' : list Player.t) paid p :
  ps !! seat = Some p →
  0 ≤ Player.current_bet p + amount →
  Forall (λ p, 0 ≤ Player.chips p ∧ 0 ≤ Player.current_bet p) ps →
  bet_at seat amount ps = Some (paid, ps') →
  Forall (λ p, 0 ≤ Player.chips p ∧ 0 ≤ Player.current_bet p) ps'
  ∧ ∃ p', ps' !! seat = Some p' ∧ 0 ≤ Player.current_bet p'.
Proof.
  intros Hp Hlevel Hall. unfold bet_at. rewrite Hp. cbn [mbind option_bind].
  unfold Player.place_bet. intros [= <- <-].
  rewrite Forall_forall in Hall.
  destruct (Hall p) as [Hchips Hbet]; [by eapply list_elem_of_lookup_2|].
  assert (Hnew : 0 ≤ Player.chips p
                     - (if Player.chips p <? amount then Player.chips p else amount)
                 ∧ 0 ≤ Player.current_bet p
                       + (if Player.chips p <? amount then Player.chips p
                          else amount))
    by (destruct (Z.ltb_spec (Player.chips p) amount); lia).
  split.
  - apply Forall_insert; [by apply Forall_forall|]. done.
  - eexists. split; [apply list_lookup_insert_eq; by eapply lookup_lt_Some|].
    apply Hnew.
Qed.

Lemma process_action_sound a g idx p last_raiser next :
  out_of_debt g → players g !! idx = Some p →
  (∀ amount, a = Raise amount → 0 ≤ amount) →
  process_action a g idx last_raiser (current_bet g - Player.current_bet p)
  = Some next →
  out_of_debt (game_of next).
Proof.
  intros (Hall & Hbet & Hblind & Hpot) Hp Hraise Hnext.
  pose proof (process_action_pot_bets _ _ _ _ _ _ Hnext) as Hpot'.
  assert (Hpot'' : pot (game_of next) = total_bets (players (game_of next)))
    by lia.
  clear Hpot'. revert Hnext Hpot''.
  destruct a as [| | |amount]; cbn [process_action].
  - destruct (_ =? 1)%nat; intros [= <-] Hpot'; cbn [game_of] in *;
      (split_and!; [|done|done|done]); cbn [players set_players];
      apply Forall_alter; try done; by intros q _ ?.
  - by intros [= <-] Hpot'.
  - destruct (bet_at idx _ (players g)) as [[bet ps]|] eqn:Hbet_at; [|done].
    cbn [mbind option_bind]. intros [= <-] Hpot'. cbn [game_of] in *.
    apply (bet_at_sound _ _ _ _ _ p Hp) in Hbet_at as [Hall' _];
      [|lia|done].
    by split_and!.
  - destruct (bet_at idx _ (players g)) as [[bet ps]|] eqn:Hbet_at; [|done].
    cbn [mbind option_bind].
    apply (bet_at_sound _ _ _ _ _ p Hp) in Hbet_at
      as [Hall' (p' & Hp' & Hbet')]; [| |done].
    2: { specialize (Hraise amount eq_refl). lia. }
    rewrite Hp'. cbn [mbind option_bind]. intros [= <-] Hpot'.
    cbn [game_of] in *. by split_and!.
Qed.

Lemma deal_to_sound seat g g' :
  out_of_debt g → deal_to seat g = Some g' → out_of_debt g'.
Proof.
  intros (Hall & Hbet & Hblind & Hpot) Hdeal.
  pose proof (deal_to_pot_bets _ _ _ Hdeal) as Hpot'.
  revert Hdeal Hpot'. unfold deal_to.
  destruct (Deck.deal 1 (deck g)) as [[dealt rest]|]; [|done].
  cbn [mbind option_bind]. destruct dealt as [|c|]; try done.
  intros [= <-] Hpot'. split_and!; try done; [|lia].
  cbn [players set_deck set_players]. apply Forall_alter; [done|].
  by intros q _ ?.
Qed.

Lemma post_blinds_sound g g' :
  0 ≤ small_blind g → out_of_debt g → post_blinds g = Some g' → out_of_debt g'.
Proof.
  intros Hsmall (Hall & Hbet & Hblind & Hpot) Hpost.
  pose proof (post_blinds_pot_bets _ _ Hpost) as Hpot'.
  revert Hpost Hpot'. unfold post_blinds.
  destruct (py_mod (dealer_idx g + 1) _) as [sb_idx|]; [|done].
  destruct (py_mod (dealer_idx g + 2) _) as [bb_idx|]; [|done].
  cbn [mbind option_bind].
  destruct (bet_at sb_idx _ _) as [[sb ps]|] eqn:Hsb; [|done].
  cbn [mbind option_bind].
  destruct (bet_at bb_idx _ ps) as [[bb ps']|] eqn:Hbb; [|done].
  cbn [mbind option_bind].
  destruct (py_mod (bb_idx + 1) _) as [first|]; [|done].
  cbn [mbind option_bind]. intros [= <-] Hpot'.
  assert (Hseat : ∀ (qs qs' : list Player.t) seat amount paid,
            0 ≤ amount →
            Forall (λ p, 0 ≤ Player.chips p ∧ 0 ≤ Player.current_bet p) qs →
            bet_at seat amount qs = Some (paid, qs') →
            Forall (λ p, 0 ≤ Player.chips p ∧ 0 ≤ Player.current_bet p) qs').
  { intros qs qs' seat amount paid Hamount Hqs Hbet_at.
    destruct (qs !! seat) as [q|] eqn:Hq;
      [|unfold bet_at in Hbet_at; by rewrite Hq in Hbet_at].
    apply (bet_at_sound _ _ _ _ _ q Hq) in Hbet_at as [? _]; [done| |done].
    rewrite Forall_forall in Hqs.
    destruct (Hqs q); [by eapply list_elem_of_lookup_2|]. lia. }
  unfold out_of_debt.
  cbn [players pot current_bet big_blind set_current_player_idx
       set_current_bet set_pot set_players] in *.
  split_and!; [|done|done|lia].
  eapply Hseat; [exact Hblind| |exact Hbb].
  eapply Hseat; [exact Hsmall|exact Hall|exact Hsb].
Qed.

Lemma start_new_round_sound fresh_deck g g' :
  0 ≤ small_blind g → 0 ≤ big_blind g →
  start_new_round fresh_deck g = Some (true, g') → out_of_debt g'.
Proof.
  intros Hsmall Hbig Hstart. apply start_new_round_cases in Hstart.
  destruct Hstart as [(? & _)|(_ & _ & dealer & g1 & _ & Hdeal & Hblinds)];
    [done|].
  assert (Hsmall1 : small_blind g1 = small_blind g
                    ∧ out_of_debt g1).
  { revert Hdeal.
    apply (deal_hands_keeps (λ h, small_blind h = small_blind g ∧ out_of_debt h)).
    - intros seat h h' [Hsb Hh] Hto. split; [|by eapply deal_to_sound].
      revert Hto. unfold deal_to.
      destruct (Deck.deal 1 (deck h)) as [[dealt rest]|]; [|done].
      cbn [mbind option_bind]. destruct dealt; try done. by intros [= <-].
    - split; [done|]. split_and!; cbn [players set_dealer_idx]; try done.
      + induction (players g) as [|p ps IH]; [done|].
        cbn [map]. rewrite filter_cons. case_decide as Hpos; [|done].
        constructor; [|done]. cbn [Player.clear_hand Player.chips
                                    Player.current_bet] in *. lia.
      + cbn [pot]. by rewrite total_bets_cleared. }
  destruct Hsmall1 as [Hsb Hsound].
  apply (post_blinds_sound g1); [lia|done|done].
Qed.

Lemma determine_winners_solvent g g' :
  out_of_debt g → determine_winners g = Some g' →
  Forall (λ p, 0 ≤ Player.chips p) (players g') ∧ 0 ≤ pot g'.
Proof.
  intros (Hall & _ & _ & Hpot) Hwin.
  pose proof (total_bets_nonneg _ Hall) as Hbets.
  pose proof (determine_winners_pot_bets _ _ Hwin) as [Hpot' _].
  split; [|lia]. revert Hwin.
  assert (Hchips : Forall (λ p, 0 ≤ Player.chips p) (players g)).
  { eapply Forall_impl; [exact Hall|]. by intros p [? _]. }
  assert (Hpay : ∀ n w (ps : list Player.t),
            0 ≤ n → Forall (λ p, 0 ≤ Player.chips p) ps →
            Forall (λ p, 0 ≤ Player.chips p) (alter (Player.add_chips n) w ps)).
  { intros n w ps Hn Hps. apply Forall_alter; [done|].
    intros q _ Hq. cbn [Player.add_chips Player.chips]. lia. }
  assert (Hshow :
    (winners ← showdown_winners g (active_seats (players g));
     ps ← split_pot (pot g) winners (players g);
     Some (set_players ps g)) = Some g' →
    Forall (λ p, 0 ≤ Player.chips p) (players g')).
  { destruct (showdown_winners _ _) as [winners|]; [|done].
    cbn [mbind option_bind]. unfold split_pot.
    destruct (Z.eqb_spec (Z.of_nat (length winners)) 0) as [|Hcount]; [done|].
    assert (Hshare : 0 ≤ pot g / Z.of_nat (length winners))
      by (apply Z.div_pos; lia).
    assert (Hpaid : Forall (λ p, 0 ≤ Player.chips p)
              (foldl (λ ps w, alter (Player.add_chips
                                       (pot g / Z.of_nat (length winners))) w ps)
                     (players g) winners)).
    { revert Hshare. generalize (pot g / Z.of_nat (length winners)).
      intros n Hn. generalize (players g) Hchips.
      clear Hcount. induction winners as [|w winners IH];
        intros ps Hps; [done|]. cbn [foldl]. apply IH. by apply Hpay. }
    destruct (Z.ltb_spec 0 (pot g mod Z.of_nat (length winners))).
    - destruct (head winners) as [w0|]; [|done]. cbn [mbind option_bind].
      intros [= <-]. cbn [players set_players]. apply Hpay; [lia|done].
    - cbn [mbind option_bind]. by intros [= <-]. }
  unfold determine_winners.
  destruct (active_seats (players g)) as [|w [|w' rest]]; try done.
  intros [= <-]. cbn [players set_players]. apply Hpay; [lia|done].
Qed.

Lemma start_new_round_solvent fresh_deck g g' :
  start_new_round fresh_deck g = Some (false, g') →
  Forall (λ p, 0 ≤ Player.chips p) (players g') ∧ 0 ≤ pot g'.
Proof.
  intros Hstart. apply start_new_round_cases in Hstart.
  destruct Hstart as [(_ & -> & _)|(? & _)]; [|done].
  split; [|done]. cbn [players].
  induction (players g) as [|p ps IH]; [done|].
  cbn [map]. rewrite filter_cons. case_decide as Hpos; [|done].
  constructor; [|done]. cbn [Player.clear_hand Player.chips] in *. lia.
Qed.

(** X17. Nobody ends a round in debt.  With blinds that are not
    negative, and decisions whose raises are not negative as long as the
    raiser's stack and the big blind are not, which is so for what
    [ai_decision] returns and what [human_decision] accepts: when
    [play_round] returns, no stack at the table is negative, and neither
    is the pot. *)
Theorem nobody_ends_in_debt (fresh_deck : list Card)
    (decide : nat → nat → Game.t → nat → Z → option Action) (fuel : nat)
    (g g' : Game.t) (result : bool) :
  0 ≤ small_blind g → 0 ≤ big_blind g →
  (∀ s t h seat p amount_to_call amount,
     players h !! seat = Some p → 0 ≤ Player.chips p → 0 ≤ big_blind h →
     decide s t h seat amount_to_call = Some (Raise amount) → 0 ≤ amount) →
  play_round fresh_deck decide fuel g = RoundReturned result g' →
  Forall (λ p, 0 ≤ Player.chips p) (players g') ∧ 0 ≤ pot g'.
Proof.
  intros Hsmall Hbig Hraise.
  apply (play_round_keeps out_of_debt
           (λ _ h, Forall (λ p, 0 ≤ Player.chips p) (players h) ∧ 0 ≤ pot h)).
  - intros g0. by apply start_new_round_sound.
  - intros g0. apply start_new_round_solvent.
  - intros s g1 flag g2 turns H1. unfold betting_round.
    destruct (_ <=? 1)%nat; [by intros [= <- <- <-]|].
    apply (betting_loop_keeps_decided out_of_debt); [done| |done].
    intros t a h idx p lr next Hh Hp Ha Hnext.
    apply (process_action_sound a h idx p lr next Hh Hp); [|done].
    intros amount ->. destruct Hh as (Hall & _ & Hblind & _).
    rewrite Forall_forall in Hall.
    destruct (Hall p) as [Hchips _]; [by eapply list_elem_of_lookup_2|].
    by eapply Hraise.
  - intros g1 g2 H1 Hflop. revert Hflop H1. unfold deal_flop.
    destruct (Deck.deal 3 (deck g1)) as [[dealt rest]|]; [|done].
    cbn [mbind option_bind]. destruct dealt; try done. by intros [= <-].
  - intros g1 g2 H1 Hcard. revert Hcard H1. unfold deal_street.
    destruct (Deck.deal 1 (deck g1)) as [[dealt rest]|]; [|done].
    cbn [mbind option_bind]. destruct dealt; try done. by intros [= <-].
  - intros g1 g2. apply determine_winners_solvent.
Qed.

(** What [ai_decision] raises by is not negative. *)
Lemma automated_raise_not_negative (draws : nat → Q) t h seat p
    amount_to_call amount :
  players h !! seat = Some p → 0 ≤ Player.chips p → 0 ≤ big_blind h →
  automated draws t h seat amount_to_call = Some (Raise amount) → 0 ≤ amount.
Proof.
  intros Hp Hchips Hblind. unfold automated. rewrite Hp.
  cbn [mbind option_bind]. unfold ai_decision.
  destruct (evaluate_hand _) as [[hand_rank tie_breakers]|]; [|done].
  cbn [mbind option_bind].
  repeat match goal with
         | |- context [if ?b then _ else _] => destruct b
         | |- context [?o ≫= _] => destruct o; cbn [mbind option_bind]
         end;
    try done; intros [= <-]; lia.
Qed.

(** What [human_decision] accepts as a raise is positive. *)
Lemma accepted_raise_positive (actions : list Action) t h seat
    amount_to_call amount :
  scripted_checked actions t h seat amount_to_call = Some (Raise amount) →
  0 < amount.
Proof.
  unfold scripted_checked.
  destruct (actions !! t) as [a|]; [|done]. cbn [mbind option_bind].
  destruct (players h !! seat) as [p|]; [|done]. cbn [mbind option_bind].
  destruct (human_accepts p amount_to_call a) eqn:Hok; [|done].
  intros [= ->]. cbn [human_accepts] in Hok.
  apply andb_true_iff in Hok as [[_ Hpos%Z.ltb_lt]%andb_true_iff _]. done.
Qed.

(** Four automated players, two of them short of chips, who see the round
    through to the showdown. *)
Lemma nobody_ends_in_debt_witness :
  let g :=
    Game.mk [Player.new 1000 true; Player.new 30 true; Player.new 1000 true;
             Player.new 8 true]
            [] [] 0 0 0 0 5 10 in
  let decide := λ _ : nat, automated (λ _, 1%Q) in
  ∃ g',
    play_round all_cards decide 30 g = RoundReturned true g'
    ∧ Player.chips <$> players g' = [1001; 29; 999; 9]
    ∧ Forall (λ p, 0 ≤ Player.chips p) (players g') ∧ 0 ≤ pot g'.
Proof.
  intros g decide. eexists. split; [vm_compute; reflexivity|].
  split; [reflexivity|].
  apply (nobody_ends_in_debt all_cards decide 30 g _ true).
  - simpl. lia.
  - simpl. lia.
  - intros s. apply automated_raise_not_negative.
  - vm_compute. reflexivity.
Defined.

End Solvency.

(** ** From the first round to the last *)

Section WholeGame.
Import Game.

Lemma total_chips_replicate (n : nat) (p : Player.t) :
  total_chips (replicate n p) = Z.of_nat n * Player.chips p.
Proof.
  induction n as [|n IH]; [done|].
  cbn [replicate]. rewrite total_chips_cons, IH. lia.
Qed.

(** What the start of a round leaves alone. *)
Lemma start_new_round_frame fresh_deck g result g' :
  start_new_round fresh_deck g = Some (result, g') →
  small_blind g' = small_blind g ∧ big_blind g' = big_blind g
  ∧ (length (players g') ≤ length (players g))%nat.
Proof.
  intros Hstart. apply start_new_round_cases in Hstart.
  assert (Hlen : (length (filter (λ p, (0 < Player.chips p)%Z)
                            (map Player.clear_hand (players g)))
                  ≤ length (players g))%nat).
  { etrans; [apply length_filter|]. by rewrite length_map. }
  destruct Hstart as [(_ & -> & _)|(_ & _ & dealer & g1 & _ & Hdeal & Hblinds)];
    [done|].
  assert (H1 : small_blind g1 = small_blind g ∧ big_blind g1 = big_blind g
               ∧ (length (players g1) ≤ length (players g))%nat).
  { revert Hdeal.
    apply (deal_hands_keeps
             (λ h, small_blind h = small_blind g ∧ big_blind h = big_blind g
                   ∧ (length (players h) ≤ length (players g))%nat)); [|done].
    intros seat h h' Hh. unfold deal_to.
    destruct (Deck.deal 1 (deck h)) as [[dealt rest]|]; [|done].
    cbn [mbind option_bind]. destruct dealt; try done. intros [= <-].
    cbn [players small_blind big_blind set_deck set_players].
    by rewrite length_alter. }
  destruct H1 as (Hsb & Hbb & Hlen1). revert Hblinds. unfold post_blinds.
  destruct (py_mod (dealer_idx g1 + 1) _) as [sb_idx|]; [|done].
  destruct (py_mod (dealer_idx g1 + 2) _) as [bb_idx|]; [|done].
  cbn [mbind option_bind].
  destruct (bet_at sb_idx _ _) as [[sb ps]|] eqn:Hsbet; [|done].
  cbn [mbind option_bind].
  destruct (bet_at bb_idx _ ps) as [[bb ps']|] eqn:Hbbet; [|done].
  cbn [mbind option_bind].
  destruct (py_mod (bb_idx + 1) _) as [first|]; [|done].
  cbn [mbind option_bind]. intros [= <-].
  apply bet_at_total in Hsbet as [_ Hl1]. apply bet_at_total in Hbbet as [_ Hl2].
  cbn [players small_blind big_blind set_current_player_idx set_current_bet
       set_pot set_players].
  split_and!; [done|done|lia].
Qed.

(** What a street leaves alone. *)
Lemma betting_round_frame source fuel g result g' turns :
  betting_round source fuel g = Returned result g' turns →
  small_blind g' = small_blind g ∧ big_blind g' = big_blind g
  ∧ length (players g') = length (players g).
Proof.
  apply (betting_round_keeps
           (λ h, small_blind h = small_blind g ∧ big_blind h = big_blind g
                 ∧ length (players h) = length (players g))); [done| |done].
  intros a h idx lr amt next (Hsb & Hbb & Hlen) Hnext.
  destruct (process_action_same_cards _ _ _ _ _ _ Hnext)
    as (_ & _ & _ & Hsb' & Hbb' & Hhands).
  split_and!; [congruence|congruence|].
  rewrite <- Hlen, <- !(length_fmap Player.hand). by rewrite Hhands.
Qed.

Lemma betting_round_out_of_debt source fuel g result g' turns :
  (∀ t h seat p amount_to_call amount,
     players h !! seat = Some p → 0 ≤ Player.chips p → 0 ≤ big_blind h →
     source t h seat amount_to_call = Some (Raise amount) → 0 ≤ amount) →
  out_of_debt g →
  betting_round source fuel g = Returned result g' turns →
  out_of_debt g'.
Proof.
  intros Hraise Hg. unfold betting_round.
  destruct (_ <=? 1)%nat; [by intros [= <- <- <-]|].
  apply (betting_loop_keeps_decided out_of_debt); [done| |done].
  intros t a h idx p lr next Hh Hp Ha Hnext.
  apply (process_action_sound a h idx p lr next Hh Hp); [|done].
  intros amount ->. destruct Hh as (Hall & _ & Hblind & _).
  rewrite Forall_forall in Hall.
  destruct (Hall p) as [Hchips _]; [by eapply list_elem_of_lookup_2|].
  by eapply Hraise.
Qed.

(** What the settlement leaves alone. *)
Lemma determine_winners_frame g g' :
  determine_winners g = Some g' →
  small_blind g' = small_blind g ∧ big_blind g' = big_blind g
  ∧ length (players g') = length (players g).
Proof.
  unfold determine_winners.
  assert (Hshow :
    (winners ← showdown_winners g (active_seats (players g));
     ps ← split_pot (pot g) winners (players g);
     Some (set_players ps g)) = Some g' →
    small_blind g' = small_blind g ∧ big_blind g' = big_blind g
    ∧ length (players g') = length (players g)).
  { destruct (showdown_winners _ _) as [winners|]; [|done].
    cbn [mbind option_bind]. unfold split_pot.
    destruct (_ =? 0); [done|].
    destruct (0 <? _).
    - destruct (head winners) as [w0|]; [|done]. cbn [mbind option_bind].
      intros [= <-]. cbn [players small_blind big_blind set_players].
      by rewrite length_alter, length_pay_all.
    - cbn [mbind option_bind]. intros [= <-].
      cbn [players small_blind big_blind set_players].
      by rewrite length_pay_all. }
  destruct (active_seats (players g)) as [|w [|w' rest]]; try done.
  intros [= <-]. cbn [players small_blind big_blind set_players].
  by rewrite length_alter.
Qed.

(** A round, as the rounds before and after it see it. *)
Lemma play_round_table fresh_deck
    (decide : nat → nat → Game.t → nat → Z → option Action) fuel g result g' :
  0 ≤ small_blind g → 0 ≤ big_blind g →
  (∀ s t h seat p amount_to_call amount,
     players h !! seat = Some p → 0 ≤ Player.chips p → 0 ≤ big_blind h →
     decide s t h seat amount_to_call = Some (Raise amount) → 0 ≤ amount) →
  Forall (λ p, 0 ≤ Player.chips p) (players g) →
  play_round fresh_deck decide fuel g = RoundReturned result g' →
  Forall (λ p, 0 ≤ Player.chips p) (players g')
  ∧ total_chips (players g') = total_chips (players g)
  ∧ small_blind g' = small_blind g ∧ big_blind g' = big_blind g
  ∧ (length (players g') ≤ length (players g))%nat.
Proof.
  intros Hsmall Hbig Hraise Hchips.
  apply (play_round_keeps
           (λ h, out_of_debt h
                 ∧ total_chips (players h) + pot h = total_chips (players g)
                 ∧ small_blind h = small_blind g ∧ big_blind h = big_blind g
                 ∧ (length (players h) ≤ length (players g))%nat)
           (λ _ h, Forall (λ p, 0 ≤ Player.chips p) (players h)
                   ∧ total_chips (players h) = total_chips (players g)
                   ∧ small_blind h = small_blind g ∧ big_blind h = big_blind g
                   ∧ (length (players h) ≤ length (players g))%nat)).
  - intros g0 Hstart.
    split; [apply (start_new_round_sound _ _ _ Hsmall Hbig Hstart)|].
    split; [apply (start_new_round_total_chips _ _ _ _ Hchips Hstart)|].
    apply (start_new_round_frame _ _ _ _ Hstart).
  - intros g0 Hstart.
    pose proof (start_new_round_solvent _ _ _ Hstart) as [? _].
    pose proof (start_new_round_total_chips _ _ _ _ Hchips Hstart).
    pose proof (start_new_round_false _ _ _ Hstart).
    pose proof (start_new_round_frame _ _ _ _ Hstart).
    split; [done|]. split; [lia|done].
  - intros s g1 flag g2 turns (Hdebt & Htotal & Hsb & Hbb & Hlen) Hround.
    pose proof (betting_round_frame _ _ _ _ _ _ Hround) as (? & ? & ?).
    pose proof (betting_round_total_chips _ _ _ _ _ _ Hround).
    split; [apply (betting_round_out_of_debt _ _ _ _ _ _ (Hraise s) Hdebt Hround)|].
    split_and!; [lia|congruence|congruence|lia].
  - intros g1 g2 (Hdebt & Htotal & Hsb & Hbb & Hlen). unfold deal_flop.
    destruct (Deck.deal 3 (deck g1)) as [[dealt rest]|]; [|done].
    cbn [mbind option_bind]. destruct dealt; try done. by intros [= <-].
  - intros g1 g2 (Hdebt & Htotal & Hsb & Hbb & Hlen). unfold deal_street.
    destruct (Deck.deal 1 (deck g1)) as [[dealt rest]|]; [|done].
    cbn [mbind option_bind]. destruct dealt; try done. by intros [= <-].
  - intros g1 g2 (Hdebt & Htotal & Hsb & Hbb & Hlen) Hwin.
    pose proof (determine_winners_solvent _ _ Hdebt Hwin) as [? _].
    pose proof (determine_winners_total_chips _ _ Hwin) as [? _].
    pose proof (determine_winners_frame _ _ Hwin) as (? & ? & ?).
    split_and!; [done|lia|congruence|congruence|lia].
Qed.

(** X18. A game keeps its chips in play.  [setup_game] seats
    [num_players] players with 1000 chips each; with blinds that are not
    negative and raises that are not either, when [play_game] leaves its
    loop, after however many rounds, the stacks of the players still at
    the table add up to [1000 * num_players], none of them is negative,
    and nobody has joined the table. *)
Theorem game_keeps_chips_in_play (num_players small_blind big_blind : Z)
    (fresh_decks : nat → list Card)
    (decide : nat → nat → nat → Game.t → nat → Z → option Action)
    (play_again : nat → bool) (street_fuel fuel : nat)
    (g' : Game.t) (rounds : nat) :
  1 ≤ num_players → 0 ≤ small_blind → 0 ≤ big_blind →
  (∀ r s t h seat p amount_to_call amount,
     players h !! seat = Some p → 0 ≤ Player.chips p → 0 ≤ Game.big_blind h →
     decide r s t h seat amount_to_call = Some (Raise amount) → 0 ≤ amount) →
  play_game fresh_decks decide play_again street_fuel fuel 0
            (new_game num_players small_blind big_blind)
  = GameOver g' rounds →
  total_chips (players g') = 1000 * num_players
  ∧ Forall (λ p, 0 ≤ Player.chips p) (players g')
  ∧ (length (players g') ≤ Z.to_nat num_players)%nat
  ∧ (1 ≤ rounds ≤ fuel)%nat.
Proof.
  intros Hplayers Hsmall Hbig Hraise.
  set (g := new_game num_players small_blind big_blind).
  assert (Htable :
    Forall (λ p, 0 ≤ Player.chips p) (players g)
    ∧ total_chips (players g) = 1000 * num_players
    ∧ Game.small_blind g = small_blind ∧ Game.big_blind g = big_blind
    ∧ (length (players g) ≤ Z.to_nat num_players)%nat).
  { subst g. unfold new_game. cbn [players Game.small_blind Game.big_blind].
    split_and!; try done.
    - constructor; [simpl; lia|]. apply Forall_replicate. simpl. lia.
    - rewrite total_chips_cons, total_chips_replicate. simpl. lia.
    - cbn [length]. rewrite length_replicate. lia. }
  assert (Hloop : ∀ fuel round g,
    Forall (λ p, 0 ≤ Player.chips p) (players g)
    ∧ total_chips (players g) = 1000 * num_players
    ∧ Game.small_blind g = small_blind ∧ Game.big_blind g = big_blind
    ∧ (length (players g) ≤ Z.to_nat num_players)%nat →
    play_game fresh_decks decide play_again street_fuel fuel round g
    = GameOver g' rounds →
    total_chips (players g') = 1000 * num_players
    ∧ Forall (λ p, 0 ≤ Player.chips p) (players g')
    ∧ (length (players g') ≤ Z.to_nat num_players)%nat
    ∧ (round + 1 ≤ rounds ≤ round + fuel)%nat).
  { clear g Htable fuel. induction fuel as [|fuel IH];
      intros round g (Hchips & Htotal & Hsb & Hbb & Hlen); [done|].
    cbn [play_game].
    destruct (play_round _ _ _ g) as [flag g1| |] eqn:Hround; [|done|done].
    apply play_round_table in Hround
      as (Hchips1 & Htotal1 & Hsb1 & Hbb1 & Hlen1);
      [|lia|lia|apply Hraise|done].
    assert (Hover : GameOver g1 (S round) = GameOver g' rounds →
      total_chips (players g') = 1000 * num_players
      ∧ Forall (λ p, 0 ≤ Player.chips p) (players g')
      ∧ (length (players g') ≤ Z.to_nat num_players)%nat
      ∧ (round + 1 ≤ rounds ≤ round + S fuel)%nat).
    { intros [= <- <-]. split_and!; [lia|done|lia|lia|lia]. }
    destruct flag; [|done].
    destruct (human_players (players g1)); [done|].
    destruct (play_again round); [|done].
    intros Hrest. apply IH in Hrest; [|split_and!; [done|lia|lia|lia|lia]].
    destruct Hrest as (? & ? & ? & ?). split_and!; [done|done|done|lia|lia]. }
  intros Hgame. apply Hloop in Hgame; [|done].
  destruct Hgame as (? & ? & ? & ?). split_and!; [done|done|done|lia|lia].
Qed.

(** Three rounds among the player at the keyboard and two automated
    players, the deck turned over every other round. *)
Lemma game_keeps_chips_in_play_witness :
  let fresh_decks := λ r : nat,
    if Nat.even r then all_cards else reverse all_cards in
  let decide := λ _ _ : nat, automated (λ _, 1%Q) in
  let play_again := λ r : nat, (r <? 2)%nat in
  ∃ g',
    play_game fresh_decks decide play_again 30 5 0 (new_game 3 5 10)
    = GameOver g' 3
    ∧ Player.chips <$> players g' = [990; 990; 1020]
    ∧ total_chips (players g') = 1000 * 3
    ∧ Forall (λ p, 0 ≤ Player.chips p) (players g')
    ∧ (length (players g') ≤ Z.to_nat 3)%nat
    ∧ (1 ≤ 3 ≤ 5)%nat.
Proof.
  intros fresh_decks decide play_again. eexists.
  split; [vm_compute; reflexivity|]. split; [reflexivity|].
  apply (game_keeps_chips_in_play 3 5 10 fresh_decks decide play_again 30 5).
  - lia.
  - lia.
  - lia.
  - intros r s. apply automated_raise_not_negative.
  - vm_compute. reflexivity.
Defined.

End WholeGame.

(** ** A street that leaves the bets settled *)

Section SettledBets.
Import Game.

Variable source : nat → Game.t → nat → Z → option Action.

(** Every decision is one that [human_decision] would let through. *)
Hypothesis decisions_accepted :
  ∀ t h seat p amount_to_call a,
    players h !! seat = Some p →
    source t h seat amount_to_call = Some a →
    human_accepts p amount_to_call a = true.

(** An accepted decision leaves its player level with the table or out
    of the hand; short of a raise, it leaves the others and the table's
    bet as they were. *)
Lemma accepted_step a g idx last_raiser p next :
  players g !! idx = Some p →
  human_accepts p (current_bet g - Player.current_bet p) a = true →
  process_action a g idx last_raiser (current_bet g - Player.current_bet p)
  = Some next →
  (∃ g', next = OneLeft g')
  ∨ ∃ g' last_raiser',
      next = KeepBetting g' last_raiser'
      ∧ length (players g') = length (players g)
      ∧ bet_matched g' idx
      ∧ (last_raiser' = Some idx
         ∨ (last_raiser' = last_raiser
            ∧ current_bet g' = current_bet g
            ∧ ∀ seat, seat ≠ idx → players g' !! seat = players g !! seat)).
Proof.
  intros Hp Hok.
  assert (Hidx : (idx < length (players g))%nat) by by eapply lookup_lt_Some.
  destruct a as [| | |amount]; cbn [human_accepts process_action] in *.
  - cbv zeta. cbn [players set_players].
    destruct (_ =? 1)%nat; intros [= <-]; [left; by eexists|].
    right. eexists _, _. split; [done|]. cbn [players set_players current_bet].
    split_and!.
    + by rewrite length_alter.
    + unfold bet_matched. cbn [players set_players].
      intros q. rewrite list_lookup_alter_eq, Hp. by intros [= <-].
    + right. split_and!; [done|done|].
      intros seat Hseat. by rewrite list_lookup_alter_ne.
  - intros [= <-]. apply Z.eqb_eq in Hok. right. eexists _, _.
    split; [done|]. split_and!; [done| |by right].
    intros q Hq _. assert (q = p) as -> by congruence. lia.
  - apply andb_true_iff in Hok as [_ Hle%Z.leb_le].
    unfold bet_at. rewrite Hp. cbn [mbind option_bind].
    rewrite (place_bet_covered _ _ Hle). cbn [mbind option_bind].
    intros [= <-]. right. eexists _, _. split; [done|].
    cbn [players set_players set_pot current_bet]. split_and!.
    + by rewrite length_insert.
    + unfold bet_matched. cbn [players set_players set_pot current_bet].
      intros q. rewrite list_lookup_insert_eq by done. intros [= <-] _.
      cbn [Player.current_bet]. lia.
    + right. split_and!; [done|done|].
      intros seat Hseat. by rewrite list_lookup_insert_ne.
  - apply andb_true_iff in Hok as [_ Hle%Z.leb_le].
    unfold bet_at. rewrite Hp. cbn [mbind option_bind].
    rewrite (place_bet_covered _ _ Hle). cbn [mbind option_bind].
    rewrite list_lookup_insert_eq by done. cbn [mbind option_bind].
    intros [= <-]. right. eexists _, _. split; [done|].
    cbn [players set_players set_pot set_current_bet current_bet
         Player.current_bet].
    split_and!.
    + by rewrite length_insert.
    + unfold bet_matched.
      cbn [players set_players set_pot set_current_bet current_bet].
      intros q. rewrite list_lookup_insert_eq by done. by intros [= <-] _.
    + by left.
Qed.

Lemma next_seat_sum (m lr k : nat) :
  (((lr + k) mod m + 1) mod m = (lr + S k) mod m)%nat.
Proof. rewrite Nat.Div0.add_mod_idemp_l. f_equal. lia. Qed.

Lemma round_the_table (m lr k : nat) :
  (lr < m → 1 ≤ k → (lr + k) mod m = lr → m ≤ k)%nat.
Proof.
  intros Hlr Hk Hback.
  pose proof (Nat.div_mod_eq (lr + k) m) as Hdm. rewrite Hback in Hdm.
  destruct ((lr + k) / m)%nat as [|q]; [lia|]. nia.
Qed.

(** Once somebody has acted: [k] seats from [target] on are level with
    the table or out of the hand, and the turn is with the next one. *)
Lemma street_settles (fuel : nat) : ∀ (g : Game.t) (target k turns : nat) g' turns',
  let m := length (players g) in
  (target < m)%nat → (1 ≤ k)%nat →
  (∀ j, (j < k)%nat → bet_matched g ((target + j) mod m)) →
  betting_loop source fuel g ((target + k) mod m) (Some target) turns
  = Returned true g' turns' →
  bets_settled g'.
Proof.
  induction fuel as [|fuel IH]; intros g target k turns g' turns' m Htarget Hk
    Hmatched; [done|].
  cbn [betting_loop]. fold m.
  destruct (players g !! ((target + k) mod m)%nat) as [p|] eqn:Hp; [|done].
  destruct (Player.is_active p) eqn:Hactive; cbn [negb].
  2: { rewrite next_seat_sum. apply IH; [done|lia|].
       intros j Hj. destruct (decide (j = k)) as [->|]; [|apply Hmatched; lia].
       intros q Hq Hq'. fold m in Hq.
       assert (q = p) as -> by congruence. congruence. }
  case_bool_decide as Hback.
  { intros [= <- <-]. injection Hback as Hback. symmetry in Hback.
    apply round_the_table in Hback; [|done|done].
    unfold bets_settled. cbn [players current_bet set_current_player_idx].
    apply Forall_lookup. intros seat q Hq.
    assert (Hseat : (seat < m)%nat) by by eapply lookup_lt_Some.
    assert (Hgap : (gap m target seat < m)%nat)
      by (unfold gap; apply Nat.mod_upper_bound; lia).
    pose proof (Hmatched (gap m target seat) ltac:(lia)) as Hm.
    rewrite gap_reach in Hm by done. by apply Hm. }
  change (default ((target + k) mod m)%nat (Some target)) with target.
  destruct (source _ _ _ _) as [a|] eqn:Ha; [|done].
  apply (decisions_accepted _ _ _ p) in Ha; [|done].
  cbn [current_bet set_current_player_idx] in Ha |- *.
  destruct (process_action _ _ _ _ _) as [next|] eqn:Hnext; [|done].
  apply (accepted_step a (set_current_player_idx _ g) _ _ p) in Hnext;
    [|done|done].
  destruct Hnext as [[g1 ->]|(g1 & lr1 & -> & Hlen & Hidx & Hrest)]; [done|].
  cbn [players set_current_player_idx] in Hlen, Hidx, Hrest.
  assert (Hseat : ((target + k) mod m < m)%nat) by by eapply lookup_lt_Some.
  destruct Hrest as [->|(-> & Hbet & Hothers)].
  - replace (((target + k) mod m + 1) mod m)%nat
      with (((target + k) mod m + 1) mod length (players g1))%nat
      by by rewrite Hlen.
    apply IH; [by rewrite Hlen|lia|].
    intros j Hj. assert (j = 0%nat) as -> by lia.
    rewrite Nat.add_0_r, Hlen. fold m.
    by rewrite (Nat.mod_small _ _ Hseat).
  - rewrite next_seat_sum.
    replace ((target + S k) mod m)%nat
      with ((target + S k) mod length (players g1))%nat by by rewrite Hlen.
    apply IH; [by rewrite Hlen|lia|]. rewrite Hlen. fold m.
    intros j Hj. destruct (decide (j = k)) as [->|Hne]; [done|].
    destruct (decide ((target + j) mod m = (target + k) mod m)%nat)
      as [->|Hother]; [done|].
    intros q Hq Hq'. cbn [players set_current_player_idx] in Hothers.
    rewrite Hothers in Hq by done.
    cbn [current_bet set_current_player_idx] in Hbet. rewrite Hbet.
    apply (Hmatched j); [lia|done|done].
Qed.

(** Before anybody has acted. *)
Lemma street_settles_from_start (fuel : nat) : ∀ (g : Game.t) (idx turns : nat)
    g' turns',
  betting_loop source fuel g idx None turns = Returned true g' turns' →
  bets_settled g'.
Proof.
  induction fuel as [|fuel IH]; intros g idx turns g' turns'; [done|].
  cbn [betting_loop].
  destruct (players g !! idx) as [p|] eqn:Hp; [|done].
  destruct (Player.is_active p) eqn:Hactive; cbn [negb]; [|apply IH].
  rewrite bool_decide_eq_false_2 by done.
  change (default idx None) with idx.
  destruct (source _ _ _ _) as [a|] eqn:Ha; [|done].
  apply (decisions_accepted _ _ _ p) in Ha; [|done].
  cbn [current_bet set_current_player_idx] in Ha |- *.
  destruct (process_action _ _ _ _ _) as [next|] eqn:Hnext; [|done].
  apply (accepted_step a (set_current_player_idx _ g) _ _ p) in Hnext;
    [|done|done].
  destruct Hnext as [[g1 ->]|(g1 & lr1 & -> & Hlen & Hidx & Hrest)]; [done|].
  cbn [players set_current_player_idx] in Hlen, Hidx.
  assert (Hseat : (idx < length (players g))%nat) by by eapply lookup_lt_Some.
  assert (lr1 = Some idx) as -> by (by destruct Hrest as [->|[-> _]]).
  replace ((idx + 1) mod length (players g))%nat
    with ((idx + 1) mod length (players g1))%nat by by rewrite Hlen.
  apply (street_settles fuel g1 idx 1); [by rewrite Hlen|done|].
  intros j Hj. assert (j = 0%nat) as -> by lia.
  rewrite Nat.add_0_r, Nat.mod_small by by rewrite Hlen. done.
Qed.

(** X19. With decisions that [human_decision] would let through,
    a street that returns [True] leaves the bets settled: every player
    still in the hand has matched the table's bet. *)
Theorem accepted_street_settles_bets (fuel : nat) (g g' : Game.t) (turns : nat) :
  betting_round source fuel g = Returned true g' turns →
  bets_settled g'.
Proof.
  unfold betting_round. destruct (_ <=? 1)%nat; [done|].
  apply street_settles_from_start.
Qed.

End SettledBets.

Section SettledBetsExample.
Import Game.


(** What [scripted_checked] lets through, [human_decision] would. *)
Lemma scripted_checked_accepted (actions : list Action) t h seat p
    amount_to_call a :
  players h !! seat = Some p →
  scripted_checked actions t h seat amount_to_call = Some a →
  human_accepts p amount_to_call a = true.
Proof.
  intros Hp. unfold scripted_checked. rewrite Hp.
  destruct (actions !! t) as [a'|]; [|done]. cbn [mbind option_bind].
  destruct (human_accepts p amount_to_call a') eqn:Hok; [|done].
  by intros [= <-].
Qed.

(** A raise over the blinds, a fold, a raise on top, and two calls. *)
Lemma accepted_street_settles_bets_witness :
  let g :=
    Game.mk [Player.mk 1000 [] true false 0; Player.mk 995 [] true true 5;
             Player.mk 990 [] true true 10]
            [] [] 15 10 0 0 5 10 in
  let decide :=
    scripted_checked [Raise 20; Fold; Raise 40; Call] in
  ∃ g',
    betting_round decide 10 g = Returned true g' 4
    ∧ Player.current_bet <$> players g' = [70; 5; 70]
    ∧ current_bet g' = 70
    ∧ bets_settled g'.
Proof.
  intros g decide. eexists. split; [vm_compute; reflexivity|].
  split; [reflexivity|]. split; [reflexivity|].
  apply (accepted_street_settles_bets decide
           (scripted_checked_accepted _) 10 g _ 4).
  vm_compute. reflexivity.
Defined.

End SettledBetsExample.

(** ** The order of the cards *)

Section CardOrder.
Import Hand.

(** *** Sorting *)

Lemma insert_desc_comm (x y : Z) (l : list Z) :
  insert_desc id Z.ltb x (insert_desc id Z.ltb y l)
  = insert_desc id Z.ltb y (insert_desc id Z.ltb x l).
Proof.
  induction l as [|z l IH];
    repeat (cbn [insert_desc id];
            match goal with
            | |- context [?a <? ?b] => destruct (Z.ltb_spec a b)
            end);
    try lia; try done; try (by rewrite IH);
    by assert (x = y) as -> by lia.
Qed.

Lemma sorted_desc_Permutation (l l' : list Z) :
  l ≡ₚ l' → sorted_desc id Z.ltb l = sorted_desc id Z.ltb l'.
Proof.
  induction 1 as [|x l l' _ IH|x y l|l l' l'' _ IH _ IH']; cbn [sorted_desc foldr].
  - done.
  - unfold sorted_desc in IH. by rewrite IH.
  - apply insert_desc_comm.
  - congruence.
Qed.

Lemma insert_asc_comm (x y : Z) (l : list Z) :
  insert_asc id Z.ltb x (insert_asc id Z.ltb y l)
  = insert_asc id Z.ltb y (insert_asc id Z.ltb x l).
Proof.
  induction l as [|z l IH];
    repeat (cbn [insert_asc id];
            match goal with
            | |- context [?a <? ?b] => destruct (Z.ltb_spec a b)
            end);
    try lia; try done; try (by rewrite IH);
    by assert (x = y) as -> by lia.
Qed.

Lemma sorted_asc_Permutation (l l' : list Z) :
  l ≡ₚ l' → sorted_asc id Z.ltb l = sorted_asc id Z.ltb l'.
Proof.
  induction 1 as [|x l l' _ IH|x y l|l l' l'' _ IH _ IH']; cbn [sorted_asc foldr].
  - done.
  - unfold sorted_asc in IH. by rewrite IH.
  - apply insert_asc_comm.
  - congruence.
Qed.

Lemma map_insert_desc {A} (key : A → Z) (x : A) (l : list A) :
  map key (insert_desc key Z.ltb x l)
  = insert_desc id Z.ltb (key x) (map key l).
Proof.
  induction l as [|y l IH]; [done|]. cbn [insert_desc map id].
  destruct (key x <? key y); [|done]. cbn [map]. by rewrite IH.
Qed.

Lemma map_sorted_desc {A} (key : A → Z) (l : list A) :
  map key (sorted_desc key Z.ltb l) = sorted_desc id Z.ltb (map key l).
Proof.
  induction l as [|x l IH]; [done|].
  cbn [sorted_desc foldr map]. rewrite map_insert_desc. unfold sorted_desc in IH.
  by rewrite IH.
Qed.

(** *** Counting *)

Lemma keys_Counter_acc ranks : ∀ acc k,
  k ∈ (foldl (λ items r, bump r items) acc ranks).*1 ↔ k ∈ acc.*1 ∨ k ∈ ranks.
Proof.
  induction ranks as [|r ranks IH]; intros acc k; cbn [foldl].
  - rewrite elem_of_nil. tauto.
  - rewrite IH, keys_bump, elem_of_cons. case_bool_decide as Hr.
    + split; [tauto|]. intros [?|[->|?]]; auto.
    + rewrite elem_of_app, list_elem_of_singleton. tauto.
Qed.

Lemma Counter_elem_iff ranks k c :
  (k, c) ∈ Counter ranks
  ↔ k ∈ ranks ∧ c = length (filter (λ x, x = k) ranks).
Proof.
  split.
  - intros Hin. split; [|by apply Counter_elem].
    assert (Hkey : k ∈ (Counter ranks).*1)
      by (apply list_elem_of_fmap; by exists (k, c)).
    apply (keys_Counter_acc ranks [] k) in Hkey as [Hnil|Hkey]; [|done].
    by apply elem_of_nil in Hnil.
  - intros [Hin ->].
    assert (Hkey : k ∈ (Counter ranks).*1)
      by (apply (keys_Counter_acc ranks [] k); by right).
    apply list_elem_of_fmap in Hkey as ([k' c] & -> & Hkc). cbn [fst].
    by destruct (Counter_elem _ _ _ Hkc) as [<- _].
Qed.

Lemma Counter_Permutation ranks ranks' :
  ranks ≡ₚ ranks' → Counter ranks ≡ₚ Counter ranks'.
Proof.
  intros Hperm. apply NoDup_Permutation.
  - eapply NoDup_fmap_1, (counted_keys _ _ (counted_Counter ranks)).
  - eapply NoDup_fmap_1, (counted_keys _ _ (counted_Counter ranks')).
  - intros [k c]. rewrite !Counter_elem_iff.
    by rewrite Hperm.
Qed.

Lemma has_count_Permutation n items items' :
  items ≡ₚ items' → has_count n items = has_count n items'.
Proof.
  intros Hperm.
  destruct (has_count n items) eqn:H1, (has_count n items') eqn:H2; try done.
  - apply has_count_elem in H1 as [k Hk]. rewrite Hperm in Hk.
    assert (has_count n items' = true) by (apply has_count_elem; eauto).
    congruence.
  - apply has_count_elem in H2 as [k Hk]. rewrite <- Hperm in Hk.
    assert (has_count n items = true) by (apply has_count_elem; eauto).
    congruence.
Qed.

Lemma ranks_with_Permutation n items items' :
  items ≡ₚ items' → ranks_with n items ≡ₚ ranks_with n items'.
Proof. intros Hperm. unfold ranks_with. by rewrite Hperm. Qed.

Lemma count_of_Permutation r ranks ranks' :
  ranks ≡ₚ ranks' → count_of r (Counter ranks) = count_of r (Counter ranks').
Proof. intros Hperm. rewrite !count_of_Counter. by rewrite Hperm. Qed.

(** *** At most one *)

Lemma perm_short {A} (l l' : list A) :
  l ≡ₚ l' → (length l ≤ 1)%nat → l = l'.
Proof.
  intros Hperm Hlen. destruct l as [|x [|y l]]; [| |simpl in Hlen; lia].
  - by apply Permutation_nil_l.
  - by apply Permutation_singleton_l.
Qed.

Lemma NoDup_ranks_with n items : NoDup items.*1 → NoDup (ranks_with n items).
Proof.
  induction items as [|[k c] items IH]; [constructor|].
  rewrite fmap_cons. cbn [fst]. intros [Hk Hrest]%NoDup_cons.
  unfold ranks_with. rewrite filter_cons. cbn [snd].
  destruct (decide (c = n)); [|by apply IH].
  cbn [map fst]. apply NoDup_cons. split; [|by apply IH].
  intros Hin. apply Hk. apply (ranks_with_elem n items k) in Hin.
  apply list_elem_of_fmap. by exists (k, n).
Qed.

(** Every rank counted [n] times takes [n] of the cards, and every rank
    counted [m] times [m] more. *)
Lemma weight_of_counts (n m : nat) items :
  n ≠ m →
  (n * length (ranks_with n items) + m * length (ranks_with m items)
   ≤ sum_list (values items))%nat.
Proof.
  intros Hnm. unfold ranks_with, values. rewrite !length_map.
  induction items as [|[k c] items IH]; [simpl; lia|].
  rewrite !filter_cons. cbn [map snd sum_list_with].
  change (sum_list_with id (map snd items)) with (sum_list (map snd items)).
  destruct (decide (c = n)), (decide (c = m)); cbn [length]; unfold id in *;
    nia.
Qed.

Lemma ranks_with_few (n : nat) (ranks : list Z) :
  (length ranks < 2 * n)%nat →
  (length (ranks_with n (Counter ranks)) ≤ 1)%nat.
Proof.
  intros Hlen. pose proof (weight_of_counts n (S n) (Counter ranks)) as Hw.
  rewrite (counted_sum _ _ (counted_Counter ranks)) in Hw. nia.
Qed.

Lemma head_ranks_with_Permutation (n : nat) (ranks ranks' : list Z) :
  ranks ≡ₚ ranks' →
  (length (ranks_with n (Counter ranks)) ≤ 1)%nat →
  ranks_with n (Counter ranks) = ranks_with n (Counter ranks').
Proof.
  intros Hperm Hlen. apply perm_short; [|done].
  by apply ranks_with_Permutation, Counter_Permutation.
Qed.

Lemma length_filter_le {A} (P Q : A → Prop) `{∀ x, Decision (P x)}
    `{∀ x, Decision (Q x)} (l : list A) :
  (∀ x, P x → Q x) → (length (filter P l) ≤ length (filter Q l))%nat.
Proof.
  intros HPQ. induction l as [|x l IH]; [done|].
  rewrite !filter_cons.
  destruct (decide (P x)) as [HP|HP], (decide (Q x)) as [HQ|HQ]; simpl;
    try lia.
  exfalso. by apply HQ, HPQ.
Qed.

Lemma length_filter_two (a b : Z) (l : list Z) :
  a ≠ b →
  (length (filter (λ x, x = a) l) + length (filter (λ x, x = b) l)
   + length (filter (λ x, x ≠ a ∧ x ≠ b) l))%nat = length l.
Proof.
  intros Hab. induction l as [|x l IH]; [done|].
  rewrite !filter_cons.
  destruct (decide (x = a)), (decide (x = b)), (decide (x ≠ a ∧ x ≠ b));
    simpl; try lia; try congruence; tauto.
Qed.

(** With two pairs among five cards, one card is left. *)
Lemma two_pair_one_kicker (ranks : list Z) :
  length ranks = 5%nat →
  length (ranks_with 2 (Counter ranks)) = 2%nat →
  (length (filter (λ r, count_of r (Counter ranks) = 1%nat) ranks) ≤ 1)%nat.
Proof.
  intros Hlen Hpairs.
  pose proof (NoDup_ranks_with 2 (Counter ranks)
                (counted_keys _ _ (counted_Counter ranks))) as Hnd.
  destruct (ranks_with 2 (Counter ranks)) as [|a [|b [|? ?]]] eqn:Hwith;
    try done.
  assert (Ha : (a, 2%nat) ∈ Counter ranks)
    by (apply ranks_with_elem; rewrite Hwith; by left).
  assert (Hb : (b, 2%nat) ∈ Counter ranks)
    by (apply ranks_with_elem; rewrite Hwith; right; by left).
  apply Counter_elem in Ha as [Ha _]. apply Counter_elem in Hb as [Hb _].
  assert (Hab : a ≠ b).
  { apply NoDup_cons in Hnd as [Hnotin _]. intros ->. apply Hnotin. by left. }
  pose proof (length_filter_two a b ranks Hab) as Hsplit.
  etrans; [apply (length_filter_le _ (λ x, x ≠ a ∧ x ≠ b))|lia].
  intros r Hr. rewrite count_of_Counter in Hr. split; intros ->; lia.
Qed.

(** *** Suits and runs *)

Lemma remove_dups_Permutation {A} `{EqDecision A} (l l' : list A) :
  l ≡ₚ l' → remove_dups l ≡ₚ remove_dups l'.
Proof.
  intros Hperm. apply NoDup_Permutation; [apply NoDup_remove_dups..|].
  intros x. by rewrite !elem_of_remove_dups, Hperm.
Qed.

Lemma set_eqb_spec (xs ys : list Z) :
  set_eqb xs ys = true
  ↔ (∀ x, x ∈ xs → x ∈ ys) ∧ (∀ y, y ∈ ys → y ∈ xs).
Proof.
  unfold set_eqb. rewrite andb_true_iff, !forallb_forall.
  split; intros [H1 H2]; split; intros x Hx.
  - apply list_elem_of_In in Hx. by apply H1, bool_decide_eq_true in Hx.
  - apply list_elem_of_In in Hx. by apply H2, bool_decide_eq_true in Hx.
  - apply bool_decide_eq_true, H1. by apply list_elem_of_In.
  - apply bool_decide_eq_true, H2. by apply list_elem_of_In.
Qed.

Lemma set_eqb_Permutation (xs xs' ys : list Z) :
  xs ≡ₚ xs' → set_eqb xs ys = set_eqb xs' ys.
Proof.
  intros Hperm.
  destruct (set_eqb xs ys) eqn:H1, (set_eqb xs' ys) eqn:H2; try done.
  - apply set_eqb_spec in H1.
    assert (set_eqb xs' ys = true); [|congruence].
    apply set_eqb_spec. split; intros x; rewrite <- Hperm; apply H1.
  - apply set_eqb_spec in H2.
    assert (set_eqb xs ys = true); [|congruence].
    apply set_eqb_spec. split; intros x; rewrite Hperm; apply H2.
Qed.

(** *** Five cards *)

Lemma evaluate_five_Permutation (cards cards' : list Card) :
  cards ≡ₚ cards' → length cards = 5%nat →
  evaluate_five cards = evaluate_five cards'.
Proof.
  intros Hperm Hlen. unfold evaluate_five.
  assert (Hranks : map rank_value cards ≡ₚ map rank_value cards')
    by by apply Permutation_map.
  assert (Hsuits : map suit cards ≡ₚ map suit cards')
    by by apply Permutation_map.
  assert (Hfive : length (map rank_value cards) = 5%nat)
    by by rewrite length_map.
  set (ranks := map rank_value cards) in *.
  set (ranks' := map rank_value cards') in *.
  pose proof (Counter_Permutation _ _ Hranks) as Hrc.
  pose proof (counted_sum _ _ (counted_Counter ranks)) as Hsum.
  rewrite Hfive in Hsum.
  rewrite <- (Permutation_length (remove_dups_Permutation _ _ Hsuits)).
  rewrite <- (sorted_asc_Permutation _ _ (remove_dups_Permutation _ _ Hranks)).
  rewrite <- (set_eqb_Permutation _ _ [8; 9; 10; 11; 12] Hranks).
  rewrite <- !(has_count_Permutation 4 _ _ Hrc).
  rewrite <- !(has_count_Permutation 3 _ _ Hrc).
  rewrite <- !(has_count_Permutation 2 _ _ Hrc).
  rewrite <- (sorted_desc_Permutation _ _ Hranks).
  rewrite <- !(length_ranks_with 2).
  rewrite <- (Permutation_length (ranks_with_Permutation 2 _ _ Hrc)).
  rewrite <- (sorted_desc_Permutation _ _ (ranks_with_Permutation 2 _ _ Hrc)).
  assert (Hkickers : ∀ k,
    sorted_desc id Z.ltb (filter (λ r, r ≠ k) ranks)
    = sorted_desc id Z.ltb (filter (λ r, r ≠ k) ranks')).
  { intros k. apply sorted_desc_Permutation. by rewrite Hranks. }
  destruct (straight_check _) as [is_straight straight_high].
  destruct (_ && set_eqb ranks _); [done|].
  destruct (_ && is_straight); [done|].
  destruct (has_count 4 _) eqn:H4.
  { rewrite <- (head_ranks_with_Permutation 4 ranks ranks' Hranks)
      by (apply ranks_with_few; lia).
    destruct (head_ranks_with _ _ H4) as (four & -> & Hfour).
    cbn [mbind option_bind].
    assert (filter (λ r, r ≠ four) ranks = filter (λ r, r ≠ four) ranks')
      as <-; [|done].
    apply perm_short; [by rewrite Hranks|].
    apply length_others in Hfour. lia. }
  destruct (has_count 3 _) eqn:H3.
  - rewrite <- (head_ranks_with_Permutation 3 ranks ranks' Hranks)
      by (apply ranks_with_few; lia).
    destruct (head_ranks_with _ _ H3) as (three & Hthree & _).
    rewrite Hthree.
    assert (Hone : (1 ≤ length (ranks_with 3 (Counter ranks)))%nat).
    { destruct (ranks_with 3 (Counter ranks)); [done|simpl; lia]. }
    pose proof (weight_of_counts 3 2 (Counter ranks) ltac:(lia)) as Hw.
    rewrite <- (head_ranks_with_Permutation 2 ranks ranks' Hranks) by lia.
    cbn [andb mbind option_bind]. by rewrite Hkickers.
  - cbn [andb].
    destruct (_ =? 1)%nat; [done|]. destruct is_straight; [done|].
    destruct (Nat.eqb_spec (length (ranks_with 2 (Counter ranks))) 2)
      as [Hpairs|Hpairs].
    + assert (filter (λ r, count_of r (Counter ranks) = 1%nat) ranks
              = filter (λ r, count_of r (Counter ranks') = 1%nat) ranks')
        as <-; [|done].
      rewrite <- (list_filter_iff (λ r, count_of r (Counter ranks) = 1%nat)
                    (λ r, count_of r (Counter ranks') = 1%nat) ranks')
        by (intros r; by rewrite (count_of_Permutation r _ _ Hranks)).
      apply perm_short; [by rewrite Hranks|].
      by apply two_pair_one_kicker.
    + pose proof (weight_of_counts 2 3 (Counter ranks) ltac:(lia)) as Hw.
      rewrite <- (head_ranks_with_Permutation 2 ranks ranks' Hranks) by lia.
      destruct (has_count 2 _); [|done].
      destruct (head (ranks_with 2 _)); [|done]. cbn [mbind option_bind].
      by rewrite Hkickers.
Qed.

(** *** Any number of cards *)

Lemma best_of_five_Permutation (cards cards' : list Card) (best : HandScore) :
  cards ≡ₚ cards' → best_of_five cards best → best_of_five cards' best.
Proof.
  intros Hperm [(sub & [Hsub Hlen] & Heval) Hmax]. split.
  - destruct (sublist_Permutation _ _ _ Hsub Hperm) as (sub' & Hsame & Hsub').
    exists sub'. split; [split; [done|by rewrite <- Hsame]|].
    rewrite evaluate_hand_five in * by by rewrite <- ?Hsame.
    by rewrite <- (evaluate_five_Permutation _ _ Hsame).
  - intros sub' s [Hsub' Hlen'] Heval'. symmetry in Hperm.
    destruct (sublist_Permutation _ _ _ Hsub' Hperm) as (sub0 & Hsame & Hsub0).
    apply (Hmax sub0 s); [split; [done|by rewrite <- Hsame]|].
    rewrite evaluate_hand_five in * by by rewrite <- ?Hsame.
    by rewrite <- (evaluate_five_Permutation _ _ Hsame).
Qed.

(** X20. The score of a hand does not depend on the order of its
    cards, however many there are: dealt in any order, the same cards
    score the same. *)
Theorem evaluate_hand_ignores_order (cards cards' : list Card) :
  cards ≡ₚ cards' → evaluate_hand cards = evaluate_hand cards'.
Proof.
  intros Hperm. pose proof (Permutation_length Hperm) as Hlen.
  destruct (lt_eq_lt_dec (length cards) 5) as [[Hshort|Hfive]|Hlong].
  - rewrite !evaluate_hand_short by lia. rewrite !map_sorted_desc.
    do 2 f_equal. apply sorted_desc_Permutation. by apply Permutation_map.
  - rewrite !evaluate_hand_five by lia. by apply evaluate_five_Permutation.
  - destruct (evaluate_hand_best_of_five cards) as (best & -> & Hbest); [lia|].
    destruct (evaluate_hand_best_of_five cards') as (best' & -> & Hbest');
      [lia|].
    f_equal. apply (best_of_five_unique cards' best'); [done|].
    by apply (best_of_five_Permutation cards).
Qed.

(** A full house among seven cards, as dealt and turned over. *)
Lemma evaluate_hand_ignores_order_witness :
  let cards := [mkCard RK Spades; mkCard R7 Hearts; mkCard RK Hearts;
                mkCard R2 Clubs; mkCard R7 Clubs; mkCard RK Diamonds;
                mkCard R9 Spades] in
  evaluate_hand cards = Some (6, [11; 5])
  ∧ evaluate_hand cards = evaluate_hand (reverse cards).
Proof.
  intros cards. split; [vm_compute; reflexivity|].
  apply (evaluate_hand_ignores_order cards (reverse cards)).
  symmetry. apply reverse_Permutation.
Defined.

End CardOrder.

(** ** A street that cannot end *)

Section OpeningFold.
Import Game.

Variable source : nat → Game.t → nat → Z → option Action.

(** The first decision of the street is a fold; after it nobody folds and
    nobody raises. *)
Hypothesis opener_folds :
  ∀ h seat amount_to_call, source 0 h seat amount_to_call = Some Fold.
Hypothesis others_stay :
  ∀ t h seat amount_to_call,
    source (S t) h seat amount_to_call = Some Check
    ∨ source (S t) h seat amount_to_call = Some Call.

(** The seat the action has to come back to is out of the hand. *)
Lemma spins (fuel : nat) : ∀ (g : Game.t) (idx target turns : nat),
  (idx < length (players g))%nat →
  active_at (players g) target = false →
  betting_loop source fuel g idx (Some target) (S turns) = OutOfFuel.
Proof.
  induction fuel as [|fuel IH]; intros g idx target turns Hidx Htarget; [done|].
  cbn [betting_loop].
  destruct (lookup_lt_is_Some_2 (players g) idx Hidx) as [p Hp]. rewrite Hp.
  assert (Hnext : ((idx + 1) mod length (players g) < length (players g))%nat)
    by (apply Nat.mod_upper_bound; lia).
  destruct (Player.is_active p) eqn:Hactive; cbn [negb]; [|by apply IH].
  rewrite bool_decide_eq_false_2.
  2: { intros [= ->]. rewrite (active_at_lookup _ _ _ Hp) in Htarget.
       congruence. }
  change (default idx (Some target)) with target.
  assert (Ha : ∃ a, source (S turns) (set_current_player_idx idx g) idx
                      (current_bet (set_current_player_idx idx g)
                       - Player.current_bet p) = Some a
                    ∧ (a = Check ∨ a = Call)).
  { destruct (others_stay turns (set_current_player_idx idx g) idx
                (current_bet (set_current_player_idx idx g)
                 - Player.current_bet p)) as [->| ->]; eauto. }
  destruct Ha as (a & -> & Ha).
  destruct (process_action_keeps a (set_current_player_idx idx g) idx
              (Some target)
              (current_bet (set_current_player_idx idx g)
               - Player.current_bet p) p Hp) as (g1 & -> & Hflags).
  { by destruct Ha as [-> | ->]. }
  cbn [players set_current_player_idx] in Hflags.
  assert (Hlr : match a with Raise _ => Some idx | _ => Some target end
                = Some target) by (by destruct Ha as [-> | ->]).
  rewrite Hlr, <- (length_flags _ _ Hflags).
  apply IH.
  - by rewrite (length_flags _ _ Hflags).
  - by rewrite (active_at_flags _ _ _ Hflags).
Qed.

Lemma opens_with_fold (fuel : nat) : ∀ (g : Game.t) (idx : nat),
  (idx < length (players g))%nat →
  (3 ≤ count_active (players g))%nat →
  betting_loop source fuel g idx None 0 = OutOfFuel.
Proof.
  induction fuel as [|fuel IH]; intros g idx Hidx Hcount; [done|].
  cbn [betting_loop].
  destruct (lookup_lt_is_Some_2 (players g) idx Hidx) as [p Hp]. rewrite Hp.
  assert (Hnext : ((idx + 1) mod length (players g) < length (players g))%nat)
    by (apply Nat.mod_upper_bound; lia).
  destruct (Player.is_active p) eqn:Hactive; cbn [negb]; [|by apply IH].
  rewrite bool_decide_eq_false_2 by done.
  rewrite opener_folds. cbn [process_action]. cbv zeta.
  cbn [players set_players set_current_player_idx].
  pose proof (count_active_fold _ _ _ Hp Hactive) as Hfold.
  destruct (Nat.eqb_spec (count_active (alter Player.fold idx (players g))) 1)
    as [|_]; [lia|].
  change (default idx None) with idx.
  rewrite <- (length_alter Player.fold (players g) idx) at 1.
  replace (length (alter Player.fold idx (players g)))
    with (length (players (set_players (alter Player.fold idx (players g))
                             (set_current_player_idx idx g))))
    by done.
  apply spins.
  - cbn [players set_players]. by rewrite length_alter.
  - cbn [players set_players]. unfold active_at.
    by rewrite list_lookup_alter_eq, Hp.
Qed.

(** X21. A street whose first decision is a fold cannot end unless
    somebody raises or the table folds down to one player: the loop waits
    for the turn to come back to the seat that acted first, and passes
    over that seat because it has folded.  With three players or more in
    the hand, and checks and calls only after the fold, [betting_round]
    never returns, however long it runs. *)
Theorem street_hangs_after_opening_fold (g : Game.t) (fuel : nat) :
  (3 ≤ count_active (players g))%nat →
  (current_player_idx g < length (players g))%nat →
  betting_round source fuel g = OutOfFuel.
Proof.
  intros Hcount Hidx. unfold betting_round.
  destruct (Nat.leb_spec (count_active (players g)) 1); [lia|].
  by apply opens_with_fold.
Qed.

End OpeningFold.

Section OpeningFoldExample.
Import Game.

(** Before the flop at a table of four: the first to act folds, the
    blinds and the button call or check for ever. *)
Lemma street_hangs_after_opening_fold_witness :
  let g :=
    Game.mk [Player.mk 1000 [] true true 0; Player.mk 995 [] true true 5;
             Player.mk 990 [] true true 10; Player.mk 1000 [] true true 0]
            [] [] 15 10 0 3 5 10 in
  let source := λ (turn : nat) (_ : Game.t) (_ : nat) (amount_to_call : Z),
    Some (match turn with
          | O => Fold
          | S _ => if amount_to_call =? 0 then Check else Call
          end) in
  betting_round source 1000 g = OutOfFuel.
Proof.
  intros g source.
  apply (street_hangs_after_opening_fold source).
  - done.
  - intros t h seat amount_to_call. subst source. cbn beta iota.
    destruct (amount_to_call =? 0); [by left|by right].
  - vm_compute. lia.
  - vm_compute. lia.
Defined.

End OpeningFoldExample.

(** ** One suit *)

Section OneSuit.
Import Hand.

Lemma index_of_inj (r r' : Rank) : index_of r = index_of r' → r = r'.
Proof. by destruct r, r'. Qed.

Lemma one_value {A} `{EqDecision A} (l : list A) :
  l ≠ [] →
  length (remove_dups l) = 1%nat ↔ ∀ x y, x ∈ l → y ∈ l → x = y.
Proof.
  intros Hne. pose proof (NoDup_remove_dups l) as Hnd. split.
  - intros Hone x y Hx%elem_of_remove_dups Hy%elem_of_remove_dups.
    destruct (remove_dups l) as [|z [|? ?]]; try done.
    apply list_elem_of_singleton in Hx, Hy. congruence.
  - intros Hsame. destruct l as [|x0 l]; [done|].
    assert (Hin : x0 ∈ remove_dups (x0 :: l))
      by (apply elem_of_remove_dups; by left).
    destruct (remove_dups (x0 :: l)) as [|a [|b rest]] eqn:Heq.
    + by apply elem_of_nil in Hin.
    + done.
    + assert (Ha : a ∈ x0 :: l)
        by (apply elem_of_remove_dups; rewrite Heq; by left).
      assert (Hb : b ∈ x0 :: l)
        by (apply elem_of_remove_dups; rewrite Heq; right; by left).
      assert (a = b) as -> by by apply Hsame.
      apply NoDup_cons in Hnd as [Hnotin _]. exfalso. apply Hnotin. by left.
Qed.

Lemma length_filter_NoDup (l : list Z) (k : Z) :
  NoDup l → (length (filter (λ x, x = k) l) ≤ 1)%nat.
Proof.
  induction 1 as [|x l Hx _ IH]; [simpl; lia|].
  rewrite filter_cons. destruct (decide (x = k)) as [->|]; [|done].
  cbn [length]. rewrite (filter_none (λ y, y = k) l); [simpl; lia|].
  apply Forall_forall. by intros y Hy ->.
Qed.

(** Distinct cards of one suit have distinct ranks. *)
Lemma ranks_of_one_suit (cards : list Card) :
  NoDup cards →
  (∀ c c', c ∈ cards → c' ∈ cards → suit c = suit c') →
  NoDup (map rank_value cards).
Proof.
  induction 1 as [|c cards Hc Hnd IH]; intros Hsuit; [constructor|].
  cbn [map]. apply NoDup_cons. split.
  - intros Hin. apply list_elem_of_fmap in Hin as (c' & Hrank & Hc').
    apply Hc. destruct c as [r s], c' as [r' s'].
    unfold rank_value in Hrank. cbn [rank] in Hrank.
    apply index_of_inj in Hrank as ->.
    assert (s = s') as ->; [|done].
    apply (Hsuit (mkCard r' s) (mkCard r' s')); [by left|by right].
  - apply IH. intros c1 c2 H1 H2. apply Hsuit; by right.
Qed.

(** X22. Five distinct cards score as a flush, a straight flush or
    a royal flush exactly when they are all of one suit. *)
Theorem one_suit_scores_as_flush (cards : list Card) (category : Z)
    (tie_breakers : list Z) :
  NoDup cards → length cards = 5%nat →
  evaluate_hand cards = Some (category, tie_breakers) →
  (∀ c c', c ∈ cards → c' ∈ cards → suit c = suit c')
  ↔ category = 5 ∨ category = 8 ∨ category = 9.
Proof.
  intros Hnd Hlen. rewrite evaluate_hand_five by done. unfold evaluate_five.
  assert (Hsuits : length (remove_dups (map suit cards)) = 1%nat
                   ↔ ∀ c c', c ∈ cards → c' ∈ cards → suit c = suit c').
  { rewrite one_value by (by destruct cards). split.
    - intros Hsame c c' Hc Hc'.
      apply Hsame; apply list_elem_of_fmap; eauto.
    - intros Hsame x y (c & -> & Hc)%list_elem_of_fmap
        (c' & -> & Hc')%list_elem_of_fmap. by apply Hsame. }
  rewrite <- Hsuits. clear Hsuits.
  destruct (Nat.eqb_spec (length (remove_dups (map suit cards))) 1)
    as [Hflush|Hflush].
  - assert (Hranks : NoDup (map rank_value cards)).
    { apply ranks_of_one_suit; [done|].
      rewrite one_value in Hflush by (by destruct cards).
      intros c c' Hc Hc'. apply Hflush; apply list_elem_of_fmap; eauto. }
    assert (Hcount : ∀ n, (2 ≤ n)%nat →
              has_count n (Counter (map rank_value cards)) = false).
    { intros n Hn. destruct (has_count n _) eqn:Hhas; [|done].
      apply has_count_elem in Hhas as [k [-> _]%Counter_elem].
      pose proof (length_filter_NoDup _ k Hranks). lia. }
    destruct (straight_check _) as [is_straight straight_high].
    cbn [andb].
    assert (Hyes : ∀ c : Z, c = 5 ∨ c = 8 ∨ c = 9 →
              length (remove_dups (map suit cards)) = 1%nat
              ↔ c = 5 ∨ c = 8 ∨ c = 9) by (intros; by split).
    destruct (set_eqb _ _).
    { intros Heq. injection Heq as <- <-. apply Hyes. auto. }
    destruct is_straight.
    { intros Heq. injection Heq as <- <-. apply Hyes. auto. }
    rewrite !Hcount by lia. cbn [andb].
    intros Heq. injection Heq as <- <-. apply Hyes. auto.
  - destruct (straight_check _) as [is_straight straight_high].
    cbn [andb].
    assert (Hno : ∀ c : Z, c ≠ 5 → c ≠ 8 → c ≠ 9 →
              length (remove_dups (map suit cards)) = 1%nat
              ↔ c = 5 ∨ c = 8 ∨ c = 9)
      by (intros; split; [intros ?; contradiction|lia]).
    destruct (has_count 4 _).
    { destruct (head _); [|done]. cbn [mbind option_bind].
      destruct (head _); [|done]. cbn [mbind option_bind].
      intros Heq. injection Heq as <- <-. by apply Hno. }
    destruct (has_count 3 _ && has_count 2 _).
    { destruct (head (ranks_with 3 _)); [|done]. cbn [mbind option_bind].
      destruct (head (ranks_with 2 _)); [|done]. cbn [mbind option_bind].
      intros Heq. injection Heq as <- <-. by apply Hno. }
    destruct is_straight; [intros Heq; injection Heq as <- <-; by apply Hno|].
    destruct (has_count 3 _).
    { destruct (head _); [|done]. cbn [mbind option_bind].
      intros Heq. injection Heq as <- <-. by apply Hno. }
    destruct (_ =? 2)%nat.
    { destruct (head _); [|done]. cbn [mbind option_bind].
      intros Heq. injection Heq as <- <-. by apply Hno. }
    destruct (has_count 2 _); [|intros Heq; injection Heq as <- <-; by apply Hno].
    destruct (head _); [|done]. cbn [mbind option_bind].
    intros Heq. injection Heq as <- <-. by apply Hno.
Qed.

(** Five hearts out of order, and the same with a spade among them. *)
Lemma one_suit_scores_as_flush_witness :
  let cards := [mkCard R9 Hearts; mkCard R2 Hearts; mkCard RK Hearts;
                mkCard R5 Hearts; mkCard RJ Hearts] in
  evaluate_hand cards = Some (5, [11; 9; 7; 3; 0])
  ∧ ((∀ c c', c ∈ cards → c' ∈ cards → suit c = suit c')
     ↔ 5 = 5 ∨ 5 = 8 ∨ 5 = 9).
Proof.
  intros cards.
  assert (Heval : evaluate_hand cards = Some (5, [11; 9; 7; 3; 0]))
    by (vm_compute; reflexivity).
  split; [exact Heval|].
  apply (one_suit_scores_as_flush cards 5 [11; 9; 7; 3; 0]);
    [compute_done|reflexivity|exact Heval].
Defined.

End OneSuit.
